(** * har-to-ts: schema inference and type deduplication

    A shallow embedding of [src/index.ts] (the generator behind the
    [har-to-ts] command) and the properties of its identifier normalizer,
    content-shape hasher, schema inference entry point, type registry and
    endpoint grouper.

    JavaScript strings are sequences of UTF-16 code units; they are
    modelled as lists of integers so that [charCodeAt] is list access and
    the regular expressions of the source are predicates on code units. *)

From Stdlib Require Import ZArith NArith List Bool Lia String Ascii.
From Stdlib Require Import DecimalString DecimalN.
Import ListNotations.
Open Scope Z_scope.

(* ================================================================== *)
(** ** Strings *)
(* ================================================================== *)

Module Js.

(** A JavaScript string: its code units. *)
Definition jsstring := list Z.

(** A literal of the source text (ASCII). *)
Definition lit (s : string) : jsstring :=
  map (fun a => Z.of_N (N_of_ascii a)) (list_ascii_of_string s).

(** [a === b] on strings. *)
Fixpoint eqb (a b : jsstring) : bool :=
  match a, b with
  | [], [] => true
  | x :: a', y :: b' => (x =? y) && eqb a' b'
  | _, _ => false
  end.

(** [haystack.includes(x)] on an array of strings. *)
Definition includes (l : list jsstring) (x : jsstring) : bool :=
  existsb (eqb x) l.

(** [s.startsWith(p)]: the rest of [s] after the prefix [p], if any. *)
Fixpoint strip_prefix (p s : jsstring) : option jsstring :=
  match p, s with
  | [], _ => Some s
  | x :: p', y :: s' => if x =? y then strip_prefix p' s' else None
  | _ :: _, [] => None
  end.

Definition startsWith (s p : jsstring) : bool :=
  match strip_prefix p s with Some _ => true | None => false end.

(** [s.includes(p)] on strings: [p] occurs somewhere in [s]. *)
Fixpoint contains (s p : jsstring) : bool :=
  startsWith s p ||
  match s with
  | [] => false
  | _ :: s' => contains s' p
  end.

(** [parts.join(sep)]. *)
Fixpoint join (sep : jsstring) (parts : list jsstring) : jsstring :=
  match parts with
  | [] => []
  | [p] => p
  | p :: ps => p ++ sep ++ join sep ps
  end.

(** The longest prefix of [s] whose code units satisfy [p], and the rest. *)
Fixpoint span (p : Z -> bool) (s : jsstring) : jsstring * jsstring :=
  match s with
  | [] => ([], [])
  | c :: s' =>
      if p c then let (a, b) := span p s' in (c :: a, b) else ([], s)
  end.

(** *** Character classes of the regular expressions *)

(** [\s]: WhiteSpace and LineTerminator code units. *)
Definition is_space (c : Z) : bool :=
  ((9 <=? c) && (c <=? 13)) || (c =? 32) || (c =? 160) || (c =? 5760)
  || ((8192 <=? c) && (c <=? 8202)) || (c =? 8232) || (c =? 8233)
  || (c =? 8239) || (c =? 8287) || (c =? 12288) || (c =? 65279).

(** [\d] *)
Definition is_digit (c : Z) : bool := (48 <=? c) && (c <=? 57).

Definition is_upper (c : Z) : bool := (65 <=? c) && (c <=? 90).
Definition is_lower (c : Z) : bool := (97 <=? c) && (c <=? 122).

(** [[a-zA-Z0-9]] *)
Definition is_alnum (c : Z) : bool := is_lower c || is_upper c || is_digit c.

(** [\w], which is [[a-zA-Z0-9_]] *)
Definition is_word (c : Z) : bool := is_alnum c || (c =? 95).

(** [toUpperCase] and [toLowerCase] on the code units they are applied to
    in this program (ASCII letters and digits; other code units are left
    alone by the model and never reach these functions). *)
Definition toUpperCase1 (c : Z) : Z := if is_lower c then c - 32 else c.
Definition toLowerCase1 (c : Z) : Z := if is_upper c then c + 32 else c.

(** Case-insensitive match of one code unit against an ASCII letter of a
    pattern with the [i] flag (canonicalisation never maps a code unit
    above 127 to an ASCII one). *)
Definition eqb_ci1 (pat c : Z) : bool := toLowerCase1 pat =? toLowerCase1 c.

Fixpoint strip_prefix_ci (p s : jsstring) : option jsstring :=
  match p, s with
  | [], _ => Some s
  | x :: p', y :: s' => if eqb_ci1 x y then strip_prefix_ci p' s' else None
  | _ :: _, [] => None
  end.

(** [s.trim()] *)
Fixpoint trimStart (s : jsstring) : jsstring :=
  match s with
  | [] => []
  | c :: s' => if is_space c then trimStart s' else s
  end.

Definition trimEnd (s : jsstring) : jsstring := rev (trimStart (rev s)).

Definition trim (s : jsstring) : jsstring := trimEnd (trimStart s).

(** *** Global replacement

    [s.replace(/re/g, by)] for a pattern that never matches the empty
    string. The pattern is given by its matcher: at a position, with the
    code unit before it (for [\b]) and the text from it, the length of the
    match there if there is one. The scan goes left to right; after a
    match it resumes behind the matched text. [skip] counts the code units
    of the current match still to be passed over. *)
Definition matcher := option Z -> jsstring -> option nat.

Fixpoint replace_from (m : matcher) (by_ : jsstring)
    (prev : option Z) (skip : nat) (s : jsstring) : jsstring :=
  match s with
  | [] => []
  | c :: s' =>
      match skip with
      | S k => replace_from m by_ (Some c) k s'
      | O =>
          match m prev s with
          | Some (S n) => by_ ++ replace_from m by_ (Some c) n s'
          | _ => c :: replace_from m by_ (Some c) 0%nat s'
          end
      end
  end.

Definition replace_all (m : matcher) (by_ s : jsstring) : jsstring :=
  replace_from m by_ None 0%nat s.

(** One or more code units of a class: [\s+], [\w+], [\d+]. The
    quantifier is greedy, and since what follows it in every pattern of
    this program starts with a code unit outside the class (or is the end
    of the pattern), backtracking into it never finds another match. *)
Definition plus (p : Z -> bool) (s : jsstring) : option (jsstring * jsstring) :=
  match span p s with
  | ([], _) => None
  | (a, b) => Some (a, b)
  end.

(** [number.toString()] for a non-negative integer. *)
Definition of_N (n : N) : jsstring :=
  lit (NilEmpty.string_of_uint (N.to_uint n)).

(** [number.toString(36)] for an integer. *)
Definition digit36 (d : Z) : Z := if d <? 10 then 48 + d else 87 + d.

Fixpoint digits36 (fuel : nat) (n : Z) (acc : jsstring) : jsstring :=
  match fuel with
  | O => acc
  | S f =>
      if n <? 36 then digit36 n :: acc
      else digits36 f (n / 36) (digit36 (n mod 36) :: acc)
  end.

Definition toString36 (n : Z) : jsstring :=
  if n <? 0 then 45 :: digits36 (S (Z.to_nat (Z.log2 (- n)))) (- n) []
  else digits36 (S (Z.to_nat (Z.log2 n))) n [].

End Js.

Import Js.

(* ================================================================== *)
(** ** Content-shape hasher *)
(* ================================================================== *)

(** [ToInt32]: the value of an integer as a signed 32-bit integer, which
    is what [<<] and [&] return. *)
Definition ToInt32 (z : Z) : Z := (z + 2 ^ 31) mod 2 ^ 32 - 2 ^ 31.

(** [/\s+/] *)
Definition re_spaces : matcher := fun _ s =>
  match plus is_space s with
  | Some (a, _) => Some (List.length a)
  | None => None
  end.

(** [/interface\s+\w+\s+/] *)
Definition re_interface_name : matcher := fun _ s =>
  match strip_prefix (lit "interface") s with
  | None => None
  | Some s1 =>
      match plus is_space s1 with
      | None => None
      | Some (_, s2) =>
          match plus is_word s2 with
          | None => None
          | Some (_, s3) =>
              match plus is_space s3 with
              | None => None
              | Some (_, s4) => Some (List.length s - List.length s4)%nat
              end
          end
      end
  end.

(** One round of the loop of [hashType]:
    [hash = (hash << 5) - hash + char; hash = hash & hash]. *)
Definition hash_step (hash : Z) (char : Z) : Z :=
  ToInt32 (ToInt32 (Z.shiftl hash 5) - hash + char).

Definition hashType (content : jsstring) : jsstring :=
  let normalizedContent :=
    trim (replace_all re_interface_name (lit "interface ")
            (replace_all re_spaces (lit " ") content)) in
  toString36 (fold_left hash_step normalizedContent 0).

(* ================================================================== *)
(** ** Maps, exceptions and the state of a run *)
(* ================================================================== *)

(** A JavaScript [Map] with string keys: entries in insertion order,
    [set] on a present key replaces its value in place. *)
Module JsMap.
Section WithValues.
Context {V : Type}.

Definition t := list (jsstring * V).

Definition empty : t := [].

Fixpoint get (m : t) (k : jsstring) : option V :=
  match m with
  | [] => None
  | (k', v) :: m' => if Js.eqb k' k then Some v else get m' k
  end.

Definition has (m : t) (k : jsstring) : bool :=
  match get m k with Some _ => true | None => false end.

Fixpoint set (m : t) (k : jsstring) (v : V) : t :=
  match m with
  | [] => [(k, v)]
  | (k', v') :: m' =>
      if Js.eqb k' k then (k', v) :: m' else (k', v') :: set m' k v
  end.

Definition keys (m : t) : list jsstring := map fst m.
Definition values (m : t) : list V := map snd m.
Definition size (m : t) : nat := List.length m.
End WithValues.
Arguments t : clear implicits.
End JsMap.

(** What a [throw] carries. *)
Inductive exn : Type :=
| SyntaxError (message : jsstring)
| TypeError (message : jsstring)
| Error (message : jsstring)
| Thrown (value : jsstring).

(** [error instanceof SyntaxError] *)
Definition instanceof_SyntaxError (e : exn) : bool :=
  match e with SyntaxError _ => true | _ => false end.

(** The result of a call into the platform or a library. *)
Inductive completion (A : Type) : Type :=
| Normal (a : A)
| Abrupt (e : exn).
Arguments Normal {A} a.
Arguments Abrupt {A} e.

(** The lines written by [console.warn] and [console.error]. *)
Inductive log_line : Type :=
| WarnFormData (name : jsstring) (error : exn)
| WarnJsonAndFormData (name : jsstring) (error : exn)
| WarnFallbackAny (name : jsstring) (error : exn)
| WarnResponse (url : jsstring) (error : exn)
| ErrorLine (error : exn).

(** The module-level state: the [propertyRegistry] and the console. *)
Record world : Type := mkWorld {
  propertyRegistry : JsMap.t jsstring;
  console : list log_line
}.

(** How a computation ends: it returns, it throws, or the bound given to
    one of its loops ran out before the loop's own exit test held. *)
Inductive outcome (A : Type) : Type :=
| Returns (a : A)
| Throws (e : exn)
| OutOfFuel.
Arguments Returns {A} a.
Arguments Throws {A} e.
Arguments OutOfFuel {A}.

Definition M (A : Type) : Type := world -> outcome A * world.

Definition ret {A} (a : A) : M A := fun w => (Returns a, w).

Definition bind {A B} (c : M A) (k : A -> M B) : M B := fun w =>
  match c w with
  | (Returns a, w') => k a w'
  | (Throws e, w') => (Throws e, w')
  | (OutOfFuel, w') => (OutOfFuel, w')
  end.

Definition throw {A} (e : exn) : M A := fun w => (Throws e, w).

(** [try { body } catch (error) { handler }] *)
Definition try_catch {A} (body : M A) (handler : exn -> M A) : M A := fun w =>
  match body w with
  | (Throws e, w') => handler e w'
  | r => r
  end.

Definition lift {A} (c : completion A) : M A :=
  match c with
  | Normal a => ret a
  | Abrupt e => throw e
  end.

Definition log (l : log_line) : M unit := fun w =>
  (Returns tt, mkWorld (propertyRegistry w) (console w ++ [l])).

Declare Scope M_scope.
Delimit Scope M_scope with M.
Notation "x <- c ;; k" := (bind c (fun x => k))
  (at level 61, c at next level, right associativity) : M_scope.
Notation "' pat <- c ;; k" := (bind c (fun x => match x with pat => k end))
  (at level 61, pat pattern, c at next level, right associativity) : M_scope.
Notation "c ;;; k" := (bind c (fun _ => k))
  (at level 61, right associativity) : M_scope.
Open Scope M_scope.

(** [for (const x of xs) { acc = body(acc, x) }] *)
Fixpoint for_of {A S} (xs : list A) (body : S -> A -> M S) (acc : S) : M S :=
  match xs with
  | [] => ret acc
  | x :: xs' => acc' <- body acc x ;; for_of xs' body acc'
  end.

(* ================================================================== *)
(** ** Identifier normalizer *)
(* ================================================================== *)

(** [name.replace(/^(ep\.|epn\.|_)/, "")] *)
Definition strip_noise_prefix (name : jsstring) : jsstring :=
  match strip_prefix (lit "ep.") name with
  | Some rest => rest
  | None =>
      match strip_prefix (lit "epn.") name with
      | Some rest => rest
      | None =>
          match strip_prefix (lit "_") name with
          | Some rest => rest
          | None => name
          end
      end
  end.

(** [s.replace(/[^a-zA-Z0-9_]/g, "_")] *)
Definition sanitize (s : jsstring) : jsstring :=
  map (fun c => if is_word c then c else 95) s.

(** The [while] loop of [normalizePropertyName], run for at most [fuel]
    tests of its condition. *)
Fixpoint uniqueName_loop (fuel : nat) (taken : list jsstring)
    (normalizedName uniqueName : jsstring) (counter : N) : option jsstring :=
  match fuel with
  | O => None
  | S fuel' =>
      if includes taken uniqueName
      then uniqueName_loop fuel' taken normalizedName
             (normalizedName ++ lit "_" ++ of_N counter) (counter + 1)%N
      else Some uniqueName
  end.

Definition normalizePropertyName (name : jsstring) : M jsstring := fun w =>
  let normalizedName := sanitize (strip_noise_prefix name) in
  match JsMap.get (propertyRegistry w) name with
  | Some known => (Returns known, w)
  | None =>
      let taken := JsMap.values (propertyRegistry w) in
      match uniqueName_loop (S (List.length taken)) taken
              normalizedName normalizedName 1%N with
      | Some uniqueName =>
          (Returns uniqueName,
           mkWorld (JsMap.set (propertyRegistry w) name uniqueName) (console w))
      | None => (OutOfFuel, w)
      end
  end.

(** [propertyRegistry.clear()] *)
Definition clear_propertyRegistry : M unit := fun w =>
  (Returns tt, mkWorld JsMap.empty (console w)).

(** [name.split(/[^a-zA-Z0-9]+/)] *)
Fixpoint split_non_alnum (s cur : jsstring) (in_sep : bool) : list jsstring :=
  match s with
  | [] => [rev cur]
  | c :: s' =>
      if is_alnum c then split_non_alnum s' (c :: cur) false
      else if in_sep then split_non_alnum s' cur true
      else rev cur :: split_non_alnum s' [] true
  end.

(** [part.charAt(0).toUpperCase() + part.slice(1).toLowerCase()] *)
Definition capitalize (part : jsstring) : jsstring :=
  match part with
  | [] => []
  | c :: rest => toUpperCase1 c :: map toLowerCase1 rest
  end.

Definition normalizeTypeName (name : jsstring) : jsstring :=
  join [] (map capitalize (split_non_alnum name [] false)).

(* ================================================================== *)
(** ** The platform and the [json-to-ts] library *)
(* ================================================================== *)

#[local] Set Warnings "-register-all".

(** A parsed JSON value. A number is kept as its numeral. *)
Inductive json : Type :=
| JNull
| JBool (b : bool)
| JNumber (numeral : jsstring)
| JString (s : jsstring)
| JArray (items : list json)
| JObject (members : list (jsstring * json)).

(** What the program reads of a [URL] object. *)
Record URL : Type := mkURL {
  pathname : jsstring;
  searchParams : list (jsstring * jsstring);
  origin : jsstring
}.

(** A call into a library that is handed [normalizePropertyName] as its
    [propertyFormatter]: the library returns, throws, or formats a key
    and goes on with the identifier it got back. It reaches the
    [propertyRegistry] in no other way. *)
Inductive lib (A : Type) : Type :=
| LibReturn (a : A)
| LibThrow (e : exn)
| LibFormat (key : jsstring) (k : jsstring -> lib A).
Arguments LibReturn {A} a.
Arguments LibThrow {A} e.
Arguments LibFormat {A} key k.

(** The functions the program calls but does not define. *)
Class Host : Type := {
  (** [JSON.parse(text)] *)
  JSON_parse : jsstring -> completion json;
  (** [jsonToTS(data, { rootName, propertyFormatter })] *)
  jsonToTS : json -> jsstring -> lib (list jsstring);
  (** [Array.from(new URLSearchParams(text).entries())] *)
  URLSearchParams : jsstring -> completion (list (jsstring * jsstring));
  (** [new URL(text)] *)
  URL_new : jsstring -> completion URL
}.

(* ================================================================== *)
(** ** Schema inference *)
(* ================================================================== *)

Definition nl : jsstring := [10].

(** [/^-?\d+$/.test(value)] *)
Definition re_integer_test (value : jsstring) : bool :=
  let digits := match value with 45 :: rest => rest | _ => value end in
  match plus is_digit digits with
  | Some (_, []) => true
  | _ => false
  end.

(** [/^true|false$/i.test(value)]: the alternation binds weaker than the
    anchors, so this is [^true] or [false$]. *)
Definition re_boolean_test (value : jsstring) : bool :=
  match strip_prefix_ci (lit "true") value with
  | Some _ => true
  | None =>
      match strip_prefix_ci (rev (lit "false")) (rev value) with
      | Some _ => true
      | None => false
      end
  end.

(** The [type] chosen for a form value in [generateTypeFromFormData]. *)
Definition form_value_type (value : jsstring) : jsstring :=
  if re_integer_test value then lit "number"
  else if re_boolean_test value then lit "boolean"
  else lit "string".

(** [/\bexport\s+/] *)
Definition re_export : matcher := fun prev s =>
  let boundary := match prev with Some c => negb (is_word c) | None => true end in
  if boundary then
    match strip_prefix (lit "export") s with
    | None => None
    | Some s1 =>
        match plus is_space s1 with
        | None => None
        | Some (ws, _) => Some (6 + List.length ws)%nat
        end
    end
  else None.

(** The payload handed to [generateTypeFromData]: [string | object]. *)
Inductive payload : Type :=
| Text (s : jsstring)
| Structured (v : json).

(** [parsed] is truthy and [typeof parsed === "object"]: an array or an
    object ([null] is falsy; booleans, numbers and strings have another
    [typeof]). *)
Definition is_truthy_object (parsed : json) : bool :=
  match parsed with
  | JArray _ | JObject _ => true
  | _ => false
  end.

Fixpoint run_lib {A} (c : lib A) : M A :=
  match c with
  | LibReturn a => ret a
  | LibThrow e => throw e
  | LibFormat key k => bind (normalizePropertyName key) (fun id => run_lib (k id))
  end.

Section Inference.
Context `{Host}.

Definition generateTypeFromFormData (name formData : jsstring) : M jsstring :=
  try_catch
    (params <- lift (URLSearchParams formData) ;;
     properties <-
       for_of params
         (fun (properties : JsMap.t jsstring) '(key, value) =>
            propName <- normalizePropertyName key ;;
            ret (JsMap.set properties propName (form_value_type value)))
         JsMap.empty ;;
     ret (lit "interface " ++ name ++ lit " {" ++ nl ++
          join nl (map (fun '(prop, type) =>
                          lit "  " ++ prop ++ lit ": " ++ type ++ lit ";")
                       properties) ++
          nl ++ lit "}"))
    (fun error =>
       log (WarnFormData name error) ;;;
       ret (lit "type " ++ name ++ lit " = Record<string, string>;")).

Definition generateTypeFromJSON (name : jsstring) (data : json) : M jsstring :=
  types <- run_lib (jsonToTS data name) ;;
  let uniqueTypes :=
    fold_left
      (fun (uniqueTypes : JsMap.t jsstring) type =>
         let cleanType := replace_all re_export [] type in
         let hash := hashType cleanType in
         if JsMap.has uniqueTypes hash then uniqueTypes
         else JsMap.set uniqueTypes hash type)
      types JsMap.empty in
  ret (join nl (JsMap.values uniqueTypes)).

Definition mime_is_form (mimeType : option jsstring) : bool :=
  match mimeType with
  | Some m => contains m (lit "application/x-www-form-urlencoded")
  | None => false
  end.

Definition generateTypeFromData (name : jsstring) (data : payload)
    (mimeType : option jsstring) : M jsstring :=
  try_catch
    (if mime_is_form mimeType then
       match data with
       | Text s => generateTypeFromFormData name s
       | Structured _ => throw (Error (lit "Form data must be a string"))
       end
     else
       parsed <- match data with
                 | Text s => lift (JSON_parse s)
                 | Structured v => ret v
                 end ;;
       if is_truthy_object parsed then generateTypeFromJSON name parsed
       else throw (Error (lit "Invalid JSON: not an object")))
    (fun error =>
       retried <-
         match data with
         | Text s =>
             if instanceof_SyntaxError error then
               try_catch
                 (t <- generateTypeFromFormData name s ;; ret (Some t))
                 (fun formError =>
                    log (WarnJsonAndFormData name error) ;;; ret None)
             else ret None
         | Structured _ => ret None
         end ;;
       match retried with
       | Some t => ret t
       | None =>
           log (WarnFallbackAny name error) ;;;
           ret (lit "type " ++ name ++ lit " = any;")
       end).

End Inference.

(* ================================================================== *)
(** ** The capture, the type registry and the generated listing *)
(* ================================================================== *)

Record HarHeader : Type := mkHeader {
  header_name : jsstring;
  header_value : jsstring
}.

(** [postData] of a request and [content] of a response. *)
Record Body : Type := mkBody {
  text : option jsstring;
  mimeType : option jsstring
}.

Record HarRequest : Type := mkRequest {
  method : jsstring;
  url : jsstring;
  headers : list HarHeader;
  postData : option Body
}.

Record HarResponse : Type := mkResponse {
  content : option Body
}.

Record HarEntry : Type := mkEntry {
  request : HarRequest;
  response : HarResponse
}.

Record GeneratorOptions : Type := mkOptions {
  mergeTypes : bool;
  typePrefix : jsstring
}.

(** The defaults of the destructuring in [generateFromHar]. *)
Definition default_options : GeneratorOptions := mkOptions true [].

Record TypeEntry : Type := mkTypeEntry {
  name : jsstring;
  definition : jsstring;
  hash : jsstring
}.

(** The arguments of the template of one generated function. *)
Record binding : Type := mkBinding {
  b_request : HarRequest;
  b_url : URL;
  b_paramsType : jsstring;
  b_bodyType : jsstring;
  b_responseType : jsstring
}.

(** The pieces appended to [output], in order. [Preamble] is the header
    the listing starts with (the generation date, the import and the
    shared types). [Export d] stands for the text of [d] between a line
    break and [export ] before it and a line break after it. [Function_ b]
    is the function template filled in from [b]. *)
Inductive chunk : Type :=
| Preamble
| Export (declaration : jsstring)
| Function_ (b : binding).

(** The two locals of [generateFromHar] that the loops update. *)
Record listing : Type := mkListing {
  typeRegistry : JsMap.t TypeEntry;
  output : list chunk
}.

(** [body?.text] when it is truthy. *)
Definition truthy_text (body : option Body) : option jsstring :=
  match body with
  | Some b =>
      match text b with
      | Some (c :: rest) => Some (c :: rest)
      | _ => None
      end
  | None => None
  end.

(** [body.mimeType] of a body that has a text. *)
Definition declared_mime (body : option Body) : option jsstring :=
  match body with
  | Some b => mimeType b
  | None => None
  end.

(** [typeRegistry.size || ""] inside a template. *)
Definition size_suffix (size : nat) : jsstring :=
  match size with
  | O => []
  | _ => of_N (N.of_nat size)
  end.

(** The lookup and the branch after [const hash = hashType(definition)],
    the same in the request loop and in the response loop: the name the
    caller goes on with, whether the definition was emitted, and the
    updated locals. *)
Definition register (mergeTypes : bool) (typeName definition : jsstring)
    (l : listing) : jsstring * bool * listing :=
  let hash_ := hashType definition in
  let existingType :=
    find (fun t => Js.eqb (hash t) hash_) (JsMap.values (typeRegistry l)) in
  match existingType with
  | Some t =>
      if mergeTypes then (name t, false, l)
      else
        (typeName, true,
         mkListing
           (JsMap.set (typeRegistry l) typeName
              (mkTypeEntry typeName definition hash_))
           (output l ++ [Export definition]))
  | None =>
      (typeName, true,
       mkListing
         (JsMap.set (typeRegistry l) typeName
            (mkTypeEntry typeName definition hash_))
         (output l ++ [Export definition]))
  end.

(** [s.split("/")], and in general at one code unit. *)
Fixpoint split_at (sep : Z) (s cur : jsstring) : list jsstring :=
  match s with
  | [] => [rev cur]
  | c :: s' =>
      if c =? sep then rev cur :: split_at sep s' []
      else split_at sep s' (c :: cur)
  end.

Definition getResourceName (u : URL) : jsstring :=
  let pathParts :=
    filter (fun part => match part with [] => false | _ => true end)
           (split_at 47 (pathname u) []) in
  match nth_error pathParts (List.length pathParts - 1) with
  | Some (c :: rest) => c :: rest
  | _ => lit "root"
  end.

(** [set.add(value)] on the values seen for one query key. *)
Definition set_add (values : list jsstring) (value : jsstring) : list jsstring :=
  if includes values value then values else values ++ [value].

Section Generator.
Context `{Host}.
Variable options : GeneratorOptions.

(** The loop that fills [endpointGroups]. *)
Definition group_entry (endpointGroups : JsMap.t (list HarEntry))
    (entry : HarEntry) : M (JsMap.t (list HarEntry)) :=
  u <- lift (URL_new (url (request entry))) ;;
  let resource := getResourceName u in
  let key := method (request entry) ++ lit "_" ++ resource in
  let endpointGroups :=
    if JsMap.has endpointGroups key then endpointGroups
    else JsMap.set endpointGroups key [] in
  match JsMap.get endpointGroups key with
  | Some groupEntries =>
      ret (JsMap.set endpointGroups key (groupEntries ++ [entry]))
  | None => throw (TypeError (lit "undefined group"))
  end.

(** [har.log.entries.filter((e) => e.request.url.startsWith("http"))] *)
Definition http_entries (entries : list HarEntry) : list HarEntry :=
  filter (fun e => startsWith (url (request e)) (lit "http")) entries.

Definition group_entries (entries : list HarEntry)
    : M (JsMap.t (list HarEntry)) :=
  for_of (http_entries entries) group_entry JsMap.empty.

(** The loop that fills [allQueryParams] for one group. *)
Definition collect_query_params (groupEntries : list HarEntry)
    : M (JsMap.t (list jsstring)) :=
  for_of groupEntries
    (fun allQueryParams entry =>
       entryUrl <- lift (URL_new (url (request entry))) ;;
       ret (fold_left
              (fun (allQueryParams : JsMap.t (list jsstring)) '(key, value) =>
                 let allQueryParams :=
                   if JsMap.has allQueryParams key then allQueryParams
                   else JsMap.set allQueryParams key [] in
                 match JsMap.get allQueryParams key with
                 | Some values =>
                     JsMap.set allQueryParams key (set_add values value)
                 | None => allQueryParams
                 end)
              (searchParams entryUrl) allQueryParams))
    JsMap.empty.

(** The text of the parameter interface of a group. *)
Definition params_interface (paramsTypeName : jsstring)
    (allQueryParams : JsMap.t (list jsstring)) : M jsstring :=
  lines <-
    for_of (JsMap.keys allQueryParams)
      (fun lines key =>
         propName <- normalizePropertyName key ;;
         ret (lines ++
              [lit "  " ++ propName ++ lit "?: string | number | boolean;"]))
      [] ;;
  ret (lit "interface " ++ paramsTypeName ++ lit " {" ++ nl ++
       join nl lines ++ nl ++ lit "}").

(** One round of the request-body loop: the locals and [bodyType]. *)
Definition request_body_step (requestTypeName : jsstring)
    (acc : listing * jsstring) (entry : HarEntry) : M (listing * jsstring) :=
  let '(l, bodyType) := acc in
  match truthy_text (postData (request entry)) with
  | Some body =>
      let typeName :=
        requestTypeName ++ size_suffix (JsMap.size (typeRegistry l)) in
      definition <-
        generateTypeFromData typeName (Text body)
          (declared_mime (postData (request entry))) ;;
      let '(finalName, _, l') :=
        register (mergeTypes options) typeName definition l in
      ret (l', finalName)
  | None => ret acc
  end.

Definition request_body_loop (requestTypeName : jsstring)
    (groupEntries : list HarEntry) (l : listing) : M (listing * jsstring) :=
  for_of groupEntries (request_body_step requestTypeName)
    (l, lit "undefined").

(** One round of the response loop: the locals and [responseType]. *)
Definition response_step (responseTypeName groupUrl : jsstring)
    (acc : listing * jsstring) (entry : HarEntry) : M (listing * jsstring) :=
  let '(l, responseType) := acc in
  match truthy_text (content (response entry)) with
  | Some body =>
      try_catch
        (let typeName :=
           responseTypeName ++ size_suffix (JsMap.size (typeRegistry l)) in
         definition <-
           generateTypeFromData typeName (Text body)
             (declared_mime (content (response entry))) ;;
         let '(finalName, _, l') :=
           register (mergeTypes options) typeName definition l in
         ret (l', lit "ResponseBase<" ++ finalName ++ lit ">"))
        (fun error => log (WarnResponse groupUrl error) ;;; ret acc)
  | None => ret acc
  end.

Definition response_loop (responseTypeName groupUrl : jsstring)
    (groupEntries : list HarEntry) (l : listing) : M (listing * jsstring) :=
  for_of groupEntries (response_step responseTypeName groupUrl)
    (l, lit "ResponseBase<unknown>").

(** The body of the loop over [endpointGroups]. *)
Definition process_group (l : listing) (groupEntries : list HarEntry)
    : M listing :=
  match groupEntries with
  | [] => throw (TypeError (lit "undefined entry"))
  | firstEntry :: _ =>
      let request := request firstEntry in
      u <- lift (URL_new (url request)) ;;
      let resource := getResourceName u in
      let baseTypeName := normalizeTypeName resource in
      let requestTypeName :=
        typePrefix options ++ baseTypeName ++ lit "Request" in
      let responseTypeName :=
        typePrefix options ++ baseTypeName ++ lit "Response" in
      let paramsTypeName :=
        typePrefix options ++ baseTypeName ++ lit "Params" in
      allQueryParams <- collect_query_params groupEntries ;;
      '(l, paramsType) <-
        match JsMap.size allQueryParams with
        | O =>
            ret (l, lit "{[key: string]: string | number | boolean | undefined}")
        | _ =>
            paramInterface <- params_interface paramsTypeName allQueryParams ;;
            ret (mkListing (typeRegistry l)
                   (output l ++ [Export paramInterface]),
                 paramsTypeName)
        end ;;
      '(l, bodyType) <- request_body_loop requestTypeName groupEntries l ;;
      '(l, responseType) <-
        response_loop responseTypeName (url request) groupEntries l ;;
      ret (mkListing (typeRegistry l)
             (output l ++
              [Function_ (mkBinding request u paramsType bodyType responseType)]))
  end.

(** [generateFromHar] from the reset of the [propertyRegistry] to the
    last append to [output]; the listing is then formatted and written
    by the caller's collaborators. An error on the way is reported on
    the console and thrown again. *)
Definition generateFromHar (entries : list HarEntry) : M (list chunk) :=
  try_catch
    (clear_propertyRegistry ;;;
     endpointGroups <- group_entries entries ;;
     l <- for_of (JsMap.values endpointGroups) process_group
            (mkListing JsMap.empty [Preamble]) ;;
     ret (output l))
    (fun error => log (ErrorLine error) ;;; throw error).

End Generator.

(* ================================================================== *)
(** ** A concrete platform for worked examples *)
(* ================================================================== *)

(** The theorems below hold for every [Host]. The examples need one to
    run on: this module gives the platform functions on the inputs the
    examples use. [JSON_parse] reads the JSON grammar; the other three
    answer as the platform does on the texts they cover and report every
    other text as [unsupported]. *)
Module Reference.

Definition unsupported {A} : completion A :=
  Abrupt (Thrown (lit "outside the texts covered by this instance")).

(** *** [JSON.parse] *)

Fixpoint skip_ws (s : jsstring) : jsstring :=
  match s with
  | c :: s' =>
      if (c =? 32) || (c =? 9) || (c =? 10) || (c =? 13) then skip_ws s' else s
  | [] => []
  end.

Definition hex_value (c : Z) : option Z :=
  if is_digit c then Some (c - 48)
  else if (97 <=? c) && (c <=? 102) then Some (c - 87)
  else if (65 <=? c) && (c <=? 70) then Some (c - 55)
  else None.

Definition hex4 (a b c d : Z) : option Z :=
  match hex_value a, hex_value b, hex_value c, hex_value d with
  | Some a, Some b, Some c, Some d => Some (((a * 16 + b) * 16 + c) * 16 + d)
  | _, _, _, _ => None
  end.

(** The characters of a string after its opening quote. *)
Fixpoint parse_string (s acc : jsstring) : option (jsstring * jsstring) :=
  match s with
  | [] => None
  | 34 :: rest => Some (rev acc, rest)
  | 92 :: 117 :: a :: b :: c :: d :: rest =>
      match hex4 a b c d with
      | Some u => parse_string rest (u :: acc)
      | None => None
      end
  | 92 :: e :: rest =>
      if (e =? 34) || (e =? 92) || (e =? 47) then parse_string rest (e :: acc)
      else if e =? 98 then parse_string rest (8 :: acc)
      else if e =? 102 then parse_string rest (12 :: acc)
      else if e =? 110 then parse_string rest (10 :: acc)
      else if e =? 114 then parse_string rest (13 :: acc)
      else if e =? 116 then parse_string rest (9 :: acc)
      else None
  | c :: rest => if c <? 32 then None else parse_string rest (c :: acc)
  end.

(** A JSON number at the start of [s]: an optional minus, an integer
    part without a leading zero, an optional fraction, an optional
    exponent. *)
Definition parse_number (s : jsstring) : option (jsstring * jsstring) :=
  let '(sign, s1) := match s with 45 :: r => ([45], r) | _ => ([], s) end in
  match plus is_digit s1 with
  | None => None
  | Some (int, s2) =>
      let '(int, s2) :=
        match int with
        | 48 :: d :: more => ([48], d :: more ++ s2)
        | _ => (int, s2)
        end in
      let '(frac, s3) :=
        match s2 with
        | 46 :: r =>
            match plus is_digit r with
            | Some (ds, r') => (Some (46 :: ds), r')
            | None => (None, s2)
            end
        | _ => (Some [], s2)
        end in
      match frac with
      | None => None
      | Some frac =>
          let exponent :=
            match s3 with
            | e :: r =>
                if (e =? 101) || (e =? 69) then
                  let '(esign, r1) :=
                    match r with
                    | x :: r' =>
                        if (x =? 43) || (x =? 45) then ([x], r') else ([], r)
                    | [] => ([], r)
                    end in
                  match plus is_digit r1 with
                  | Some (ds, r2) => Some (e :: esign ++ ds, r2)
                  | None => None
                  end
                else Some ([], s3)
            | [] => Some ([], s3)
            end in
          match exponent with
          | Some (ex, s4) => Some (sign ++ int ++ frac ++ ex, s4)
          | None => None
          end
      end
  end.

Fixpoint parse_value (fuel : nat) (s : jsstring) : option (json * jsstring) :=
  match fuel with
  | O => None
  | S fuel' =>
      match skip_ws s with
      | 123 :: r =>
          match skip_ws r with
          | 125 :: r' => Some (JObject [], r')
          | r' => parse_members fuel' r' []
          end
      | 91 :: r =>
          match skip_ws r with
          | 93 :: r' => Some (JArray [], r')
          | r' => parse_elements fuel' r' []
          end
      | 34 :: r =>
          match parse_string r [] with
          | Some (str, r') => Some (JString str, r')
          | None => None
          end
      | s' =>
          match strip_prefix (lit "true") s',
                strip_prefix (lit "false") s',
                strip_prefix (lit "null") s' with
          | Some r, _, _ => Some (JBool true, r)
          | _, Some r, _ => Some (JBool false, r)
          | _, _, Some r => Some (JNull, r)
          | None, None, None =>
              match parse_number s' with
              | Some (n, r) => Some (JNumber n, r)
              | None => None
              end
          end
      end
  end
with parse_elements (fuel : nat) (s : jsstring) (acc : list json)
    : option (json * jsstring) :=
  match fuel with
  | O => None
  | S fuel' =>
      match parse_value fuel' s with
      | Some (v, r) =>
          match skip_ws r with
          | 44 :: r' => parse_elements fuel' r' (acc ++ [v])
          | 93 :: r' => Some (JArray (acc ++ [v]), r')
          | _ => None
          end
      | None => None
      end
  end
with parse_members (fuel : nat) (s : jsstring) (acc : JsMap.t json)
    : option (json * jsstring) :=
  match fuel with
  | O => None
  | S fuel' =>
      match skip_ws s with
      | 34 :: r =>
          match parse_string r [] with
          | Some (key, r1) =>
              match skip_ws r1 with
              | 58 :: r2 =>
                  match parse_value fuel' r2 with
                  | Some (v, r3) =>
                      match skip_ws r3 with
                      | 44 :: r4 => parse_members fuel' r4 (JsMap.set acc key v)
                      | 125 :: r4 => Some (JObject (JsMap.set acc key v), r4)
                      | _ => None
                      end
                  | None => None
                  end
              | _ => None
              end
          | None => None
          end
      | _ => None
      end
  end.

Definition JSON_parse (s : jsstring) : completion json :=
  match parse_value (2 * List.length s + 2) s with
  | Some (v, rest) =>
      match skip_ws rest with
      | [] => Normal v
      | _ => Abrupt (SyntaxError (lit "Unexpected non-whitespace character after JSON"))
      end
  | None => Abrupt (SyntaxError (lit "Unexpected token in JSON"))
  end.

(** *** [json-to-ts] on an object whose members are primitives: one
    interface, a line per member, each key put through the formatter. *)

Definition primitive_type (v : json) : option jsstring :=
  match v with
  | JNull => Some (lit "null")
  | JBool _ => Some (lit "boolean")
  | JNumber _ => Some (lit "number")
  | JString _ => Some (lit "string")
  | JArray _ | JObject _ => None
  end.

Fixpoint flat_interface (rootName : jsstring) (members : list (jsstring * json))
    (lines : list jsstring) : lib (list jsstring) :=
  match members with
  | [] =>
      LibReturn [lit "interface " ++ rootName ++ lit " {" ++ nl ++
                 join nl lines ++ nl ++ lit "}"]
  | (key, v) :: members' =>
      match primitive_type v with
      | Some type =>
          LibFormat key (fun id =>
            flat_interface rootName members'
              (lines ++ [lit "  " ++ id ++ lit ": " ++ type ++ lit ";"]))
      | None => LibThrow (Thrown (lit "outside the texts covered by this instance"))
      end
  end.

Definition jsonToTS (data : json) (rootName : jsstring) : lib (list jsstring) :=
  match data with
  | JObject members => flat_interface rootName members []
  | _ => LibThrow (Thrown (lit "outside the texts covered by this instance"))
  end.

(** *** [URLSearchParams] on ASCII text without percent escapes *)

Definition is_plain_ascii (s : jsstring) : bool :=
  forallb (fun c => (0 <=? c) && (c <? 128) && negb (c =? 37)) s.

(** A pair [name=value] between two [&]: split at the first [=]. *)
Fixpoint split_pair (s name : jsstring) : jsstring * jsstring :=
  match s with
  | [] => (rev name, [])
  | c :: s' => if c =? 61 then (rev name, s') else split_pair s' (c :: name)
  end.

Definition plus_to_space (s : jsstring) : jsstring :=
  map (fun c => if c =? 43 then 32 else c) s.

Definition parse_urlencoded (s : jsstring) : list (jsstring * jsstring) :=
  map (fun pair =>
         let (n, v) := split_pair pair [] in (plus_to_space n, plus_to_space v))
      (filter (fun part => match part with [] => false | _ => true end)
              (split_at 38 s [])).

Definition URLSearchParams (init : jsstring)
    : completion (list (jsstring * jsstring)) :=
  if is_plain_ascii init then
    Normal (parse_urlencoded (match init with 63 :: rest => rest | _ => init end))
  else unsupported.

(** *** [new URL] without a base

    A text with no scheme (no [:] after a letter and scheme characters)
    fails to parse. The instance covers [http://host/path?query] and
    [https://...] with a lower-case host name, no port, no user
    information, no fragment, and a path of letters, digits, [-], [_],
    [~] and [/] (so nothing to escape and no dot segment). *)

Definition is_scheme_char (c : Z) : bool :=
  is_alnum c || (c =? 43) || (c =? 45) || (c =? 46).

Definition scheme_of (s : jsstring) : option (jsstring * jsstring) :=
  match s with
  | c :: _ =>
      if is_lower c || is_upper c then
        match span is_scheme_char s with
        | (scheme, 58 :: rest) => Some (map toLowerCase1 scheme, rest)
        | _ => None
        end
      else None
  | [] => None
  end.

Definition is_host_char (c : Z) : bool :=
  is_lower c || is_digit c || (c =? 45) || (c =? 46).

Definition is_path_char (c : Z) : bool :=
  is_alnum c || (c =? 45) || (c =? 95) || (c =? 126) || (c =? 47).

Definition URL_new (s : jsstring) : completion URL :=
  match scheme_of s with
  | None => Abrupt (TypeError (lit "Invalid URL"))
  | Some (scheme, rest) =>
      if Js.eqb scheme (lit "http") || Js.eqb scheme (lit "https") then
        match rest with
        | 47 :: 47 :: rest' =>
            match span is_host_char rest' with
            | (c :: host, after) =>
                if is_lower c || is_digit c then
                  let (path, after') := span is_path_char after in
                  let query :=
                    match after' with
                    | [] => Some []
                    | 63 :: q => if is_plain_ascii q && negb (existsb (Z.eqb 35) q)
                                 then Some q else None
                    | _ => None
                    end in
                  match query with
                  | Some q =>
                      Normal (mkURL (match path with [] => [47] | _ => path end)
                                    (parse_urlencoded q)
                                    (scheme ++ lit "://" ++ c :: host))
                  | None => unsupported
                  end
                else unsupported
            | _ => unsupported
            end
        | _ => unsupported
        end
      else unsupported
  end.

End Reference.

Definition reference_host : Host :=
  {| JSON_parse := Reference.JSON_parse;
     jsonToTS := Reference.jsonToTS;
     URLSearchParams := Reference.URLSearchParams;
     URL_new := Reference.URL_new |}.

(* ================================================================== *)
(** ** Notions used in the statements *)
(* ================================================================== *)

(** [s] does not begin with a code unit of the class [p]. *)
Definition stops (p : Z -> bool) (s : jsstring) : Prop :=
  match s with
  | [] => True
  | c :: _ => p c = false
  end.

(** A matcher that does not look at the code unit before the position. *)
Definition ignores_prev (m : matcher) : Prop :=
  forall p q s, m p s = m q s.

(** The calls to [normalizePropertyName] of one run, in order, and the
    identifiers they return. *)
Fixpoint normalize_all (names : list jsstring) : M (list jsstring) :=
  match names with
  | [] => ret []
  | raw :: names' =>
      id <- normalizePropertyName raw ;;
      ids <- normalize_all names' ;;
      ret (id :: ids)
  end.

(** No two raw names of the registry share an identifier. *)
Definition registry_injective (m : JsMap.t jsstring) : Prop :=
  forall k1 k2 v, JsMap.get m k1 = Some v -> JsMap.get m k2 = Some v -> k1 = k2.

(** The candidate built in the loop of [normalizePropertyName]. *)
Definition candidate (normalizedName : jsstring) (counter : N) : jsstring :=
  normalizedName ++ lit "_" ++ of_N counter.

(** The names the loop of [normalizePropertyName] tests in its first
    [fuel] rounds. *)
Fixpoint tested (fuel : nat) (normalizedName uniqueName : jsstring)
    (counter : N) : list jsstring :=
  match fuel with
  | O => []
  | S fuel' =>
      uniqueName ::
      tested fuel' normalizedName (candidate normalizedName counter)
        (counter + 1)%N
  end.

(** The computation returns, whatever the state it starts in. *)
Definition total {A} (c : M A) : Prop :=
  forall w, exists a w', c w = (Returns a, w').

(** The computation returns or throws: no loop of it runs out of its
    bound. *)
Definition settles {A} (c : M A) : Prop :=
  forall w, (exists a w', c w = (Returns a, w'))
            \/ (exists e w', c w = (Throws e, w')).

(** The text [interface name {], the lines, [}] of the templates. *)
Definition interface_text (name : jsstring) (lines : list jsstring) : jsstring :=
  lit "interface " ++ name ++ lit " {" ++ nl ++ join nl lines ++ nl ++ lit "}".

(** A line [  prop: type;] of an interface inferred from form data. *)
Definition field_line (prop type : jsstring) : jsstring :=
  lit "  " ++ prop ++ lit ": " ++ type ++ lit ";".

(** The permissive fallback [type name = any;]. *)
Definition any_alias (name : jsstring) : jsstring :=
  lit "type " ++ name ++ lit " = any;".

(** Entries for the worked examples. *)
Module Samples.

Definition form : jsstring := lit "application/x-www-form-urlencoded".

Definition get_ (u : jsstring) : HarEntry :=
  mkEntry (mkRequest (lit "GET") u [] None) (mkResponse None).

Definition post_ (u body mime : jsstring) : HarEntry :=
  mkEntry (mkRequest (lit "POST") u [] (Some (mkBody (Some body) (Some mime))))
          (mkResponse None).

Definition users : jsstring := lit "https://api.example.com/users".

Definition fresh_world : world := mkWorld JsMap.empty [].

Definition fresh_listing : listing := mkListing JsMap.empty [Preamble].

(** Two requests to one resource with two methods, each with a query. *)
Definition two_methods : list HarEntry :=
  [get_ (lit "https://api.example.com/users?page=1");
   post_ (lit "https://api.example.com/users?dry=true") (lit "name=bob") form].

End Samples.

(** Some entry of the group has a URL with at least one query parameter. *)
Definition observes_query `{Host} (groupEntries : list HarEntry) : Prop :=
  exists entry u,
    In entry groupEntries
    /\ URL_new (url (request entry)) = Normal u
    /\ searchParams u <> [].

(** The name of the parameter interface of a group whose first entry has
    the URL [u]. *)
Definition paramsTypeName_of (options : GeneratorOptions) (u : URL) : jsstring :=
  typePrefix options ++ normalizeTypeName (getResourceName u) ++ lit "Params".

(** [output l'] is [output l] with chunks appended. *)
Definition extends (l l' : listing) : Prop :=
  exists extra, output l' = output l ++ extra.

(** [new URL] accepts the URL of every entry of the list. *)
Definition urls_parse `{Host} (entries : list HarEntry) : Prop :=
  Forall (fun e => exists u, URL_new (url (request e)) = Normal u) entries.

(* ================================================================== *)
(** ** The other functions of the generator *)
(* ================================================================== *)

(** One or more code units of the class [p], as a pattern: [/\s+/] is
    [re_class_plus is_space], [/_+/] is [re_class_plus is_underscore]. *)
Definition re_class_plus (p : Z -> bool) : matcher := fun _ s =>
  match plus p s with
  | Some (a, _) => Some (List.length a)
  | None => None
  end.

Definition is_underscore (c : Z) : bool := c =? 95.

(** [url.replace(/^https?:\/\//, "")] *)
Definition strip_http_scheme (url : jsstring) : jsstring :=
  match strip_prefix (lit "https://") url with
  | Some rest => rest
  | None =>
      match strip_prefix (lit "http://") url with
      | Some rest => rest
      | None => url
      end
  end.

(** [s.split(/[?#]/)[0]] *)
Definition before_query (s : jsstring) : jsstring :=
  fst (span (fun c => negb ((c =? 63) || (c =? 35))) s).

(** [s.replace(/[^a-zA-Z0-9]/g, "_")] *)
Definition underscore_non_alnum (s : jsstring) : jsstring :=
  map (fun c => if is_alnum c then c else 95) s.

(** The value of [clean] when [createFunctionName] returns. *)
Definition clean_url (url : jsstring) : jsstring :=
  let clean := before_query (strip_http_scheme url) in
  let clean :=
    replace_all (re_class_plus is_underscore) (lit "_")
      (underscore_non_alnum clean) in
  firstn 80 clean.

Section FunctionName.
(** [String.prototype.toLowerCase] *)
Variable toLowerCase : jsstring -> jsstring.

Definition createFunctionName (url method : jsstring) : jsstring :=
  toLowerCase method ++ lit "_" ++ clean_url url.

End FunctionName.

(** [value.replace(/"/g, '\\"')]: a backslash before every double quote. *)
Definition escapeHeaderValue (value : jsstring) : jsstring :=
  flat_map (fun c => if c =? 34 then [92; 34] else [c]) value.

(** The header lines of the function template: the headers whose name
    does not start with a colon, each as ['name': 'value'] with the value
    escaped, joined by a comma, a line break and six spaces. *)
Definition header_lines (headers : list HarHeader) : jsstring :=
  join (lit "," ++ nl ++ lit "      ")
    (map (fun h =>
            lit "'" ++ header_name h ++ lit "': '"
            ++ escapeHeaderValue (header_value h) ++ lit "'")
         (filter (fun h => negb (startsWith (header_name h) (lit ":")))
                 headers)).

(** [value.key] for a value read from JSON, where [key] is not the name
    of a built-in property: the member of an object, [undefined] (here
    [None]) on anything else. *)
Definition member (v : json) (key : jsstring) : option json :=
  match v with
  | JObject members => JsMap.get members key
  | _ => None
  end.

(** The three messages of [validateHarFile]. *)
Definition msg_root : jsstring := lit "Invalid HAR file: Root must be an object".

Definition msg_log : jsstring :=
  lit "Invalid HAR file: Missing or invalid " ++ [34] ++ lit "log" ++ [34]
  ++ lit " property".

Definition msg_entries : jsstring :=
  lit "Invalid HAR file: Missing or invalid " ++ [34] ++ lit "entries" ++ [34]
  ++ lit " array".

(** [validateHarFile(har)] on the value [JSON.parse] gave for the capture
    file. [!x || typeof x !== "object"] fails exactly on arrays and
    objects; [!x || !Array.isArray(x)] fails exactly on arrays; the
    [entries] of an array-valued [log] is the built-in method, which is
    not an array. *)
Definition validateHarFile (har : json) : M unit :=
  if negb (is_truthy_object har) then throw (Error msg_root)
  else
    match member har (lit "log") with
    | Some log_ =>
        if negb (is_truthy_object log_) then throw (Error msg_log)
        else
          match member log_ (lit "entries") with
          | Some (JArray _) => ret tt
          | _ => throw (Error msg_entries)
          end
    | None => throw (Error msg_log)
    end.

(** The inner loop of [generateTypeFromJSON]: the map from fingerprint to
    the first type with that fingerprint. *)
Definition uniqueTypes_of (types : list jsstring) : JsMap.t jsstring :=
  fold_left
    (fun (uniqueTypes : JsMap.t jsstring) type =>
       let cleanType := replace_all re_export [] type in
       let hash := hashType cleanType in
       if JsMap.has uniqueTypes hash then uniqueTypes
       else JsMap.set uniqueTypes hash type)
    types JsMap.empty.

(** The fingerprint [generateTypeFromJSON] computes for a type. *)
Definition clean_hash (type : jsstring) : jsstring :=
  hashType (replace_all re_export [] type).

(** Runs of the class [p] squeezed into the single code unit [r]; [in_run]
    tells that the code unit before was of the class. *)
Fixpoint squeeze (p : Z -> bool) (r : Z) (in_run : bool) (s : jsstring)
    : jsstring :=
  match s with
  | [] => []
  | c :: s' =>
      if p c then (if in_run then squeeze p r true s'
                   else r :: squeeze p r true s')
      else c :: squeeze p r false s'
  end.

(** The key the grouping loop computes for an entry, when its URL
    parses. *)
Definition group_key `{Host} (entry : HarEntry) : option jsstring :=
  match URL_new (url (request entry)) with
  | Normal u => Some (method (request entry) ++ lit "_" ++ getResourceName u)
  | Abrupt _ => None
  end.

(** The first occurrences of the keys of a list, in order. *)
Fixpoint first_occurrences (seen keys : list jsstring) : list jsstring :=
  match keys with
  | [] => []
  | k :: keys' =>
      if includes seen k then first_occurrences seen keys'
      else k :: first_occurrences (seen ++ [k]) keys'
  end.

(** No two neighbours of [s] are both the code unit [r]. *)
Fixpoint no_adjacent (r : Z) (s : jsstring) : Prop :=
  match s with
  | a :: (b :: _) as rest => ~ (a = r /\ b = r) /\ no_adjacent r rest
  | _ => True
  end.

(** [s] has no [?] and no [#]. *)
Definition no_query_mark (s : jsstring) : bool :=
  forallb (fun c => negb ((c =? 63) || (c =? 35))) s.

(** Every identifier of the registry is made of word characters. *)
Definition registry_words (m : JsMap.t jsstring) : Prop :=
  Forall (fun id => forallb is_word id = true) (JsMap.values m).

(** No two entries of the type registry have the same fingerprint. *)
Definition fingerprints_distinct (l : listing) : Prop :=
  NoDup (map hash (JsMap.values (typeRegistry l))).

(** The fallback of [generateTypeFromFormData]. *)
Definition record_alias (name : jsstring) : jsstring :=
  lit "type " ++ name ++ lit " = Record<string, string>;".

Definition is_export (c : chunk) : bool :=
  match c with Export _ => true | _ => false end.

Definition is_function (c : chunk) : bool :=
  match c with Function_ _ => true | _ => false end.

(** The number of functions in a listing. *)
Definition count_functions (out : list chunk) : nat :=
  List.length (filter is_function out).

(** [output l'] is [output l] with declarations appended, and nothing
    else. *)
Definition extends_with_exports (l l' : listing) : Prop :=
  exists extra,
    output l' = output l ++ extra /\ forallb is_export extra = true.

(** The keys of the entries of a list, in order. *)
Definition entry_keys `{Host} (entries : list HarEntry) : list jsstring :=
  flat_map (fun e => match group_key e with
                     | Some k => [k]
                     | None => []
                     end) entries.

(** [entry] belongs to the group of key [k]. *)
Definition in_group `{Host} (k : jsstring) (entry : HarEntry) : bool :=
  match group_key entry with
  | Some k' => Js.eqb k' k
  | None => false
  end.

(** The query keys of the URLs of a list of entries, in order. *)
Definition query_keys `{Host} (entries : list HarEntry) : list jsstring :=
  flat_map (fun e => match URL_new (url (request e)) with
                     | Normal u => map fst (searchParams u)
                     | Abrupt _ => []
                     end) entries.

(** The listing without its declarations: the preamble and the
    functions. *)
Definition skeleton (out : list chunk) : list chunk :=
  filter (fun c => negb (is_export c)) out.

(** The last code unit of [s] is not a decimal digit. *)
Definition ends_in_non_digit (s : jsstring) : Prop :=
  exists s' c, s = s' ++ [c] /\ is_digit c = false.

(** The key at position [i] of the registry is a stem followed by
    [i || ""]. *)
Definition registry_indexed (m : JsMap.t TypeEntry) : Prop :=
  forall i k t,
    nth_error m i = Some (k, t) ->
    exists stem, ends_in_non_digit stem /\ k = stem ++ size_suffix i.

(** A line [  prop?: string | number | boolean;] of a parameter
    interface. *)
Definition optional_line (prop : jsstring) : jsstring :=
  lit "  " ++ prop ++ lit "?: string | number | boolean;".

(** The URL of the entry parses and has no query parameter. *)
Definition plain_url `{Host} (entry : HarEntry) : Prop :=
  exists u, URL_new (url (request entry)) = Normal u /\ searchParams u = [].

(** A digit of base 36: [[0-9a-z]]. *)
Definition is_base36 (c : Z) : bool := is_digit c || is_lower c.

(** A property name that can stand unquoted in an interface: a letter,
    [_] or [$], then letters, digits, [_] or [$]. *)
Definition is_identifier (s : jsstring) : bool :=
  match s with
  | [] => false
  | c :: rest =>
      (is_lower c || is_upper c || (c =? 95) || (c =? 36))
      && forallb (fun c => is_word c || (c =? 36)) rest
  end.

(** The declarations of a listing, in order. *)
Definition declarations (out : list chunk) : list jsstring :=
  flat_map (fun c => match c with Export d => [d] | _ => [] end) out.

(** The body types of the functions of a listing, in order. *)
Definition body_types (out : list chunk) : list jsstring :=
  flat_map (fun c => match c with
                     | Function_ b => [b_bodyType b]
                     | _ => []
                     end) out.

(* ================================================================== *)
(** ** Strings: basic facts *)
(* ================================================================== *)

Lemma eqb_eq (a b : jsstring) : Js.eqb a b = true <-> a = b.
Proof.
  revert b. induction a as [|x a IH]; intros [|y b]; simpl; split;
    try congruence; try reflexivity.
  - intros E. apply andb_prop in E as [E1 E2]. apply Z.eqb_eq in E1.
    apply IH in E2. congruence.
  - intros E. injection E as -> ->. rewrite Z.eqb_refl. simpl. now apply IH.
Qed.

Lemma eqb_refl (a : jsstring) : Js.eqb a a = true.
Proof. now apply eqb_eq. Qed.

Lemma eqb_neq (a b : jsstring) : Js.eqb a b = false <-> a <> b.
Proof.
  rewrite <- eqb_eq. destruct (Js.eqb a b); split; congruence.
Qed.

Lemma eqb_sym (a b : jsstring) : Js.eqb a b = Js.eqb b a.
Proof.
  destruct (Js.eqb a b) eqn:E.
  - apply eqb_eq in E. subst. symmetry. apply eqb_refl.
  - apply eqb_neq in E. symmetry. apply eqb_neq. congruence.
Qed.

Lemma includes_true (l : list jsstring) (x : jsstring) :
  includes l x = true <-> In x l.
Proof.
  unfold includes. rewrite existsb_exists. split.
  - intros (y & Hy & E). apply eqb_eq in E. now subst.
  - intros Hx. exists x. split; [assumption | apply eqb_refl].
Qed.

Lemma includes_false (l : list jsstring) (x : jsstring) :
  includes l x = false <-> ~ In x l.
Proof.
  rewrite <- includes_true. destruct (includes l x); split; congruence.
Qed.

Lemma strip_prefix_app (p s : jsstring) : strip_prefix p (p ++ s) = Some s.
Proof.
  induction p as [|x p IH]; simpl; [reflexivity|].
  now rewrite Z.eqb_refl.
Qed.

Lemma strip_prefix_Some (p s r : jsstring) :
  strip_prefix p s = Some r -> s = p ++ r.
Proof.
  revert s. induction p as [|x p IH]; intros [|y s]; simpl; try congruence.
  destruct (Z.eqb_spec x y); [|discriminate].
  intros E. apply IH in E. congruence.
Qed.

Lemma lit_inj (a b : string) : lit a = lit b -> a = b.
Proof.
  unfold lit. intros E.
  rewrite <- (string_of_list_ascii_of_string a),
          <- (string_of_list_ascii_of_string b).
  f_equal. revert E.
  generalize (list_ascii_of_string a), (list_ascii_of_string b).
  intros l. induction l as [|x l IH]; intros [|y l']; simpl; try congruence.
  intros E. injection E as E1 E2. f_equal; [|now apply IH].
  apply N2Z.inj in E1.
  rewrite <- (ascii_N_embedding x), <- (ascii_N_embedding y). congruence.
Qed.

Lemma of_N_inj (n m : N) : of_N n = of_N m -> n = m.
Proof.
  unfold of_N. intros E. apply lit_inj in E.
  apply DecimalN.Unsigned.to_uint_inj.
  assert (S : Some (N.to_uint n) = Some (N.to_uint m))
    by (rewrite <- !NilEmpty.usu; congruence).
  congruence.
Qed.

(** *** [span] and the global replacement *)

Lemma span_app (p : Z -> bool) (s : jsstring) :
  fst (span p s) ++ snd (span p s) = s.
Proof.
  induction s as [|c s IH]; simpl; [reflexivity|].
  destruct (p c); [|reflexivity].
  destruct (span p s) as [a b]. simpl in *. congruence.
Qed.

Lemma span_all (p : Z -> bool) (a s : jsstring) :
  forallb p a = true ->
  span p (a ++ s) = (a ++ fst (span p s), snd (span p s)).
Proof.
  induction a as [|c a IH]; simpl.
  - intros _. now destruct (span p s).
  - intros E. apply andb_prop in E as [E1 E2]. rewrite E1, (IH E2).
    reflexivity.
Qed.

Lemma span_stops (p : Z -> bool) (s : jsstring) :
  stops p s -> span p s = ([], s).
Proof.
  destruct s as [|c s]; simpl; [reflexivity|]. now intros ->.
Qed.

Lemma span_exact (p : Z -> bool) (a s : jsstring) :
  forallb p a = true -> stops p s -> span p (a ++ s) = (a, s).
Proof.
  intros Ha Hs. rewrite (span_all _ _ _ Ha), (span_stops _ _ Hs). simpl.
  now rewrite app_nil_r.
Qed.

Lemma plus_exact (p : Z -> bool) (a s : jsstring) :
  a <> [] -> forallb p a = true -> stops p s -> plus p (a ++ s) = Some (a, s).
Proof.
  intros Hne Ha Hs. unfold plus. rewrite (span_exact _ _ _ Ha Hs).
  destruct a; congruence.
Qed.

Lemma trimStart_stops (s : jsstring) : stops is_space (trimStart s).
Proof.
  induction s as [|c s IH]; simpl; [exact I|].
  destruct (is_space c) eqn:E; [assumption | exact E].
Qed.

Lemma span_space_trimStart (s : jsstring) :
  snd (span is_space s) = trimStart s.
Proof.
  induction s as [|c s IH]; simpl; [reflexivity|].
  destruct (is_space c); [|reflexivity].
  destruct (span is_space s). simpl in *. assumption.
Qed.

Lemma replace_from_prev (m : matcher) (by_ : jsstring) :
  ignores_prev m ->
  forall s p q k, replace_from m by_ p k s = replace_from m by_ q k s.
Proof.
  intros Hm. induction s as [|c s IH]; intros p q k; simpl; [reflexivity|].
  destruct k; [|reflexivity].
  now rewrite (Hm p q).
Qed.

Lemma replace_from_skip (m : matcher) (by_ : jsstring) :
  ignores_prev m ->
  forall x y p,
    replace_from m by_ p (List.length x) (x ++ y) = replace_from m by_ p 0 y.
Proof.
  intros Hm. induction x as [|c x IH]; intros y p; simpl; [reflexivity|].
  rewrite IH. now apply replace_from_prev.
Qed.

(** The scan at a position where the pattern matches the prefix [x]. *)
Lemma replace_from_match (m : matcher) (by_ x y : jsstring) (p : option Z) :
  ignores_prev m -> x <> [] ->
  m p (x ++ y) = Some (List.length x) ->
  replace_from m by_ p 0 (x ++ y) = by_ ++ replace_from m by_ p 0 y.
Proof.
  intros Hm Hx Hmatch. destruct x as [|c x]; [congruence|].
  change ((c :: x) ++ y) with (c :: (x ++ y)) in *.
  cbn [replace_from]. rewrite Hmatch. cbn [List.length].
  rewrite (replace_from_skip m by_ Hm x y). f_equal.
  now apply replace_from_prev.
Qed.

(** The scan at a position where the pattern does not match. *)
Lemma replace_from_nomatch (m : matcher) (by_ s : jsstring) (c : Z)
    (p : option Z) :
  ignores_prev m -> m p (c :: s) = None ->
  replace_from m by_ p 0 (c :: s) = c :: replace_from m by_ p 0 s.
Proof.
  intros Hm Hno. cbn [replace_from]. rewrite Hno. f_equal.
  now apply replace_from_prev.
Qed.

(* ================================================================== *)
(** ** Content-shape hasher: the name after [interface] is erased *)
(* ================================================================== *)

Lemma word_not_space (c : Z) : is_word c = true -> is_space c = false.
Proof.
  unfold is_word, is_alnum, is_lower, is_upper, is_digit, is_space.
  intros Hc.
  assert (48 <= c <= 122)
    by (rewrite !orb_true_iff, !andb_true_iff, !Z.leb_le, Z.eqb_eq in Hc; lia).
  rewrite !orb_false_iff, !andb_false_iff, !Z.leb_gt, !Z.eqb_neq. lia.
Qed.

Lemma space_not_word (c : Z) : is_space c = true -> is_word c = false.
Proof.
  intros Hs. destruct (is_word c) eqn:Hw; [|reflexivity].
  apply word_not_space in Hw. congruence.
Qed.

Lemma words_not_spaces (a : jsstring) :
  forallb is_word a = true -> forallb (fun c => negb (is_space c)) a = true.
Proof.
  induction a as [|c a IH]; simpl; [reflexivity|].
  intros E. apply andb_prop in E as [E1 E2].
  now rewrite (word_not_space _ E1), IH.
Qed.

Lemma span_fst_all (p : Z -> bool) (s : jsstring) :
  forallb p (fst (span p s)) = true.
Proof.
  induction s as [|c s IH]; simpl; [reflexivity|].
  destruct (p c) eqn:E; [|reflexivity].
  destruct (span p s). simpl in *. now rewrite E.
Qed.

Lemma re_spaces_ignores_prev : ignores_prev re_spaces.
Proof. intros p q s. reflexivity. Qed.

Lemma re_interface_name_ignores_prev : ignores_prev re_interface_name.
Proof. intros p q s. reflexivity. Qed.

(** Whitespace collapse passes over text without whitespace. *)
Lemma collapse_plain (a s : jsstring) (p : option Z) :
  forallb (fun c => negb (is_space c)) a = true ->
  replace_from re_spaces (lit " ") p 0 (a ++ s)
  = a ++ replace_from re_spaces (lit " ") p 0 s.
Proof.
  induction a as [|c a IH]; simpl app; [reflexivity|].
  intros E. cbn [forallb] in E. apply andb_prop in E as [E1 E2].
  apply negb_true_iff in E1.
  rewrite (replace_from_nomatch re_spaces).
  - now rewrite (IH E2).
  - apply re_spaces_ignores_prev.
  - unfold re_spaces, plus. simpl. now rewrite E1.
Qed.

(** Whitespace collapse turns a run of whitespace, with whatever
    whitespace follows it, into one space. *)
Lemma collapse_run (ws s : jsstring) (p : option Z) :
  ws <> [] -> forallb is_space ws = true ->
  replace_from re_spaces (lit " ") p 0 (ws ++ s)
  = lit " " ++ replace_from re_spaces (lit " ") p 0 (trimStart s).
Proof.
  intros Hne Hws.
  rewrite <- (span_app is_space s) at 1.
  rewrite span_space_trimStart, app_assoc.
  apply replace_from_match.
  - apply re_spaces_ignores_prev.
  - destruct ws; [congruence | discriminate].
  - unfold re_spaces. rewrite plus_exact; [reflexivity | | | ].
    + destruct ws; [congruence | discriminate].
    + rewrite forallb_app, Hws. apply span_fst_all.
    + apply trimStart_stops.
Qed.

Lemma collapse_stops (s : jsstring) (p : option Z) :
  stops is_space s ->
  stops is_space (replace_from re_spaces (lit " ") p 0 s).
Proof.
  destruct s as [|c s]; [intros _; exact I|].
  intros E. change (is_space c = false) in E.
  rewrite (replace_from_nomatch re_spaces).
  - exact E.
  - apply re_spaces_ignores_prev.
  - unfold re_spaces, plus. simpl. now rewrite E.
Qed.

Lemma trimStart_word (a s : jsstring) :
  a <> [] -> forallb is_word a = true -> trimStart (a ++ s) = a ++ s.
Proof.
  destruct a as [|c a]; [congruence|]. intros _ E. simpl in *.
  apply andb_prop in E as [E _]. now rewrite (word_not_space _ E).
Qed.

Lemma word_stops_space (a s : jsstring) :
  a <> [] -> forallb is_word a = true -> stops is_space (a ++ s).
Proof.
  destruct a as [|c a]; [congruence|]. intros _ E. simpl in *.
  apply andb_prop in E as [E _]. now apply word_not_space.
Qed.

(** The collapsed text of an interface declaration. *)
Lemma collapse_interface (ws1 A ws2 rest : jsstring) :
  A <> [] -> forallb is_word A = true ->
  ws1 <> [] -> forallb is_space ws1 = true ->
  ws2 <> [] -> forallb is_space ws2 = true ->
  replace_all re_spaces (lit " ") (lit "interface" ++ ws1 ++ A ++ ws2 ++ rest)
  = lit "interface" ++ lit " " ++ A ++ lit " " ++
    replace_all re_spaces (lit " ") (trimStart rest).
Proof.
  intros HA HAw H1 H1s H2 H2s. unfold replace_all.
  rewrite collapse_plain by reflexivity.
  rewrite collapse_run by assumption.
  rewrite trimStart_word by assumption.
  rewrite collapse_plain by now apply words_not_spaces.
  rewrite collapse_run by assumption.
  reflexivity.
Qed.

(** The pattern [interface\s+\w+\s+] at a collapsed declaration. *)
Lemma erase_interface_name (A R : jsstring) :
  A <> [] -> forallb is_word A = true -> stops is_space R ->
  replace_all re_interface_name (lit "interface ")
    (lit "interface" ++ lit " " ++ A ++ lit " " ++ R)
  = lit "interface " ++ replace_all re_interface_name (lit "interface ") R.
Proof.
  intros HA HAw HR. unfold replace_all.
  replace (lit "interface" ++ lit " " ++ A ++ lit " " ++ R)
    with ((lit "interface" ++ lit " " ++ A ++ lit " ") ++ R)
    by (now rewrite <- !app_assoc).
  apply replace_from_match.
  - apply re_interface_name_ignores_prev.
  - discriminate.
  - unfold re_interface_name.
    rewrite <- !app_assoc, strip_prefix_app.
    rewrite (plus_exact is_space (lit " ") (A ++ lit " " ++ R));
      [| discriminate | reflexivity | now apply word_stops_space].
    rewrite (plus_exact is_word A (lit " " ++ R));
      [| assumption | assumption | reflexivity].
    rewrite (plus_exact is_space (lit " ") R);
      [| discriminate | reflexivity | assumption].
    f_equal. rewrite !length_app. lia.
Qed.

(** The text hashed for an interface declaration does not contain the
    declared name, nor the whitespace around it. *)
Lemma hashType_interface (ws1 A ws2 rest : jsstring) :
  A <> [] -> forallb is_word A = true ->
  ws1 <> [] -> forallb is_space ws1 = true ->
  ws2 <> [] -> forallb is_space ws2 = true ->
  hashType (lit "interface" ++ ws1 ++ A ++ ws2 ++ rest)
  = toString36
      (fold_left hash_step
         (trim (lit "interface " ++
                replace_all re_interface_name (lit "interface ")
                  (replace_all re_spaces (lit " ") (trimStart rest))))
         0).
Proof.
  intros. unfold hashType.
  rewrite collapse_interface by assumption.
  rewrite erase_interface_name; try assumption; [reflexivity|].
  apply collapse_stops, trimStart_stops.
Qed.

(** For names made of word characters the fingerprint does not depend
    on the declared interface name: two interface definition texts that
    differ only in a non-empty run of word characters after the
    [interface] keyword, and in the whitespace around it, have the same
    fingerprint. *)
Theorem hashType_name_insensitive
    (A B ws1 ws2 ws1' ws2' rest : jsstring) :
  A <> [] -> forallb is_word A = true ->
  B <> [] -> forallb is_word B = true ->
  ws1 <> [] -> forallb is_space ws1 = true ->
  ws2 <> [] -> forallb is_space ws2 = true ->
  ws1' <> [] -> forallb is_space ws1' = true ->
  ws2' <> [] -> forallb is_space ws2' = true ->
  hashType (lit "interface" ++ ws1 ++ A ++ ws2 ++ rest)
  = hashType (lit "interface" ++ ws1' ++ B ++ ws2' ++ rest).
Proof.
  intros. now rewrite !hashType_interface by assumption.
Qed.

Lemma hashType_name_insensitive_witness :
  hashType (lit "interface" ++ lit " " ++ lit "UsersResponse" ++ lit " "
            ++ lit "{ id: number; name: string; }")
  = hashType (lit "interface" ++ [10; 32] ++ lit "Account_2" ++ [9]
              ++ lit "{ id: number; name: string; }").
Proof.
  apply (hashType_name_insensitive
           (lit "UsersResponse") (lit "Account_2")
           (lit " ") (lit " ") [10; 32] [9]);
    solve [discriminate | reflexivity].
Defined.

(* ================================================================== *)
(** ** Maps *)
(* ================================================================== *)

Section MapFacts.
Context {V : Type}.
Implicit Types (m : JsMap.t V) (k : jsstring) (v : V).

Lemma get_set_same m k v : JsMap.get (JsMap.set m k v) k = Some v.
Proof.
  induction m as [|[k' v'] m IH]; simpl.
  - now rewrite eqb_refl.
  - destruct (Js.eqb k' k) eqn:E; simpl; now rewrite E.
Qed.

Lemma get_set_other m k k' v :
  k' <> k -> JsMap.get (JsMap.set m k v) k' = JsMap.get m k'.
Proof.
  intros Hne. induction m as [|[k0 v0] m IH]; simpl.
  - assert (E : Js.eqb k k' = false) by (apply eqb_neq; congruence).
    now rewrite E.
  - destruct (Js.eqb k0 k) eqn:E; simpl.
    + apply eqb_eq in E. subst k0.
      assert (E : Js.eqb k k' = false) by (apply eqb_neq; congruence).
      now rewrite E.
    + destruct (Js.eqb k0 k'); [reflexivity | exact IH].
Qed.

Lemma get_In_values m k v : JsMap.get m k = Some v -> In v (JsMap.values m).
Proof.
  induction m as [|[k' v'] m IH]; simpl; [discriminate|].
  destruct (Js.eqb k' k).
  - intros E. injection E as ->. now left.
  - intros E. right. now apply IH.
Qed.

Lemma has_get m k : JsMap.has m k = true <-> exists v, JsMap.get m k = Some v.
Proof.
  unfold JsMap.has. destruct (JsMap.get m k) as [v|]; split.
  - intros _. now exists v.
  - reflexivity.
  - discriminate.
  - intros [v E]. discriminate.
Qed.

Lemma In_values_set m k v : In v (JsMap.values (JsMap.set m k v)).
Proof. apply (get_In_values _ k). apply get_set_same. Qed.
End MapFacts.

(* ================================================================== *)
(** ** Identifier normalizer: the loop ends, the registry is injective *)
(* ================================================================== *)

Lemma candidate_inj (b : jsstring) (i j : N) :
  candidate b i = candidate b j -> i = j.
Proof.
  unfold candidate. intros E. apply app_inv_head in E.
  apply app_inv_head in E. now apply of_N_inj.
Qed.

Lemma candidate_longer (b : jsstring) (i : N) : candidate b i <> b.
Proof.
  unfold candidate. intros E. apply (f_equal (@List.length Z)) in E.
  rewrite !length_app in E. simpl in E. lia.
Qed.

Lemma tested_length (fuel : nat) (b u : jsstring) (c : N) :
  List.length (tested fuel b u c) = fuel.
Proof.
  revert u c. induction fuel as [|f IH]; intros u c; simpl; [reflexivity|].
  now rewrite IH.
Qed.

Lemma tested_candidates (fuel : nat) (b : jsstring) (c : N) (x : jsstring) :
  In x (tested fuel b (candidate b c) (c + 1)%N) ->
  exists i, (c <= i)%N /\ x = candidate b i.
Proof.
  revert c. induction fuel as [|f IH]; intros c; simpl; [tauto|].
  intros [<- | Hin].
  - exists c. split; [lia | reflexivity].
  - apply IH in Hin as (i & Hi & ->). exists i. split; [lia | reflexivity].
Qed.

Lemma tested_candidates_NoDup (fuel : nat) (b : jsstring) (c : N) :
  NoDup (tested fuel b (candidate b c) (c + 1)%N).
Proof.
  revert c. induction fuel as [|f IH]; intros c; simpl; constructor.
  - intros Hin. apply tested_candidates in Hin as (i & Hi & E).
    apply candidate_inj in E. lia.
  - apply IH.
Qed.

Lemma tested_NoDup (fuel : nat) (b : jsstring) : NoDup (tested fuel b b 1%N).
Proof.
  destruct fuel as [|f]; simpl; constructor.
  - intros Hin. apply (tested_candidates f b 1%N) in Hin as (i & _ & E).
    symmetry in E. now apply candidate_longer in E.
  - apply (tested_candidates_NoDup f b 1%N).
Qed.

Lemma uniqueName_loop_None (fuel : nat) (taken : list jsstring)
    (b u : jsstring) (c : N) :
  uniqueName_loop fuel taken b u c = None -> incl (tested fuel b u c) taken.
Proof.
  revert u c. induction fuel as [|f IH]; intros u c; simpl.
  - intros _ x [].
  - destruct (includes taken u) eqn:E; [|discriminate].
    intros Hloop x [<- | Hin].
    + now apply includes_true.
    + now apply (IH _ _ Hloop).
Qed.

Lemma uniqueName_loop_Some (fuel : nat) (taken : list jsstring)
    (b u r : jsstring) (c : N) :
  uniqueName_loop fuel taken b u c = Some r -> ~ In r taken.
Proof.
  revert u c. induction fuel as [|f IH]; intros u c; simpl; [discriminate|].
  destruct (includes taken u) eqn:E.
  - apply IH.
  - intros [= <-]. now apply includes_false.
Qed.

(** The loop of [normalizePropertyName] leaves by its own test within
    one more round than there are identifiers taken. *)
Lemma uniqueName_loop_finds (taken : list jsstring) (b : jsstring) :
  exists u,
    uniqueName_loop (S (List.length taken)) taken b b 1%N = Some u
    /\ ~ In u taken.
Proof.
  destruct (uniqueName_loop (S (List.length taken)) taken b b 1%N)
    as [u|] eqn:E.
  - exists u. split; [reflexivity|]. now apply uniqueName_loop_Some in E.
  - exfalso. apply uniqueName_loop_None in E.
    pose proof (NoDup_incl_length (tested_NoDup _ b) E) as L.
    rewrite tested_length in L. lia.
Qed.

Lemma registry_injective_empty : registry_injective JsMap.empty.
Proof. intros k1 k2 v E. discriminate. Qed.

Lemma registry_injective_set (m : JsMap.t jsstring) (raw u : jsstring) :
  registry_injective m -> ~ In u (JsMap.values m) ->
  registry_injective (JsMap.set m raw u).
Proof.
  intros Hinj Hfresh k1 k2 v E1 E2.
  destruct (list_eq_dec Z.eq_dec k1 raw) as [->|N1];
    destruct (list_eq_dec Z.eq_dec k2 raw) as [->|N2]; try reflexivity.
  - rewrite get_set_same in E1. rewrite get_set_other in E2 by assumption.
    injection E1 as <-. apply get_In_values in E2. contradiction.
  - rewrite get_set_same in E2. rewrite get_set_other in E1 by assumption.
    injection E2 as <-. apply get_In_values in E1. contradiction.
  - rewrite get_set_other in E1, E2 by assumption. eauto.
Qed.

(** One call: it returns, the raw name is bound to the identifier
    returned, earlier bindings stay, and the registry stays injective. *)
Lemma normalizePropertyName_spec (raw : jsstring) (w : world) :
  exists id w',
    normalizePropertyName raw w = (Returns id, w')
    /\ console w' = console w
    /\ JsMap.get (propertyRegistry w') raw = Some id
    /\ (forall k v, JsMap.get (propertyRegistry w) k = Some v ->
                    JsMap.get (propertyRegistry w') k = Some v)
    /\ (registry_injective (propertyRegistry w) ->
        registry_injective (propertyRegistry w')).
Proof.
  unfold normalizePropertyName.
  destruct (JsMap.get (propertyRegistry w) raw) as [known|] eqn:G.
  - exists known, w. repeat split; auto.
  - destruct (uniqueName_loop_finds (JsMap.values (propertyRegistry w))
                (sanitize (strip_noise_prefix raw))) as (u & -> & Hfresh).
    eexists _, _. split; [reflexivity|]. cbn [propertyRegistry console].
    repeat split.
    + apply get_set_same.
    + intros k v E. rewrite get_set_other; [assumption|]. congruence.
    + intros Hinj. now apply registry_injective_set.
Qed.

Lemma normalize_all_spec (names : list jsstring) (w : world) :
  registry_injective (propertyRegistry w) ->
  exists ids w',
    normalize_all names w = (Returns ids, w')
    /\ registry_injective (propertyRegistry w')
    /\ (forall k v, JsMap.get (propertyRegistry w) k = Some v ->
                    JsMap.get (propertyRegistry w') k = Some v)
    /\ Forall2 (fun raw id => JsMap.get (propertyRegistry w') raw = Some id)
         names ids.
Proof.
  revert w. induction names as [|raw names IH]; intros w Hinj; simpl.
  - exists [], w. repeat split; auto.
  - destruct (normalizePropertyName_spec raw w)
      as (id & w1 & E1 & _ & G1 & K1 & I1).
    destruct (IH w1 (I1 Hinj)) as (ids & w2 & E2 & I2 & K2 & F2).
    exists (id :: ids), w2. unfold bind. rewrite E1, E2.
    repeat split; auto.
Qed.

(** C3. Within one run the identifier normalizer is injective and
    stable: from the cleared registry, any sequence of calls returns, and
    two calls return the same identifier exactly when they were given the
    same raw name. *)
Theorem normalizePropertyName_injective_stable
    (names : list jsstring) (log0 : list log_line) :
  exists ids w',
    normalize_all names (mkWorld JsMap.empty log0) = (Returns ids, w')
    /\ List.length ids = List.length names
    /\ forall i j a b x y,
         nth_error names i = Some a -> nth_error names j = Some b ->
         nth_error ids i = Some x -> nth_error ids j = Some y ->
         (x = y <-> a = b).
Proof.
  destruct (normalize_all_spec names (mkWorld JsMap.empty log0)
              registry_injective_empty) as (ids & w' & E & Hinj & _ & F).
  exists ids, w'. split; [exact E|]. split.
  - symmetry. eapply Forall2_length, F.
  - intros i j a b x y Ha Hb Hx Hy.
    assert (Ga : JsMap.get (propertyRegistry w') a = Some x).
    { clear -F Ha Hx. revert i Ha Hx.
      induction F as [|r d rs ds Hrd F IH]; intros [|i]; simpl;
        try discriminate.
      - now intros [= <-] [= <-].
      - apply IH. }
    assert (Gb : JsMap.get (propertyRegistry w') b = Some y).
    { clear -F Hb Hy. revert j Hb Hy.
      induction F as [|r d rs ds Hrd F IH]; intros [|j]; simpl;
        try discriminate.
      - now intros [= <-] [= <-].
      - apply IH. }
    split.
    + intros <-. exact (Hinj _ _ _ Ga Gb).
    + intros <-. congruence.
Qed.

Lemma normalizePropertyName_injective_stable_witness :
  exists ids w',
    normalize_all [lit "ep.user id"; lit "user_id"; lit "ep.user id"; lit "user-id"]
      (mkWorld JsMap.empty []) = (Returns ids, w')
    /\ nth_error ids 0 = Some (lit "user_id")
    /\ nth_error ids 1 = Some (lit "user_id_1")
    /\ nth_error ids 2 = Some (lit "user_id")
    /\ nth_error ids 3 = Some (lit "user_id_2")
    /\ (lit "user_id" = lit "user_id_1" <-> lit "ep.user id" = lit "user_id").
Proof.
  destruct (normalizePropertyName_injective_stable
              [lit "ep.user id"; lit "user_id"; lit "ep.user id"; lit "user-id"]
              []) as (ids & w' & E & L & P).
  exists ids, w'. split; [exact E|].
  vm_compute in E. injection E as <- <-.
  repeat split; try reflexivity;
    apply (P 0%nat 1%nat (lit "ep.user id") (lit "user_id")
             (lit "user_id") (lit "user_id_1")); reflexivity.
Defined.

(* ================================================================== *)
(** ** Computations that return *)
(* ================================================================== *)

Lemma total_settles {A} (c : M A) : total c -> settles c.
Proof. intros Hc w. left. apply Hc. Qed.

Lemma total_ret {A} (a : A) : total (ret a).
Proof. intros w. now exists a, w. Qed.

Lemma settles_throw {A} (e : exn) : settles (@throw A e).
Proof. intros w. right. now exists e, w. Qed.

Lemma settles_lift {A} (c : completion A) : settles (lift c).
Proof.
  destruct c; simpl; [apply total_settles, total_ret | apply settles_throw].
Qed.

Lemma total_log (l : log_line) : total (log l).
Proof. intros w. eexists _, _. reflexivity. Qed.

Lemma total_bind {A B} (c : M A) (k : A -> M B) :
  total c -> (forall a, total (k a)) -> total (bind c k).
Proof.
  intros Hc Hk w. destruct (Hc w) as (a & w1 & E). unfold bind. rewrite E.
  apply Hk.
Qed.

Lemma settles_bind {A B} (c : M A) (k : A -> M B) :
  settles c -> (forall a, settles (k a)) -> settles (bind c k).
Proof.
  intros Hc Hk w. unfold bind.
  destruct (Hc w) as [(a & w1 & E) | (e & w1 & E)]; rewrite E.
  - apply Hk.
  - right. now exists e, w1.
Qed.

Lemma total_try_catch {A} (body : M A) (handler : exn -> M A) :
  settles body -> (forall e, total (handler e)) ->
  total (try_catch body handler).
Proof.
  intros Hb Hh w. unfold try_catch.
  destruct (Hb w) as [(a & w1 & E) | (e & w1 & E)]; rewrite E.
  - now exists a, w1.
  - apply Hh.
Qed.

Lemma settles_try_catch {A} (body : M A) (handler : exn -> M A) :
  settles body -> (forall e, settles (handler e)) ->
  settles (try_catch body handler).
Proof.
  intros Hb Hh w. unfold try_catch.
  destruct (Hb w) as [(a & w1 & E) | (e & w1 & E)]; rewrite E.
  - left. now exists a, w1.
  - apply Hh.
Qed.

Lemma total_for_of {A S} (xs : list A) (body : S -> A -> M S) (acc : S) :
  (forall acc x, total (body acc x)) -> total (for_of xs body acc).
Proof.
  intros Hb. revert acc. induction xs as [|x xs IH]; intros acc; simpl.
  - apply total_ret.
  - apply total_bind; [apply Hb | apply IH].
Qed.

Lemma settles_for_of {A S} (xs : list A) (body : S -> A -> M S) (acc : S) :
  (forall acc x, settles (body acc x)) -> settles (for_of xs body acc).
Proof.
  intros Hb. revert acc. induction xs as [|x xs IH]; intros acc; simpl.
  - apply total_settles, total_ret.
  - apply settles_bind; [apply Hb | apply IH].
Qed.

Lemma total_normalizePropertyName (raw : jsstring) :
  total (normalizePropertyName raw).
Proof.
  intros w. destruct (normalizePropertyName_spec raw w) as (id & w' & E & _).
  now exists id, w'.
Qed.

Lemma settles_run_lib {A} (c : lib A) : settles (run_lib c).
Proof.
  induction c as [a | e | key k IH]; simpl.
  - apply total_settles, total_ret.
  - apply settles_throw.
  - apply settles_bind; [|exact IH].
    apply total_settles, total_normalizePropertyName.
Qed.

Create HintDb returns.
#[export] Hint Resolve total_ret total_log total_normalizePropertyName
  settles_throw settles_lift settles_run_lib total_settles : returns.

(* ================================================================== *)
(** ** Schema inference never throws *)
(* ================================================================== *)

Section InferenceFacts.
Context `{Host}.

Lemma total_generateTypeFromFormData (name formData : jsstring) :
  total (generateTypeFromFormData name formData).
Proof.
  unfold generateTypeFromFormData. apply total_try_catch.
  - apply settles_bind; [auto with returns|]. intros params.
    apply settles_bind; [|auto with returns].
    apply settles_for_of. intros properties [key value].
    apply settles_bind; auto with returns.
  - intros error. apply total_bind; auto with returns.
Qed.

Lemma settles_generateTypeFromJSON (name : jsstring) (data : json) :
  settles (generateTypeFromJSON name data).
Proof.
  unfold generateTypeFromJSON. apply settles_bind; auto with returns.
Qed.

Lemma total_generateTypeFromData
    (name : jsstring) (data : payload) (mimeType : option jsstring) :
  total (generateTypeFromData name data mimeType).
Proof.
  unfold generateTypeFromData. apply total_try_catch.
  - destruct (mime_is_form mimeType).
    + destruct data; [|auto with returns].
      apply total_settles, total_generateTypeFromFormData.
    + apply settles_bind.
      * destruct data; auto with returns.
      * intros parsed. destruct (is_truthy_object parsed);
          [apply settles_generateTypeFromJSON | auto with returns].
  - intros error. apply total_bind.
    + destruct data as [s|v]; [|auto with returns].
      destruct (instanceof_SyntaxError error); [|auto with returns].
      apply total_try_catch.
      * apply settles_bind; [|auto with returns].
        apply total_settles, total_generateTypeFromFormData.
      * intros formError. apply total_bind; auto with returns.
    + intros [t|]; [auto with returns|].
      apply total_bind; auto with returns.
Qed.

(** The schema inference entry point does not throw and does not
    diverge: for every name, every payload (text or structured value),
    every declared mime type or none, in every state and on every
    platform, it returns a text. *)
Theorem generateTypeFromData_never_throws
    (name : jsstring) (data : payload) (mimeType : option jsstring)
    (w : world) :
  exists definition w',
    generateTypeFromData name data mimeType w = (Returns definition, w').
Proof.
  unfold generateTypeFromData, try_catch.
  (* the body returns or throws *)
  assert (Hbody : settles
            (if mime_is_form mimeType then
               match data with
               | Text s => generateTypeFromFormData name s
               | Structured _ => throw (Error (lit "Form data must be a string"))
               end
             else
               parsed <- match data with
                         | Text s => lift (JSON_parse s)
                         | Structured v => ret v
                         end ;;
               if is_truthy_object parsed then generateTypeFromJSON name parsed
               else throw (Error (lit "Invalid JSON: not an object")))).
  { destruct (mime_is_form mimeType).
    - destruct data; [|auto with returns].
      apply total_settles, total_generateTypeFromFormData.
    - apply settles_bind; [destruct data; auto with returns|].
      intros parsed. destruct (is_truthy_object parsed);
        [apply settles_generateTypeFromJSON | auto with returns]. }
  destruct (Hbody w) as [(t & w1 & E) | (error & w1 & E)]; rewrite E.
  - (* it returned *)
    now exists t, w1.
  - (* it threw: the handler returns *)
    unfold bind at 1.
    destruct data as [s|v].
    + destruct (instanceof_SyntaxError error).
      * destruct (total_generateTypeFromFormData name s w1) as (t & w2 & E2).
        unfold try_catch, bind at 1. rewrite E2. now exists t, w2.
      * eexists _, _. reflexivity.
    + eexists _, _. reflexivity.
Qed.

End InferenceFacts.

(* ================================================================== *)
(** ** Malformed JSON is retried as form data *)
(* ================================================================== *)

Section NotJson.
Context `{Host}.

(** C1 (as the code has it). Inferring from the text [not json {] with
    mime type [application/json] does not throw. [JSON.parse] rejects
    the text with a [SyntaxError], so the text is retried as form data,
    where it is one key without a value: the result is an interface
    with one [string] field named by the normalizer, not the [any]
    alias, and nothing is written to the console. *)
Theorem generateTypeFromData_not_json
    (name message : jsstring) (w : world) :
  JSON_parse (lit "not json {") = Abrupt (SyntaxError message) ->
  URLSearchParams (lit "not json {") = Normal [(lit "not json {", [])] ->
  exists id w',
    normalizePropertyName (lit "not json {") w = (Returns id, w')
    /\ generateTypeFromData name (Text (lit "not json {"))
         (Some (lit "application/json")) w
       = (Returns (interface_text name [field_line id (lit "string")]), w')
    /\ interface_text name [field_line id (lit "string")] <> any_alias name
    /\ console w' = console w.
Proof.
  intros Hjson Hform.
  destruct (normalizePropertyName_spec (lit "not json {") w)
    as (id & w' & E & Hc & _).
  exists id, w'. split; [exact E|]. split; [|split; [discriminate | exact Hc]].
  unfold generateTypeFromData.
  replace (mime_is_form (Some (lit "application/json"))) with false
    by reflexivity.
  unfold try_catch at 1. unfold bind at 1. rewrite Hjson.
  cbn [lift throw instanceof_SyntaxError].
  unfold generateTypeFromFormData, try_catch, bind. rewrite Hform.
  cbn [lift ret for_of]. unfold bind. rewrite E. reflexivity.
Qed.

End NotJson.

Lemma generateTypeFromData_not_json_witness :
  exists id w',
    normalizePropertyName (lit "not json {") (mkWorld JsMap.empty [])
    = (Returns id, w')
    /\ id = lit "not_json__"
    /\ @generateTypeFromData reference_host (lit "UsersRequest")
         (Text (lit "not json {")) (Some (lit "application/json"))
         (mkWorld JsMap.empty [])
       = (Returns (interface_text (lit "UsersRequest")
                     [field_line id (lit "string")]), w')
    /\ console w' = [].
Proof.
  destruct (@generateTypeFromData_not_json reference_host
              (lit "UsersRequest") (lit "Unexpected token in JSON")
              (mkWorld JsMap.empty []))
    as (id & w' & E & G & _ & C); [reflexivity | reflexivity |].
  exists id, w'. split; [exact E|]. split; [|split; [exact G | exact C]].
  vm_compute in E. now injection E as <- _.
Defined.

(** C1 (as the spec has it) fails: on this text the result is not the
    permissive fallback type and no warning is logged. *)
Lemma not_json_is_not_any :
  let r := @generateTypeFromData reference_host (lit "UsersRequest")
             (Text (lit "not json {")) (Some (lit "application/json"))
             (mkWorld JsMap.empty []) in
  fst r = Returns (interface_text (lit "UsersRequest")
                     [field_line (lit "not_json__") (lit "string")])
  /\ fst r <> Returns (any_alias (lit "UsersRequest"))
  /\ console (snd r) = [].
Proof. vm_compute. repeat split. discriminate. Qed.

(* ================================================================== *)
(** ** Form values *)
(* ================================================================== *)

(** C5 (where the code departs from it). The test for booleans is
    [/^true|false$/i], which asks for a value that starts with [true] or
    ends with [false]: every value that starts with [true], such as
    [trueish], and the value [notfalse] are typed [boolean], not
    [string]. On the values of the example, [42], [true] and [bob], the
    types are [number], [boolean] and [string]. *)
Theorem form_value_type_boolean_prefix :
  (forall rest, form_value_type (lit "true" ++ rest) = lit "boolean")
  /\ form_value_type (lit "trueish") = lit "boolean"
  /\ form_value_type (lit "notfalse") = lit "boolean"
  /\ fst (@generateTypeFromData reference_host (lit "LoginRequest")
            (Text (lit "flag=trueish"))
            (Some (lit "application/x-www-form-urlencoded"))
            (mkWorld JsMap.empty []))
     = Returns (interface_text (lit "LoginRequest")
                  [field_line (lit "flag") (lit "boolean")])
  /\ fst (@generateTypeFromData reference_host (lit "LoginRequest")
            (Text (lit "id=42&active=true&name=bob"))
            (Some (lit "application/x-www-form-urlencoded"))
            (mkWorld JsMap.empty []))
     = Returns (interface_text (lit "LoginRequest")
                  [field_line (lit "id") (lit "number");
                   field_line (lit "active") (lit "boolean");
                   field_line (lit "name") (lit "string")]).
Proof.
  split; [intros rest; reflexivity|].
  vm_compute. repeat split.
Qed.

(* ================================================================== *)
(** ** Type registry *)
(* ================================================================== *)

Lemma find_values_set_new {V} (p : V -> bool) (m : JsMap.t V)
    (k : jsstring) (v : V) :
  find p (JsMap.values m) = None -> p v = true ->
  find p (JsMap.values (JsMap.set m k v)) = Some v.
Proof.
  intros Hnone Hv. induction m as [|[k' v'] m IH]; simpl in *.
  - now rewrite Hv.
  - destruct (p v') eqn:E; [discriminate|].
    destruct (Js.eqb k' k); simpl.
    + now rewrite Hv.
    + rewrite E. now apply IH.
Qed.

(** The name [register] returns is the name of an entry of the registry
    whose fingerprint is that of the definition. *)
Lemma register_names_entry (mergeTypes : bool) (typeName definition : jsstring)
    (l : listing) (finalName : jsstring) (emitted : bool) (l' : listing) :
  register mergeTypes typeName definition l = (finalName, emitted, l') ->
  exists t,
    In t (JsMap.values (typeRegistry l'))
    /\ name t = finalName /\ hash t = hashType definition.
Proof.
  unfold register.
  destruct (find _ (JsMap.values (typeRegistry l))) as [t|] eqn:F.
  - destruct mergeTypes; intros [= <- <- <-].
    + apply find_some in F as [Hin Hh]. apply eqb_eq in Hh. now exists t.
    + eexists. split; [apply In_values_set | split; reflexivity].
  - intros [= <- <- <-].
    eexists. split; [apply In_values_set | split; reflexivity].
Qed.

(** C2. With merging enabled, a second definition whose fingerprint
    equals that of the definition registered just before gets the name
    the first registration returned, which is the name of the first entry
    of the registry with that fingerprint; it is reported as not newly
    emitted, and the output and the registry stay as they were. *)
Theorem register_same_fingerprint
    (l : listing) (name1 definition1 name2 definition2 : jsstring) :
  hashType definition1 = hashType definition2 ->
  exists final1 emitted1 l1 first,
    register true name1 definition1 l = (final1, emitted1, l1)
    /\ find (fun t => Js.eqb (hash t) (hashType definition2))
         (JsMap.values (typeRegistry l1)) = Some first
    /\ name first = final1
    /\ register true name2 definition2 l1 = (final1, false, l1).
Proof.
  intros Hh. unfold register at 1.
  destruct (find _ (JsMap.values (typeRegistry l))) as [t|] eqn:F.
  - exists (name t), false, l, t. unfold register. rewrite <- Hh, F.
    repeat split.
  - assert (F' := find_values_set_new _ (typeRegistry l) name1
                    (mkTypeEntry name1 definition1 (hashType definition1))
                    F (eqb_refl _)).
    eexists _, _, _, _. split; [reflexivity|]. unfold register.
    cbn [typeRegistry]. rewrite <- Hh, F'. repeat split.
Qed.

Lemma register_same_fingerprint_witness :
  exists final1 emitted1 l1,
    register true (lit "UsersResponse")
      (lit "interface UsersResponse { id: number; }")
      (mkListing JsMap.empty [Preamble]) = (final1, emitted1, l1)
    /\ register true (lit "AccountsResponse1")
         (lit "interface AccountsResponse1 { id: number; }") l1
       = (final1, false, l1)
    /\ final1 = lit "UsersResponse"
    /\ output l1 = [Preamble; Export (lit "interface UsersResponse { id: number; }")].
Proof.
  destruct (register_same_fingerprint (mkListing JsMap.empty [Preamble])
              (lit "UsersResponse")
              (lit "interface UsersResponse { id: number; }")
              (lit "AccountsResponse1")
              (lit "interface AccountsResponse1 { id: number; }"))
    as (final1 & emitted1 & l1 & first & E1 & _ & _ & E2); [reflexivity|].
  exists final1, emitted1, l1. split; [exact E1|]. split; [exact E2|].
  vm_compute in E1. injection E1 as <- _ <-. split; reflexivity.
Defined.

(* ================================================================== *)
(** ** The loops over the entries of a group *)
(* ================================================================== *)

Lemma for_of_app {A S} (xs ys : list A) (body : S -> A -> M S) (acc : S)
    (w : world) :
  for_of (xs ++ ys) body acc w = bind (for_of xs body acc) (for_of ys body) w.
Proof.
  revert acc w. induction xs as [|x xs IH]; intros acc w; simpl.
  - reflexivity.
  - unfold bind. destruct (body acc x w) as [[acc'| |] w1]; try reflexivity.
    rewrite IH. reflexivity.
Qed.

Section LoopFacts.
Context `{Host}.
Variable options : GeneratorOptions.

Lemma total_request_body_step (requestTypeName : jsstring)
    (acc : listing * jsstring) (entry : HarEntry) :
  total (request_body_step options requestTypeName acc entry).
Proof.
  unfold request_body_step. destruct acc as [l bodyType].
  destruct (truthy_text (postData (request entry))); [|apply total_ret].
  apply total_bind; [apply total_generateTypeFromData|].
  intros definition. destruct (register _ _ _ _) as [[finalName e] l'].
  apply total_ret.
Qed.

Lemma total_request_body_loop (requestTypeName : jsstring)
    (groupEntries : list HarEntry) (l : listing) :
  total (request_body_loop options requestTypeName groupEntries l).
Proof. apply total_for_of, total_request_body_step. Qed.

(** Entries without a request body leave the locals and [bodyType]. *)
Lemma request_body_steps_without_body (requestTypeName : jsstring)
    (entries : list HarEntry) (acc : listing * jsstring) (w : world) :
  Forall (fun e => truthy_text (postData (request e)) = None) entries ->
  for_of entries (request_body_step options requestTypeName) acc w
  = (Returns acc, w).
Proof.
  intros Hno. revert acc. induction Hno as [|e es He _ IH]; intros acc.
  - reflexivity.
  - simpl. unfold bind, request_body_step. destruct acc as [l b].
    rewrite He. apply IH.
Qed.

(** The request-body loop returns, and its [bodyType] is what the
    registration of the definition of the last entry with a body text
    returned in the state the earlier entries left, whatever [bodyType]
    they had set; it names a registry entry with the fingerprint of that
    definition. *)
Lemma request_body_loop_last_body
    (requestTypeName body : jsstring) (earlier later : list HarEntry)
    (entry : HarEntry) (l : listing) (w : world) :
  truthy_text (postData (request entry)) = Some body ->
  Forall (fun e => truthy_text (postData (request e)) = None) later ->
  exists l0 bodyType0 w0 definition w1 finalName emitted l1,
    request_body_loop options requestTypeName earlier l w
    = (Returns (l0, bodyType0), w0)
    /\ generateTypeFromData
         (requestTypeName ++ size_suffix (JsMap.size (typeRegistry l0)))
         (Text body) (declared_mime (postData (request entry))) w0
       = (Returns definition, w1)
    /\ register (mergeTypes options)
         (requestTypeName ++ size_suffix (JsMap.size (typeRegistry l0)))
         definition l0
       = (finalName, emitted, l1)
    /\ request_body_loop options requestTypeName
         (earlier ++ entry :: later) l w
       = (Returns (l1, finalName), w1)
    /\ exists t,
         In t (JsMap.values (typeRegistry l1))
         /\ name t = finalName /\ hash t = hashType definition.
Proof.
  intros Hbody Hlater.
  destruct (total_request_body_loop requestTypeName earlier l w)
    as ([l0 bodyType0] & w0 & E0).
  destruct (total_generateTypeFromData
              (requestTypeName ++ size_suffix (JsMap.size (typeRegistry l0)))
              (Text body) (declared_mime (postData (request entry))) w0)
    as (definition & w1 & E1).
  destruct (register (mergeTypes options)
              (requestTypeName ++ size_suffix (JsMap.size (typeRegistry l0)))
              definition l0) as [[finalName emitted] l1] eqn:R.
  exists l0, bodyType0, w0, definition, w1, finalName, emitted, l1.
  repeat split; try assumption.
  - unfold request_body_loop in *. rewrite for_of_app. unfold bind at 1.
    rewrite E0. cbn [for_of]. unfold bind at 1.
    assert (Es : request_body_step options requestTypeName
                   (l0, bodyType0) entry w0
                 = (Returns (l1, finalName), w1)).
    { unfold request_body_step. rewrite Hbody. unfold bind.
      rewrite E1, R. reflexivity. }
    rewrite Es. now apply request_body_steps_without_body.
  - eapply register_names_entry, R.
Qed.

End LoopFacts.

(** C10. The name is erased from the fingerprint of an [interface]
    declaration only: the fallback aliases [type UsersRequest = any;] and
    [type UsersRequest1 = any;] have different fingerprints, and two
    request bodies that both fall back to [any] (here the JSON text [42],
    which is not an object) are registered and emitted twice, under the
    two candidate names, with merging enabled. *)
Theorem any_alias_keeps_its_name :
  hashType (any_alias (lit "UsersRequest"))
  <> hashType (any_alias (lit "UsersRequest1"))
  /\ (let '(_, emitted1, l1) :=
        register true (lit "UsersRequest") (any_alias (lit "UsersRequest"))
          Samples.fresh_listing in
      let '(final2, emitted2, l2) :=
        register true (lit "UsersRequest1") (any_alias (lit "UsersRequest1"))
          l1 in
      emitted1 = true /\ emitted2 = true /\ final2 = lit "UsersRequest1"
      /\ JsMap.keys (typeRegistry l2)
         = [lit "UsersRequest"; lit "UsersRequest1"])
  /\ (let r :=
        @request_body_loop reference_host default_options (lit "UsersRequest")
          [Samples.post_ Samples.users (lit "42") (lit "application/json");
           Samples.post_ Samples.users (lit "42") (lit "application/json")]
          Samples.fresh_listing Samples.fresh_world in
      exists l2 bodyType,
        fst r = Returns (l2, bodyType)
        /\ bodyType = lit "UsersRequest1"
        /\ output l2 = [Preamble;
                        Export (any_alias (lit "UsersRequest"));
                        Export (any_alias (lit "UsersRequest1"))]).
Proof.
  split; [vm_compute; discriminate|].
  split; [vm_compute; repeat split|].
  vm_compute. eexists _, _. repeat split.
Qed.

(* ================================================================== *)
(** ** Inversion of computations that returned *)
(* ================================================================== *)

Lemma bind_Returns {A B} (c : M A) (k : A -> M B) (w w' : world) (b : B) :
  bind c k w = (Returns b, w') ->
  exists a w1, c w = (Returns a, w1) /\ k a w1 = (Returns b, w').
Proof.
  unfold bind. destruct (c w) as [[a| |] w1]; try discriminate.
  intros E. now exists a, w1.
Qed.

Lemma lift_Returns {A} (c : completion A) (w w' : world) (a : A) :
  lift c w = (Returns a, w') -> c = Normal a /\ w' = w.
Proof.
  destruct c; simpl; unfold ret, throw; intros E; inversion E. now split.
Qed.

Lemma ret_Returns {A} (a b : A) (w w' : world) :
  ret a w = (Returns b, w') -> a = b /\ w' = w.
Proof. unfold ret. intros E. inversion E. now split. Qed.

Lemma for_of_invariant {A S} (I : S -> Prop) (P : A -> Prop)
    (body : S -> A -> M S) (xs : list A) :
  (forall acc x w acc' w',
     P x -> I acc -> body acc x w = (Returns acc', w') -> I acc') ->
  Forall P xs ->
  forall acc w r w',
    I acc -> for_of xs body acc w = (Returns r, w') -> I r.
Proof.
  intros Hstep HP. induction HP as [|x xs Hx _ IH]; intros acc w r w' Hacc; simpl.
  - intros E. apply ret_Returns in E as [<- _]. exact Hacc.
  - intros E. apply bind_Returns in E as (acc' & w1 & E1 & E2).
    eapply IH; [|exact E2]. eapply Hstep; eauto.
Qed.

Lemma In_values_set_inv {V} (m : JsMap.t V) (k : jsstring) (v x : V) :
  In x (JsMap.values (JsMap.set m k v)) -> x = v \/ In x (JsMap.values m).
Proof.
  induction m as [|[k' v'] m IH]; simpl.
  - intros [<- | []]. now left.
  - destruct (Js.eqb k' k); simpl.
    + intros [<- | Hin]; [now left | now right; right].
    + intros [<- | Hin]; [now right; left|].
      destruct (IH Hin) as [-> | Hin']; [now left | now right; right].
Qed.

(* ================================================================== *)
(** ** Endpoint grouper *)
(* ================================================================== *)

Section GrouperFacts.
Context `{Host}.
Variable options : GeneratorOptions.

Lemma http_entries_drop (before after : list HarEntry) (entry : HarEntry) :
  startsWith (url (request entry)) (lit "http") = false ->
  http_entries (before ++ entry :: after) = http_entries (before ++ after).
Proof.
  intros E. unfold http_entries. rewrite !filter_app. simpl. now rewrite E.
Qed.

Lemma http_entries_Forall (entries : list HarEntry) :
  Forall (fun e => startsWith (url (request e)) (lit "http") = true)
         (http_entries entries).
Proof.
  apply Forall_forall. intros e He. unfold http_entries in He.
  now apply filter_In in He.
Qed.

(** The members of the groups are entries the filter let through. *)
Lemma group_entries_members (entries : list HarEntry) (w w' : world)
    (endpointGroups : JsMap.t (list HarEntry)) :
  group_entries entries w = (Returns endpointGroups, w') ->
  forall g e, In g (JsMap.values endpointGroups) -> In e g ->
              startsWith (url (request e)) (lit "http") = true.
Proof.
  unfold group_entries.
  apply (for_of_invariant
           (fun G : JsMap.t (list HarEntry) =>
              forall g e, In g (JsMap.values G) -> In e g ->
                          startsWith (url (request e)) (lit "http") = true)
           (fun e => startsWith (url (request e)) (lit "http") = true)).
  - intros G entry w0 G' w1 Hentry HG E. unfold group_entry in E.
    apply bind_Returns in E as (u & w2 & _ & E).
    set (key := method (request entry) ++ lit "_" ++ getResourceName u) in *.
    set (G2 := if JsMap.has G key then G else JsMap.set G key []) in *.
    assert (HG2 : forall g e, In g (JsMap.values G2) -> In e g ->
                    startsWith (url (request e)) (lit "http") = true).
    { subst G2. destruct (JsMap.has G key); [exact HG|].
      intros g e Hg He. apply In_values_set_inv in Hg as [-> | Hg];
        [destruct He | eauto]. }
    destruct (JsMap.get G2 key) as [groupEntries|] eqn:Hget;
      [|discriminate].
    apply ret_Returns in E as [<- _].
    intros g e Hg He. apply In_values_set_inv in Hg as [-> | Hg]; [|eauto].
    apply in_app_or in He as [He | [<- | []]]; [|exact Hentry].
    eapply HG2; [|exact He]. eapply get_In_values, Hget.
  - apply http_entries_Forall.
  - intros g e [].
Qed.

End GrouperFacts.

(** C4. An entry whose URL is not absolute is not always left out:
    [httpdocs/index.html] has no scheme, yet it starts with [http], so
    the filter keeps it; [new URL] then throws in the grouping loop and
    the run ends with that error, where the same capture without the
    entry gives a listing. *)
Theorem relative_http_path_aborts :
  let relative := Samples.get_ (lit "httpdocs/index.html") in
  Reference.scheme_of (url (request relative)) = None
  /\ @http_entries [Samples.get_ Samples.users; relative]
     = [Samples.get_ Samples.users; relative]
  /\ (exists listing_,
        fst (@generateFromHar reference_host default_options
               [Samples.get_ Samples.users] Samples.fresh_world)
        = Returns listing_)
  /\ fst (@generateFromHar reference_host default_options
            [Samples.get_ Samples.users; relative] Samples.fresh_world)
     = Throws (TypeError (lit "Invalid URL")).
Proof.
  vm_compute. repeat split. eexists. reflexivity.
Qed.

(* ================================================================== *)
(** ** The listing only grows, and a group with query parameters
       declares its parameter interface *)
(* ================================================================== *)

Lemma extends_refl (l : listing) : extends l l.
Proof. exists []. now rewrite app_nil_r. Qed.

Lemma extends_trans (l1 l2 l3 : listing) :
  extends l1 l2 -> extends l2 l3 -> extends l1 l3.
Proof.
  intros [x Hx] [y Hy]. exists (x ++ y). now rewrite Hy, Hx, app_assoc.
Qed.

Lemma register_extends (mergeTypes : bool) (typeName definition : jsstring)
    (l l' : listing) (finalName : jsstring) (emitted : bool) :
  register mergeTypes typeName definition l = (finalName, emitted, l') ->
  extends l l'.
Proof.
  unfold register. destruct (find _ _); [destruct mergeTypes|];
    intros [= <- <- <-]; solve [apply extends_refl | now eexists].
Qed.

Section ListingFacts.
Context `{Host}.
Variable options : GeneratorOptions.

Lemma request_body_step_extends (requestTypeName : jsstring)
    (l l' : listing) (b b' : jsstring) (entry : HarEntry) (w w' : world) :
  request_body_step options requestTypeName (l, b) entry w
  = (Returns (l', b'), w') ->
  extends l l'.
Proof.
  unfold request_body_step.
  destruct (truthy_text (postData (request entry))).
  - intros E. apply bind_Returns in E as (definition & w1 & _ & E).
    destruct (register _ _ _ _) as [[finalName emitted] l1] eqn:R.
    apply ret_Returns in E as [[= <- <-] _]. eapply register_extends, R.
  - intros E. apply ret_Returns in E as [[= <- <-] _]. apply extends_refl.
Qed.

Lemma response_step_extends (responseTypeName groupUrl : jsstring)
    (l l' : listing) (b b' : jsstring) (entry : HarEntry) (w w' : world) :
  response_step options responseTypeName groupUrl (l, b) entry w
  = (Returns (l', b'), w') ->
  extends l l'.
Proof.
  unfold response_step.
  destruct (truthy_text (content (response entry))).
  - unfold try_catch.
    match goal with |- context [bind ?c ?k w] =>
      destruct (bind c k w) as [[[l1 b1]|e|] w1] eqn:E end.
    + intros [= <- <- <-].
      apply bind_Returns in E as (definition & w2 & _ & E).
      destruct (register _ _ _ _) as [[finalName emitted] l2] eqn:R.
      apply ret_Returns in E as [[= <- <-] _]. eapply register_extends, R.
    + intros E'. apply bind_Returns in E' as (? & w2 & _ & E').
      apply ret_Returns in E' as [[= <- <-] _]. apply extends_refl.
    + discriminate.
  - intros E. apply ret_Returns in E as [[= <- <-] _]. apply extends_refl.
Qed.

Lemma request_body_loop_extends (requestTypeName : jsstring)
    (groupEntries : list HarEntry) (l l' : listing) (b : jsstring)
    (w w' : world) :
  request_body_loop options requestTypeName groupEntries l w
  = (Returns (l', b), w') ->
  extends l l'.
Proof.
  unfold request_body_loop. intros E.
  apply (for_of_invariant (fun acc => extends l (fst acc)) (fun _ => True)
           _ groupEntries) in E; [exact E | | | apply extends_refl].
  - intros [l1 b1] x w1 [l2 b2] w2 _ H1 Hs. simpl in *.
    eapply extends_trans; [exact H1|]. eapply request_body_step_extends, Hs.
  - apply Forall_forall. auto.
Qed.

Lemma response_loop_extends (responseTypeName groupUrl : jsstring)
    (groupEntries : list HarEntry) (l l' : listing) (b : jsstring)
    (w w' : world) :
  response_loop options responseTypeName groupUrl groupEntries l w
  = (Returns (l', b), w') ->
  extends l l'.
Proof.
  unfold response_loop. intros E.
  apply (for_of_invariant (fun acc => extends l (fst acc)) (fun _ => True)
           _ groupEntries) in E; [exact E | | | apply extends_refl].
  - intros [l1 b1] x w1 [l2 b2] w2 _ H1 Hs. simpl in *.
    eapply extends_trans; [exact H1|]. eapply response_step_extends, Hs.
  - apply Forall_forall. auto.
Qed.

(** The map of query parameters is not empty once a key was recorded. *)
Lemma record_query_params_nonempty (params : list (jsstring * jsstring))
    (allQueryParams : JsMap.t (list jsstring)) :
  params <> [] \/ allQueryParams <> [] ->
  fold_left
    (fun (allQueryParams : JsMap.t (list jsstring)) '(key, value) =>
       let allQueryParams :=
         if JsMap.has allQueryParams key then allQueryParams
         else JsMap.set allQueryParams key [] in
       match JsMap.get allQueryParams key with
       | Some values => JsMap.set allQueryParams key (set_add values value)
       | None => allQueryParams
       end)
    params allQueryParams <> [].
Proof.
  revert allQueryParams.
  induction params as [|[key value] params IH]; intros m Hm; simpl.
  - destruct Hm; congruence.
  - apply IH. right.
    assert (Hset : forall (m0 : JsMap.t (list jsstring)) k v,
               JsMap.set m0 k v <> []).
    { intros [|[k0 v0] m0] k v; simpl; [discriminate|].
      destruct (Js.eqb k0 k); discriminate. }
    destruct (JsMap.has m key) eqn:Hhas.
    + destruct (JsMap.get m key); [apply Hset|].
      unfold JsMap.has in Hhas. destruct m; [discriminate | discriminate].
    + rewrite get_set_same. apply Hset.
Qed.

Lemma collect_query_params_nonempty (groupEntries : list HarEntry)
    (w w' : world) (allQueryParams : JsMap.t (list jsstring)) :
  collect_query_params groupEntries w = (Returns allQueryParams, w') ->
  observes_query groupEntries ->
  allQueryParams <> [].
Proof.
  unfold collect_query_params. intros E (entry & u & Hin & Hu & Hq).
  apply in_split in Hin as (before & after & ->).
  rewrite for_of_app in E.
  apply bind_Returns in E as (m1 & w1 & _ & E). cbn [for_of] in E.
  apply bind_Returns in E as (m2 & w2 & E2 & E).
  apply bind_Returns in E2 as (u' & w3 & Hu' & E2).
  apply lift_Returns in Hu' as [Hu' _]. rewrite Hu in Hu'.
  injection Hu' as <-. apply ret_Returns in E2 as [E2 _].
  assert (Hm2 : m2 <> []).
  { rewrite <- E2. apply record_query_params_nonempty. now left. }
  revert E.
  apply (for_of_invariant (fun m : JsMap.t (list jsstring) => m <> [])
           (fun _ => True)); [ | apply Forall_forall; auto | exact Hm2].
  intros m x w4 m' w5 _ Hm Hs.
  apply bind_Returns in Hs as (ux & w6 & _ & Hs).
  apply ret_Returns in Hs as [<- _].
  apply record_query_params_nonempty. now right.
Qed.

Lemma params_interface_text (paramsTypeName : jsstring)
    (allQueryParams : JsMap.t (list jsstring)) (w w' : world)
    (paramInterface : jsstring) :
  params_interface paramsTypeName allQueryParams w
  = (Returns paramInterface, w') ->
  exists lines, paramInterface = interface_text paramsTypeName lines.
Proof.
  unfold params_interface. intros E.
  apply bind_Returns in E as (lines & w1 & _ & E).
  apply ret_Returns in E as [<- _]. now exists lines.
Qed.

(** One group: the listing grows, and when the group observes a query
    parameter the growth contains the parameter interface, named after
    the prefix and the resource of the first entry. *)
Lemma process_group_output (l l' : listing) (firstEntry : HarEntry)
    (rest : list HarEntry) (u : URL) (w w' : world) :
  process_group options l (firstEntry :: rest) w = (Returns l', w') ->
  URL_new (url (request firstEntry)) = Normal u ->
  exists extra,
    output l' = output l ++ extra
    /\ (observes_query (firstEntry :: rest) ->
        exists lines x y,
          extra = x ++ Export (interface_text (paramsTypeName_of options u)
                                 lines) :: y).
Proof.
  intros E Hu. unfold process_group in E.
  apply bind_Returns in E as (u' & w1 & Hu' & E).
  apply lift_Returns in Hu' as [Hu' ->]. rewrite Hu in Hu'.
  injection Hu' as <-.
  apply bind_Returns in E as (allQueryParams & w2 & Hq & E).
  apply bind_Returns in E as ([l2 paramsType] & w3 & Hp & E).
  apply bind_Returns in E as ([l3 bodyType] & w4 & Hb & E).
  apply bind_Returns in E as ([l4 responseType] & w5 & Hr & E).
  apply ret_Returns in E as [<- _]. cbn [output].
  apply request_body_loop_extends in Hb as [xb Hb].
  apply response_loop_extends in Hr as [xr Hr].
  destruct (JsMap.size allQueryParams) eqn:Hsize.
  - apply ret_Returns in Hp as [[= <- <-] _].
    eexists. split.
    + rewrite Hr, Hb, <- !app_assoc. reflexivity.
    + intros Hobs.
      pose proof (collect_query_params_nonempty _ _ _ _ Hq Hobs) as Hne.
      destruct allQueryParams; [congruence | discriminate].
  - apply bind_Returns in Hp as (paramInterface & w6 & Hi & Hp).
    apply ret_Returns in Hp as [[= <- <-] _]. cbn [output] in Hb.
    apply params_interface_text in Hi as [lines ->].
    eexists. split.
    + rewrite Hr, Hb, <- !app_assoc. reflexivity.
    + intros _. exists lines, [], (xb ++ xr ++
        [Function_ (mkBinding (request firstEntry) u
                      (typePrefix options
                       ++ normalizeTypeName (getResourceName u)
                       ++ lit "Params") bodyType responseType)]).
      reflexivity.
Qed.

End ListingFacts.

Section RunFacts.
Context `{Host}.
Variable options : GeneratorOptions.

Lemma process_group_extends (l l' : listing) (groupEntries : list HarEntry)
    (w w' : world) :
  process_group options l groupEntries w = (Returns l', w') -> extends l l'.
Proof.
  destruct groupEntries as [|firstEntry rest]; [discriminate|].
  intros E. pose proof E as E'. unfold process_group in E'.
  apply bind_Returns in E' as (u & w1 & Hu & _).
  apply lift_Returns in Hu as [Hu _].
  destruct (process_group_output options _ _ _ _ _ _ _ E Hu) as (x & Hx & _).
  now exists x.
Qed.

Lemma groups_extend (groups : list (list HarEntry)) (l l' : listing)
    (w w' : world) :
  for_of groups (process_group options) l w = (Returns l', w') ->
  extends l l'.
Proof.
  intros E.
  apply (for_of_invariant (fun acc => extends l acc) (fun _ => True)
           _ groups) in E; [exact E | | apply Forall_forall; auto
                                  | apply extends_refl].
  intros l1 g w1 l2 w2 _ H1 Hs.
  eapply extends_trans; [exact H1|]. eapply process_group_extends, Hs.
Qed.

(** The listing of a run that gets past a group with query parameters
    contains the parameter interface of that group. *)
Lemma groups_emit_params (before after : list (list HarEntry))
    (firstEntry : HarEntry) (rest : list HarEntry) (u : URL)
    (l l' : listing) (w w' : world) :
  for_of (before ++ (firstEntry :: rest) :: after) (process_group options) l w
  = (Returns l', w') ->
  URL_new (url (request firstEntry)) = Normal u ->
  observes_query (firstEntry :: rest) ->
  exists lines x y,
    output l' = output l ++ x
                ++ Export (interface_text (paramsTypeName_of options u) lines)
                :: y.
Proof.
  intros E Hu Hobs. rewrite for_of_app in E.
  apply bind_Returns in E as (l1 & w1 & Eb & E). cbn [for_of] in E.
  apply bind_Returns in E as (l2 & w2 & Eg & Ea).
  apply groups_extend in Eb as [xb Hb]. apply groups_extend in Ea as [xa Ha].
  destruct (process_group_output options _ _ _ _ _ _ _ Eg Hu)
    as (extra & Hx & Hparams).
  destruct (Hparams Hobs) as (lines & x & y & ->).
  exists lines, (xb ++ x), (y ++ xa).
  rewrite Ha, Hx, Hb, <- !app_assoc. reflexivity.
Qed.

(** Two groups with query parameters, the first before the second. *)
Lemma groups_emit_params_twice (groups : list (list HarEntry)) (i j : nat)
    (e1 e2 : HarEntry) (rest1 rest2 : list HarEntry) (u1 u2 : URL)
    (l l' : listing) (w w' : world) :
  for_of groups (process_group options) l w = (Returns l', w') ->
  (i < j)%nat ->
  nth_error groups i = Some (e1 :: rest1) ->
  nth_error groups j = Some (e2 :: rest2) ->
  URL_new (url (request e1)) = Normal u1 ->
  URL_new (url (request e2)) = Normal u2 ->
  observes_query (e1 :: rest1) -> observes_query (e2 :: rest2) ->
  exists lines1 lines2 a b c,
    output l' = output l ++ a
                ++ Export (interface_text (paramsTypeName_of options u1) lines1)
                :: b
                ++ Export (interface_text (paramsTypeName_of options u2) lines2)
                :: c.
Proof.
  intros E Hij Hi Hj Hu1 Hu2 Ho1 Ho2.
  apply nth_error_split in Hi as (before & later & -> & Hlen).
  rewrite nth_error_app2 in Hj by lia.
  destruct (j - List.length before)%nat as [|k] eqn:Hk; [lia|].
  cbn [nth_error] in Hj.
  apply nth_error_split in Hj as (middle & after & -> & _).
  replace (before ++ (e1 :: rest1) :: middle ++ (e2 :: rest2) :: after)
    with ((before ++ [e1 :: rest1]) ++ middle ++ (e2 :: rest2) :: after)
    in E by (now rewrite <- app_assoc).
  rewrite for_of_app in E.
  apply bind_Returns in E as (l1 & w1 & E1 & E2).
  destruct (groups_emit_params _ _ _ _ _ _ _ _ _ E1 Hu1 Ho1)
    as (lines1 & a & b1 & H1).
  destruct (groups_emit_params _ _ _ _ _ _ _ _ _ E2 Hu2 Ho2)
    as (lines2 & b2 & c & H2).
  exists lines1, lines2, a, (b1 ++ b2), c.
  rewrite H2, H1, <- !app_assoc. reflexivity.
Qed.

Lemma total_for_of_Forall {A S} (P : A -> Prop) (xs : list A)
    (body : S -> A -> M S) (acc : S) :
  (forall acc x, P x -> total (body acc x)) -> Forall P xs ->
  total (for_of xs body acc).
Proof.
  intros Hb HP. revert acc. induction HP as [|x xs Hx _ IH]; intros acc; simpl.
  - apply total_ret.
  - apply total_bind; [now apply Hb | apply IH].
Qed.

Lemma set_set {V} (m : JsMap.t V) (k : jsstring) (v0 v1 : V) :
  JsMap.set (JsMap.set m k v0) k v1 = JsMap.set m k v1.
Proof.
  induction m as [|[k' v'] m IH]; simpl.
  - now rewrite eqb_refl.
  - destruct (Js.eqb k' k) eqn:E; simpl; rewrite E; [reflexivity|].
    now rewrite IH.
Qed.

(** What one round of the grouping loop does to the map. *)
Lemma group_entry_Returns (endpointGroups endpointGroups' : JsMap.t (list HarEntry))
    (entry : HarEntry) (w w' : world) :
  group_entry endpointGroups entry w = (Returns endpointGroups', w') ->
  exists u groupEntries,
    URL_new (url (request entry)) = Normal u
    /\ (JsMap.get endpointGroups
          (method (request entry) ++ lit "_" ++ getResourceName u)
        = Some groupEntries
        \/ groupEntries = [])
    /\ endpointGroups'
       = JsMap.set endpointGroups
           (method (request entry) ++ lit "_" ++ getResourceName u)
           (groupEntries ++ [entry]).
Proof.
  intros E. unfold group_entry in E.
  apply bind_Returns in E as (u & w2 & Hu & E).
  apply lift_Returns in Hu as [Hu _]. exists u.
  set (key := method (request entry) ++ lit "_" ++ getResourceName u) in *.
  destruct (JsMap.has endpointGroups key) eqn:Hhas.
  - destruct (JsMap.get endpointGroups key) as [groupEntries|] eqn:Hget;
      [|discriminate].
    apply ret_Returns in E as [<- _]. exists groupEntries. auto.
  - rewrite get_set_same in E. apply ret_Returns in E as [<- _].
    exists []. rewrite set_set. auto.
Qed.

(** The grouping loop parsed the URL of every member of every group, and
    no group is empty. *)
Lemma group_entries_parsed (entries : list HarEntry) (w w' : world)
    (endpointGroups : JsMap.t (list HarEntry)) :
  group_entries entries w = (Returns endpointGroups, w') ->
  Forall (fun g => g <> [] /\ urls_parse g) (JsMap.values endpointGroups).
Proof.
  unfold group_entries.
  apply (for_of_invariant
           (fun G : JsMap.t (list HarEntry) =>
              Forall (fun g => g <> [] /\ urls_parse g) (JsMap.values G))
           (fun _ => True)); [ | apply Forall_forall; auto | constructor].
  intros G entry w0 G' w1 _ HG E.
  apply group_entry_Returns in E as (u & groupEntries & Hu & Hget & ->).
  assert (Hmembers : urls_parse groupEntries).
  { destruct Hget as [Hget | ->]; [|constructor].
    apply get_In_values in Hget.
    rewrite Forall_forall in HG. now apply HG in Hget. }
  apply Forall_forall. intros g Hg.
  apply In_values_set_inv in Hg as [-> | Hg].
  - split; [now destruct groupEntries|].
    apply Forall_app. split; [exact Hmembers|].
    constructor; [now exists u | constructor].
  - rewrite Forall_forall in HG. now apply HG.
Qed.

Lemma total_response_step (responseTypeName groupUrl : jsstring)
    (acc : listing * jsstring) (entry : HarEntry) :
  total (response_step options responseTypeName groupUrl acc entry).
Proof.
  unfold response_step. destruct acc as [l responseType].
  destruct (truthy_text (content (response entry))); [|apply total_ret].
  apply total_try_catch.
  - apply total_settles, total_bind; [apply total_generateTypeFromData|].
    intros definition. destruct (register _ _ _ _) as [[finalName e] l'].
    apply total_ret.
  - intros error. apply total_bind; auto with returns.
Qed.

Lemma total_collect_query_params (groupEntries : list HarEntry) :
  urls_parse groupEntries -> total (collect_query_params groupEntries).
Proof.
  intros Hp. unfold collect_query_params.
  eapply total_for_of_Forall; [|exact Hp].
  intros acc x [u Hu]. cbn beta. rewrite Hu.
  apply total_bind; [apply total_ret | intros entryUrl; apply total_ret].
Qed.

Lemma total_params_interface (paramsTypeName : jsstring)
    (allQueryParams : JsMap.t (list jsstring)) :
  total (params_interface paramsTypeName allQueryParams).
Proof.
  unfold params_interface. apply total_bind; [|auto with returns].
  apply total_for_of. intros lines key. apply total_bind; auto with returns.
Qed.

Lemma total_process_group (l : listing) (groupEntries : list HarEntry) :
  groupEntries <> [] -> urls_parse groupEntries ->
  total (process_group options l groupEntries).
Proof.
  intros Hne Hp. destruct groupEntries as [|firstEntry rest]; [congruence|].
  unfold process_group.
  pose proof (Forall_inv Hp) as [u Hu]. rewrite Hu.
  apply total_bind; [apply total_ret|]. intros u'.
  apply total_bind; [now apply total_collect_query_params|].
  intros allQueryParams. apply total_bind.
  - destruct (JsMap.size allQueryParams); [apply total_ret|].
    apply total_bind; [apply total_params_interface | auto with returns].
  - intros [l2 paramsType]. apply total_bind.
    + apply total_for_of, total_request_body_step.
    + intros [l3 bodyType]. apply total_bind.
      * apply total_for_of, total_response_step.
      * intros [l4 responseType]. apply total_ret.
Qed.

(** Once the grouping loop has returned, the run returns the listing the
    group loop builds. *)
Lemma generateFromHar_after_grouping (entries : list HarEntry)
    (w wG : world) (endpointGroups : JsMap.t (list HarEntry)) :
  group_entries entries (mkWorld JsMap.empty (console w))
  = (Returns endpointGroups, wG) ->
  exists l w',
    for_of (JsMap.values endpointGroups) (process_group options)
      (mkListing JsMap.empty [Preamble]) wG
    = (Returns l, w')
    /\ generateFromHar options entries w = (Returns (output l), w').
Proof.
  intros EG.
  destruct (total_for_of_Forall _ (JsMap.values endpointGroups)
              (process_group options) (mkListing JsMap.empty [Preamble])
              (fun acc g Hg => total_process_group acc g (proj1 Hg) (proj2 Hg))
              (group_entries_parsed _ _ _ _ EG) wG) as (l & w' & El).
  exists l, w'. split; [exact El|].
  unfold generateFromHar, try_catch, bind at 1, clear_propertyRegistry.
  unfold bind at 1. rewrite EG. unfold bind at 1. rewrite El. reflexivity.
Qed.

(** C9. The name of a group's parameter interface is built from the type
    prefix and the title-cased resource name of the group's first entry,
    and from nothing else. So when two groups of a capture have the same
    resource name and each observes a query parameter, the run returns a
    listing with two interface declarations of that one name. *)
Theorem params_interface_declared_twice
    (entries : list HarEntry) (w wG : world)
    (endpointGroups : JsMap.t (list HarEntry)) (i j : nat)
    (e1 e2 : HarEntry) (rest1 rest2 : list HarEntry) (u1 u2 : URL) :
  group_entries entries (mkWorld JsMap.empty (console w))
  = (Returns endpointGroups, wG) ->
  i <> j ->
  nth_error (JsMap.values endpointGroups) i = Some (e1 :: rest1) ->
  nth_error (JsMap.values endpointGroups) j = Some (e2 :: rest2) ->
  URL_new (url (request e1)) = Normal u1 ->
  URL_new (url (request e2)) = Normal u2 ->
  getResourceName u1 = getResourceName u2 ->
  observes_query (e1 :: rest1) -> observes_query (e2 :: rest2) ->
  paramsTypeName_of options u1
  = typePrefix options ++ normalizeTypeName (getResourceName u1) ++ lit "Params"
  /\ paramsTypeName_of options u2 = paramsTypeName_of options u1
  /\ exists out w' lines lines' a b c,
       generateFromHar options entries w = (Returns out, w')
       /\ out = a ++ Export (interface_text (paramsTypeName_of options u1) lines)
                  :: b
                  ++ Export (interface_text (paramsTypeName_of options u1) lines')
                  :: c.
Proof.
  intros EG Hij Hi Hj Hu1 Hu2 Hres Ho1 Ho2.
  assert (Hname : paramsTypeName_of options u2 = paramsTypeName_of options u1)
    by (unfold paramsTypeName_of; now rewrite Hres).
  split; [reflexivity|]. split; [exact Hname|].
  destruct (generateFromHar_after_grouping _ _ _ _ EG) as (l & w' & El & Erun).
  exists (output l), w'.
  destruct (Nat.lt_total i j) as [Hlt | [Heq | Hgt]]; [|congruence|].
  - destruct (groups_emit_params_twice _ _ _ _ _ _ _ _ _ _ _ _ _
                El Hlt Hi Hj Hu1 Hu2 Ho1 Ho2)
      as (lines & lines' & a & b & c & Hout).
    rewrite Hname in Hout. cbn [output app] in Hout.
    exists lines, lines', (Preamble :: a), b, c. now split.
  - destruct (groups_emit_params_twice _ _ _ _ _ _ _ _ _ _ _ _ _
                El Hgt Hj Hi Hu2 Hu1 Ho2 Ho1)
      as (lines & lines' & a & b & c & Hout).
    rewrite Hname in Hout. cbn [output app] in Hout.
    exists lines, lines', (Preamble :: a), b, c. now split.
Qed.

End RunFacts.

Lemma params_interface_declared_twice_witness :
  exists out w' lines lines' a b c,
    @generateFromHar reference_host default_options Samples.two_methods
      Samples.fresh_world = (Returns out, w')
    /\ out = a ++ Export (interface_text (lit "UsersParams") lines)
               :: b
               ++ Export (interface_text (lit "UsersParams") lines')
               :: c.
Proof.
  destruct (@group_entries reference_host Samples.two_methods
              (mkWorld JsMap.empty (console Samples.fresh_world)))
    as [[G| |] wG] eqn:EG;
    [| vm_compute in EG; discriminate | vm_compute in EG; discriminate].
  destruct (@params_interface_declared_twice reference_host default_options
              Samples.two_methods Samples.fresh_world wG G
              0%nat 1%nat
              (Samples.get_ (lit "https://api.example.com/users?page=1"))
              (Samples.post_ (lit "https://api.example.com/users?dry=true")
                 (lit "name=bob") Samples.form)
              [] []
              (mkURL (lit "/users") [(lit "page", lit "1")]
                 (lit "https://api.example.com"))
              (mkURL (lit "/users") [(lit "dry", lit "true")]
                 (lit "https://api.example.com")))
    as (_ & _ & out & w' & lines & lines' & a & b & c & E & Hout).
  - exact EG.
  - discriminate.
  - vm_compute in EG. injection EG as <- _. reflexivity.
  - vm_compute in EG. injection EG as <- _. reflexivity.
  - reflexivity.
  - reflexivity.
  - reflexivity.
  - eexists _, _. split; [left; reflexivity|].
    split; [vm_compute; reflexivity | discriminate].
  - eexists _, _. split; [left; reflexivity|].
    split; [vm_compute; reflexivity | discriminate].
  - exists out, w', lines, lines', a, b, c. split; [exact E | exact Hout].
Defined.

(* ================================================================== *)
(** ** The binding of a group *)
(* ================================================================== *)

Section BindingFacts.
Context `{Host}.
Variable options : GeneratorOptions.

(** The last chunk a group appends is its function, and the body type
    of that function is the [bodyType] the request-body loop ended
    with. *)
Lemma process_group_binding (l l' : listing) (firstEntry : HarEntry)
    (rest : list HarEntry) (w w' : world) :
  process_group options l (firstEntry :: rest) w = (Returns l', w') ->
  exists u l2 w3 l3 bodyType w4 b,
    URL_new (url (request firstEntry)) = Normal u
    /\ request_body_loop options
         (typePrefix options ++ normalizeTypeName (getResourceName u)
          ++ lit "Request")
         (firstEntry :: rest) l2 w3
       = (Returns (l3, bodyType), w4)
    /\ last (output l') Preamble = Function_ b
    /\ b_bodyType b = bodyType.
Proof.
  intros E. unfold process_group in E.
  apply bind_Returns in E as (u & w1 & Hu & E).
  apply lift_Returns in Hu as [Hu ->].
  apply bind_Returns in E as (allQueryParams & w2 & _ & E).
  apply bind_Returns in E as ([l2 paramsType] & w3 & _ & E).
  apply bind_Returns in E as ([l3 bodyType] & w4 & Hb & E).
  apply bind_Returns in E as ([l4 responseType] & w5 & _ & E).
  apply ret_Returns in E as [<- _].
  eexists u, l2, w3, l3, bodyType, w4, _.
  split; [exact Hu|]. split; [exact Hb|]. cbn [output].
  rewrite last_last. split; reflexivity.
Qed.

End BindingFacts.

(* ================================================================== *)
(** ** The names the generator declares are word tokens *)
(* ================================================================== *)

Lemma alnum_word (s : jsstring) :
  forallb is_alnum s = true -> forallb is_word s = true.
Proof.
  induction s as [|c s IH]; simpl; [reflexivity|].
  intros E. apply andb_prop in E as [E1 E2]. rewrite (IH E2).
  unfold is_word. now rewrite E1.
Qed.

Lemma toUpperCase1_alnum (c : Z) :
  is_alnum c = true -> is_alnum (toUpperCase1 c) = true.
Proof.
  unfold toUpperCase1. destruct (is_lower c) eqn:L; [|auto].
  intros _. unfold is_alnum, is_lower, is_upper, is_digit in *.
  rewrite andb_true_iff, !Z.leb_le in L.
  rewrite !orb_true_iff, !andb_true_iff, !Z.leb_le. lia.
Qed.

Lemma toLowerCase1_alnum (c : Z) :
  is_alnum c = true -> is_alnum (toLowerCase1 c) = true.
Proof.
  unfold toLowerCase1. destruct (is_upper c) eqn:U; [|auto].
  intros _. unfold is_alnum, is_lower, is_upper, is_digit in *.
  rewrite andb_true_iff, !Z.leb_le in U.
  rewrite !orb_true_iff, !andb_true_iff, !Z.leb_le. lia.
Qed.

Lemma capitalize_alnum (part : jsstring) :
  forallb is_alnum part = true -> forallb is_alnum (capitalize part) = true.
Proof.
  destruct part as [|c rest]; simpl; [reflexivity|].
  intros E. apply andb_prop in E as [E1 E2].
  rewrite (toUpperCase1_alnum _ E1). simpl.
  rewrite forallb_forall in *. intros x Hx.
  apply in_map_iff in Hx as (y & <- & Hy). apply toLowerCase1_alnum. auto.
Qed.

Lemma forallb_rev (p : Z -> bool) (s : jsstring) :
  forallb p s = true -> forallb p (rev s) = true.
Proof.
  rewrite !forallb_forall. intros Hs x Hx. apply Hs. now apply in_rev.
Qed.

Lemma split_non_alnum_parts (s cur : jsstring) (in_sep : bool) :
  forallb is_alnum cur = true ->
  Forall (fun part => forallb is_alnum part = true)
         (split_non_alnum s cur in_sep).
Proof.
  revert cur in_sep. induction s as [|c s IH]; intros cur in_sep Hcur; simpl.
  - constructor; [now apply forallb_rev | constructor].
  - destruct (is_alnum c) eqn:E.
    + apply IH. simpl. now rewrite E.
    + destruct in_sep; [now apply IH|].
      constructor; [now apply forallb_rev | now apply IH].
Qed.

Lemma join_nil_alnum (parts : list jsstring) :
  Forall (fun part => forallb is_alnum part = true) parts ->
  forallb is_alnum (join [] parts) = true.
Proof.
  induction 1 as [|part parts Hp _ IH]; simpl; [reflexivity|].
  destruct parts as [|q parts]; [exact Hp|].
  change ([] ++ join [] (q :: parts)) with (join [] (q :: parts)).
  now rewrite forallb_app, Hp, IH.
Qed.

(** [normalizeTypeName] returns letters and digits only. *)
Lemma normalizeTypeName_alnum (resource : jsstring) :
  forallb is_alnum (normalizeTypeName resource) = true.
Proof.
  unfold normalizeTypeName. apply join_nil_alnum.
  apply Forall_map.
  eapply Forall_impl; [|apply split_non_alnum_parts; reflexivity].
  intros part. apply capitalize_alnum.
Qed.

(** Two interfaces written by the templates of the generator with the
    same lines under two word-token names have the same fingerprint. *)
Lemma hashType_interface_text (name1 name2 : jsstring) (lines : list jsstring) :
  name1 <> [] -> forallb is_word name1 = true ->
  name2 <> [] -> forallb is_word name2 = true ->
  hashType (interface_text name1 lines) = hashType (interface_text name2 lines).
Proof.
  intros H1 W1 H2 W2. unfold interface_text.
  change (lit "interface " ++ name1 ++ lit " {" ++ nl ++ join nl lines ++ nl ++ lit "}")
    with (lit "interface" ++ lit " " ++ name1 ++ lit " "
          ++ (lit "{" ++ nl ++ join nl lines ++ nl ++ lit "}")).
  change (lit "interface " ++ name2 ++ lit " {" ++ nl ++ join nl lines ++ nl ++ lit "}")
    with (lit "interface" ++ lit " " ++ name2 ++ lit " "
          ++ (lit "{" ++ nl ++ join nl lines ++ nl ++ lit "}")).
  rewrite !hashType_interface; solve [assumption | discriminate | reflexivity].
Qed.

Lemma of_N_digits (n : N) : forallb is_digit (of_N n) = true.
Proof.
  unfold of_N. generalize (N.to_uint n) as d.
  induction d; simpl; auto.
Qed.

Lemma size_suffix_word (size : nat) : forallb is_word (size_suffix size) = true.
Proof.
  destruct size; [reflexivity|]. unfold size_suffix.
  generalize (of_N_digits (N.of_nat (S size))).
  generalize (of_N (N.of_nat (S size))) as s.
  induction s as [|c s IH]; simpl; [reflexivity|].
  intros E. apply andb_prop in E as [E1 E2].
  rewrite (IH E2). unfold is_word, is_alnum. rewrite E1.
  now rewrite orb_true_r.
Qed.

(** The candidate names of the request and response loops are word
    tokens when the type prefix is one: the prefix, the title-cased
    resource, [Request] or [Response], and the size of the registry. *)
Lemma typeName_word (prefix resource kind : jsstring) (size : nat) :
  forallb is_word prefix = true -> forallb is_word kind = true ->
  kind <> [] ->
  forallb is_word (prefix ++ normalizeTypeName resource ++ kind
                   ++ size_suffix size) = true
  /\ prefix ++ normalizeTypeName resource ++ kind ++ size_suffix size <> [].
Proof.
  intros Hp Hk Hne. split.
  - rewrite !forallb_app, Hp, Hk, size_suffix_word.
    now rewrite (alnum_word _ (normalizeTypeName_alnum resource)).
  - intros E. apply app_eq_nil in E as [_ E].
    apply app_eq_nil in E as [_ E]. apply app_eq_nil in E as [E _].
    contradiction.
Qed.

(* ================================================================== *)
(** ** Runs of a class replaced by one code unit *)
(* ================================================================== *)

Lemma re_class_plus_hit (p : Z -> bool) (prev : option Z) (c : Z)
    (s : jsstring) :
  p c = true ->
  re_class_plus p prev (c :: s) = Some (S (List.length (fst (span p s)))).
Proof.
  intros E. unfold re_class_plus, plus. simpl. rewrite E.
  now destruct (span p s).
Qed.

Lemma re_class_plus_miss (p : Z -> bool) (prev : option Z) (c : Z)
    (s : jsstring) :
  p c = false -> re_class_plus p prev (c :: s) = None.
Proof. intros E. unfold re_class_plus, plus. simpl. now rewrite E. Qed.

(** The scan of [replace_from] for the pattern of a class is [squeeze]:
    outside a match with the flag off, inside a match (with the rest of
    the run still to pass over) with the flag on. *)
Lemma replace_class_plus_squeeze (p : Z -> bool) (r : Z) (s : jsstring) :
  (forall prev,
     replace_from (re_class_plus p) [r] prev 0 s = squeeze p r false s)
  /\ (forall prev,
        replace_from (re_class_plus p) [r] prev
          (List.length (fst (span p s))) s
        = squeeze p r true s).
Proof.
  induction s as [|c s [IH0 IH1]]; [split; reflexivity|].
  assert (H0 : forall prev,
             replace_from (re_class_plus p) [r] prev 0 (c :: s)
             = squeeze p r false (c :: s)).
  { intros prev. cbn [replace_from squeeze]. destruct (p c) eqn:E.
    - rewrite (re_class_plus_hit p prev c s E). cbn [app]. now rewrite IH1.
    - rewrite (re_class_plus_miss p prev c s E). now rewrite IH0. }
  split; [exact H0|].
  intros prev. cbn [span]. destruct (p c) eqn:E.
  - destruct (span p s) as [a b] eqn:Es. cbn [fst List.length].
    cbn [replace_from squeeze]. rewrite E.
    specialize (IH1 (Some c)). cbn [fst] in IH1. exact IH1.
  - cbn [fst List.length]. rewrite H0. cbn [squeeze]. now rewrite E.
Qed.

Lemma replace_all_class_plus (p : Z -> bool) (r : Z) (s : jsstring) :
  replace_all (re_class_plus p) [r] s = squeeze p r false s.
Proof. apply replace_class_plus_squeeze. Qed.

(** A run of the class, of whatever length, leaves one code unit (none
    when the scan is already inside a run). *)
Lemma squeeze_run (p : Z -> bool) (r : Z) (in_run : bool) (ws b : jsstring) :
  ws <> [] -> forallb p ws = true ->
  squeeze p r in_run (ws ++ b)
  = (if in_run then [] else [r]) ++ squeeze p r true b.
Proof.
  intros Hne. revert in_run.
  induction ws as [|c ws IH]; [congruence|]. intros in_run E.
  cbn [forallb] in E. apply andb_prop in E as [E1 E2].
  cbn [app squeeze]. rewrite E1.
  destruct ws as [|d ws].
  - destruct in_run; reflexivity.
  - rewrite !(IH ltac:(discriminate) _ E2). now destruct in_run.
Qed.

Lemma squeeze_between (p : Z -> bool) (r : Z) (in_run : bool)
    (a ws1 ws2 b : jsstring) :
  ws1 <> [] -> forallb p ws1 = true ->
  ws2 <> [] -> forallb p ws2 = true ->
  squeeze p r in_run (a ++ ws1 ++ b) = squeeze p r in_run (a ++ ws2 ++ b).
Proof.
  intros H1 P1 H2 P2. revert in_run.
  induction a as [|c a IH]; intros in_run.
  - cbn [app]. now rewrite !squeeze_run.
  - cbn [app squeeze]. destruct (p c), in_run; now rewrite ?IH.
Qed.

Lemma squeeze_no_adjacent (p : Z -> bool) (r : Z) (s : jsstring) :
  p r = true ->
  forall in_run,
    no_adjacent r (squeeze p r in_run s)
    /\ (in_run = true ->
        match squeeze p r in_run s with
        | c :: _ => c <> r
        | [] => True
        end).
Proof.
  intros Hr. induction s as [|c s IH]; intros in_run; [now split|].
  cbn [squeeze]. destruct (p c) eqn:E.
  - destruct in_run.
    + apply IH.
    + destruct (IH true) as [Hn Hh]. split; [|discriminate].
      specialize (Hh eq_refl).
      destruct (squeeze p r true s) as [|d t]; [exact I|].
      split; [|exact Hn]. now intros [_ ->].
  - destruct (IH false) as [Hn _]. split.
    + destruct (squeeze p r false s) as [|d t]; [exact I|].
      split; [|exact Hn]. intros [-> _]. congruence.
    + intros _ ->. congruence.
Qed.

Lemma squeeze_Forall (p : Z -> bool) (r : Z) (Q : Z -> Prop) (s : jsstring) :
  Q r -> Forall Q s -> forall in_run, Forall Q (squeeze p r in_run s).
Proof.
  intros Hr Hs. induction Hs as [|c s Hc _ IH]; intros in_run; [constructor|].
  cbn [squeeze]. destruct (p c); [destruct in_run|]; auto.
Qed.

Lemma no_adjacent_firstn (r : Z) (n : nat) (s : jsstring) :
  no_adjacent r s -> no_adjacent r (firstn n s).
Proof.
  revert s. induction n as [|n IH]; intros s; [intros _; exact I|].
  destruct s as [|a [|b t]]; try (intros _; exact I).
  - intros _. destruct n; exact I.
  - intros Hs.
    change (~ (a = r /\ b = r) /\ no_adjacent r (b :: t)) in Hs.
    destruct Hs as [Hab Hrest]. specialize (IH _ Hrest).
    destruct n as [|n]; [exact I|].
    change (~ (a = r /\ b = r) /\ no_adjacent r (firstn (S n) (b :: t))).
    now split.
Qed.

(* ================================================================== *)
(** ** Content-shape hasher: whitespace *)
(* ================================================================== *)

(** The fingerprint does not depend on how much whitespace, or which,
    separates two parts of the text. *)
Theorem hashType_whitespace_insensitive (a b ws1 ws2 : jsstring) :
  ws1 <> [] -> forallb is_space ws1 = true ->
  ws2 <> [] -> forallb is_space ws2 = true ->
  hashType (a ++ ws1 ++ b) = hashType (a ++ ws2 ++ b).
Proof.
  intros H1 S1 H2 S2. unfold hashType.
  change re_spaces with (re_class_plus is_space).
  change (lit " ") with [32].
  rewrite !replace_all_class_plus.
  now rewrite (squeeze_between is_space 32 false a ws1 ws2 b).
Qed.

Lemma hashType_whitespace_insensitive_witness :
  hashType (lit "interface A {" ++ [10; 32; 32] ++ lit "id: number; }")
  = hashType (lit "interface A {" ++ [32] ++ lit "id: number; }").
Proof.
  apply (hashType_whitespace_insensitive
           (lit "interface A {") (lit "id: number; }") [10; 32; 32] [32]);
    solve [discriminate | reflexivity].
Defined.

(* ================================================================== *)
(** ** Function names *)
(* ================================================================== *)

Lemma Forall_firstn_of {A} (Q : A -> Prop) (n : nat) (l : list A) :
  Forall Q l -> Forall Q (firstn n l).
Proof.
  intros Hl. rewrite <- (firstn_skipn n l) in Hl.
  now apply Forall_app in Hl.
Qed.

Lemma clean_url_word (url : jsstring) : forallb is_word (clean_url url) = true.
Proof.
  apply forallb_forall. apply Forall_forall. unfold clean_url.
  apply Forall_firstn_of. change (lit "_") with [95].
  rewrite replace_all_class_plus. apply squeeze_Forall; [reflexivity|].
  apply Forall_forall. intros c Hc. unfold underscore_non_alnum in Hc.
  apply in_map_iff in Hc as (d & <- & _). unfold is_word.
  destruct (is_alnum d) eqn:E; [now rewrite E | reflexivity].
Qed.

(** The name of a generated function is the lower-cased method, an
    underscore, and at most 80 code units that are letters, digits or
    underscores, with no two underscores in a row. *)
Theorem createFunctionName_shape
    (toLowerCase : jsstring -> jsstring) (url method : jsstring) :
  exists clean,
    createFunctionName toLowerCase url method
    = toLowerCase method ++ lit "_" ++ clean
    /\ (List.length clean <= 80)%nat
    /\ forallb is_word clean = true
    /\ no_adjacent 95 clean.
Proof.
  exists (clean_url url). split; [reflexivity|]. split; [|split].
  - unfold clean_url. apply firstn_le_length.
  - apply clean_url_word.
  - unfold clean_url. apply no_adjacent_firstn. change (lit "_") with [95].
    rewrite replace_all_class_plus.
    apply (squeeze_no_adjacent is_underscore 95); reflexivity.
Qed.

Lemma strip_prefix_app_sep (p b q : jsstring) (sep : Z) :
  ~ In sep p ->
  strip_prefix p (b ++ sep :: q)
  = match strip_prefix p b with
    | Some rest => Some (rest ++ sep :: q)
    | None => None
    end.
Proof.
  revert b. induction p as [|x p IH]; intros b Hsep; [reflexivity|].
  destruct b as [|y b]; cbn [app strip_prefix].
  - destruct (Z.eqb_spec x sep) as [->|_]; [|reflexivity].
    exfalso. apply Hsep. now left.
  - destruct (x =? y); [|reflexivity]. apply IH.
    intros Hin. apply Hsep. now right.
Qed.

Lemma strip_http_scheme_app_sep (base q : jsstring) (sep : Z) :
  sep = 63 \/ sep = 35 ->
  strip_http_scheme (base ++ sep :: q) = strip_http_scheme base ++ sep :: q.
Proof.
  intros Hsep. unfold strip_http_scheme.
  rewrite !strip_prefix_app_sep.
  - destruct (strip_prefix (lit "https://") base); [reflexivity|].
    now destruct (strip_prefix (lit "http://") base).
  - intros Hin. cbv in Hin. destruct Hsep; subst; intuition discriminate.
  - intros Hin. cbv in Hin. destruct Hsep; subst; intuition discriminate.
Qed.

Lemma strip_http_scheme_no_query_mark (base : jsstring) :
  no_query_mark base = true -> no_query_mark (strip_http_scheme base) = true.
Proof.
  intros Hb. unfold strip_http_scheme.
  destruct (strip_prefix (lit "https://") base) as [r|] eqn:E1.
  - apply strip_prefix_Some in E1. subst base. unfold no_query_mark in *.
    rewrite forallb_app in Hb. now apply andb_prop in Hb.
  - destruct (strip_prefix (lit "http://") base) as [r|] eqn:E2; [|exact Hb].
    apply strip_prefix_Some in E2. subst base. unfold no_query_mark in *.
    rewrite forallb_app in Hb. now apply andb_prop in Hb.
Qed.

Lemma before_query_cut (x q : jsstring) (sep : Z) :
  sep = 63 \/ sep = 35 -> no_query_mark x = true ->
  before_query (x ++ sep :: q) = x /\ before_query x = x.
Proof.
  intros Hsep Hx. unfold before_query, no_query_mark in *. split.
  - rewrite (span_exact _ x (sep :: q) Hx); [reflexivity|].
    destruct Hsep; subst; reflexivity.
  - rewrite <- (app_nil_r x) at 1.
    now rewrite (span_exact _ x [] Hx I).
Qed.

(** The query string and the fragment of the URL play no part in the
    name of the function. *)
Theorem createFunctionName_ignores_query
    (toLowerCase : jsstring -> jsstring) (base q method : jsstring) (sep : Z) :
  sep = 63 \/ sep = 35 -> no_query_mark base = true ->
  createFunctionName toLowerCase (base ++ sep :: q) method
  = createFunctionName toLowerCase base method.
Proof.
  intros Hsep Hbase. unfold createFunctionName, clean_url.
  rewrite (strip_http_scheme_app_sep _ _ _ Hsep).
  destruct (before_query_cut (strip_http_scheme base) q sep Hsep
              (strip_http_scheme_no_query_mark _ Hbase)) as [-> ->].
  reflexivity.
Qed.

Lemma createFunctionName_ignores_query_witness :
  createFunctionName (map toLowerCase1)
    (lit "https://api.example.com/users" ++ 63 :: lit "page=2&sort=name")
    (lit "GET")
  = lit "get_api_example_com_users".
Proof.
  rewrite (createFunctionName_ignores_query (map toLowerCase1)
             (lit "https://api.example.com/users") (lit "page=2&sort=name")
             (lit "GET") 63); [reflexivity | now left | reflexivity].
Defined.

(* ================================================================== *)
(** ** Header values and header lines *)
(* ================================================================== *)

(** In an escaped header value every double quote comes right after a
    backslash, and the value grew by one code unit per double quote. *)
Theorem escapeHeaderValue_quotes_escaped (value : jsstring) :
  (forall i, nth_error (escapeHeaderValue value) i = Some 34 ->
             exists j, i = S j
                       /\ nth_error (escapeHeaderValue value) j = Some 92)
  /\ List.length (escapeHeaderValue value)
     = (List.length value + count_occ Z.eq_dec value 34%Z)%nat.
Proof.
  split.
  - induction value as [|c value IH]; intros i Hi.
    + destruct i; discriminate.
    + unfold escapeHeaderValue in *. cbn [flat_map] in *.
      destruct (Z.eqb_spec c 34) as [->|Hc]; cbn [app] in *.
      * destruct i as [|[|i]]; [discriminate | now exists 0%nat |].
        cbn [nth_error] in Hi. destruct (IH _ Hi) as (j & -> & Hj).
        now exists (S (S j)).
      * destruct i as [|i]; [cbn in Hi; congruence|].
        cbn [nth_error] in Hi. destruct (IH _ Hi) as (j & -> & Hj).
        now exists (S j).
  - induction value as [|c value IH]; [reflexivity|].
    unfold escapeHeaderValue in *. cbn [flat_map count_occ List.length].
    rewrite length_app, IH.
    destruct (Z.eqb_spec c 34) as [->|Hc].
    + destruct (Z.eq_dec 34 34); [cbn; lia | congruence].
    + destruct (Z.eq_dec c 34); [congruence | cbn; lia].
Qed.

(** A header whose name starts with a colon (an HTTP/2 pseudo-header)
    leaves no trace in the header lines of the generated function. *)
Theorem header_lines_skip_pseudo_headers
    (before after : list HarHeader) (h : HarHeader) :
  startsWith (header_name h) (lit ":") = true ->
  header_lines (before ++ h :: after) = header_lines (before ++ after).
Proof.
  intros Hh. unfold header_lines. rewrite !filter_app. cbn [filter].
  now rewrite Hh.
Qed.

Lemma header_lines_skip_pseudo_headers_witness :
  header_lines ([mkHeader (lit "accept") (lit "*/*")]
                ++ mkHeader (lit ":authority") (lit "api.example.com")
                :: [mkHeader (lit "x-tag") (34 :: lit "a" ++ [34])])
  = lit "'accept': '*/*'," ++ nl ++ lit "      'x-tag': '"
    ++ [92; 34] ++ lit "a" ++ [92; 34] ++ lit "'".
Proof.
  rewrite (header_lines_skip_pseudo_headers
             [mkHeader (lit "accept") (lit "*/*")]
             [mkHeader (lit "x-tag") (34 :: lit "a" ++ [34])]
             (mkHeader (lit ":authority") (lit "api.example.com")));
    reflexivity.
Defined.

(* ================================================================== *)
(** ** Validation of the capture *)
(* ================================================================== *)

(** [validateHarFile] never touches the state. It accepts exactly an
    object whose [log] is an object whose [entries] is an array; a root
    that is neither object nor array gets the first message, a missing or
    non-object [log] the second, anything else the third. *)
Theorem validateHarFile_accepts_iff (har : json) (w : world) :
  snd (validateHarFile har w) = w
  /\ (fst (validateHarFile har w) = Returns tt <->
      exists members logMembers items,
        har = JObject members
        /\ JsMap.get members (lit "log") = Some (JObject logMembers)
        /\ JsMap.get logMembers (lit "entries") = Some (JArray items))
  /\ (is_truthy_object har = false ->
      fst (validateHarFile har w) = Throws (Error msg_root))
  /\ (fst (validateHarFile har w) = Returns tt
      \/ fst (validateHarFile har w) = Throws (Error msg_root)
      \/ fst (validateHarFile har w) = Throws (Error msg_log)
      \/ fst (validateHarFile har w) = Throws (Error msg_entries)).
Proof.
  unfold validateHarFile.
  destruct (is_truthy_object har) eqn:Hobj; cbn [negb].
  2: { split; [reflexivity|]. split; [split; [discriminate|]|].
       - intros (m & lm & it & -> & _). discriminate.
       - split; [reflexivity | auto]. }
  destruct (member har (lit "log")) as [log_|] eqn:Hlog.
  2: { split; [reflexivity|]. split; [split; [discriminate|]|].
       - intros (m & lm & it & -> & E & _). unfold member in Hlog. congruence.
       - split; [congruence | auto]. }
  destruct (is_truthy_object log_) eqn:Hlobj; cbn [negb].
  2: { split; [reflexivity|]. split; [split; [discriminate|]|].
       - intros (m & lm & it & -> & E & _). unfold member in Hlog.
         rewrite E in Hlog. injection Hlog as <-. discriminate.
       - split; [congruence | auto]. }
  destruct (member log_ (lit "entries")) as [e|] eqn:He.
  2: { split; [reflexivity|]. split; [split; [discriminate|]|].
       - intros (m & lm & it & -> & E & E'). unfold member in Hlog.
         rewrite E in Hlog. injection Hlog as <-. unfold member in He. congruence.
       - split; [congruence | auto 6]. }
  assert (Hshape : exists m lm, har = JObject m /\ log_ = JObject lm).
  { destruct har; try discriminate. destruct log_; try discriminate. eauto. }
  destruct Hshape as (m & lm & -> & ->). unfold member in Hlog, He.
  destruct e as [| | | |items|ms];
    (split; [reflexivity|]; split; [split|split; [congruence | auto 6]]);
    try discriminate;
    try (intros (m' & lm' & it & E0 & E & E'); injection E0 as <-;
         rewrite E in Hlog; injection Hlog as <-; congruence).
  - intros _. now exists m, lm, items.
  - reflexivity.
Qed.

Lemma validateHarFile_accepts_iff_witness :
  fst (validateHarFile
         (JObject [(lit "log", JObject [(lit "entries", JArray [])])])
         Samples.fresh_world) = Returns tt
  /\ fst (validateHarFile (JString (lit "log")) Samples.fresh_world)
     = Throws (Error msg_root).
Proof.
  split.
  - apply (validateHarFile_accepts_iff
             (JObject [(lit "log", JObject [(lit "entries", JArray [])])])
             Samples.fresh_world).
    eexists _, _, _. repeat split; reflexivity.
  - apply (validateHarFile_accepts_iff (JString (lit "log"))
             Samples.fresh_world).
    reflexivity.
Defined.

Lemma escapeHeaderValue_quotes_escaped_witness :
  exists j, 5%nat = S j
            /\ nth_error (escapeHeaderValue (lit "say " ++ [34] ++ lit "hi")) j
               = Some 92.
Proof.
  apply (escapeHeaderValue_quotes_escaped (lit "say " ++ [34] ++ lit "hi")).
  reflexivity.
Defined.

(* ================================================================== *)
(** ** Resource names and type names *)
(* ================================================================== *)

Lemma split_at_app_sep (sep : Z) (a b cur : jsstring) :
  split_at sep (a ++ sep :: b) cur = split_at sep a cur ++ split_at sep b [].
Proof.
  revert cur. induction a as [|c a IH]; intros cur; cbn [app split_at].
  - now rewrite Z.eqb_refl.
  - destruct (c =? sep); [cbn [app]; f_equal|]; apply IH.
Qed.

Lemma split_at_plain (sep : Z) (seg cur : jsstring) :
  ~ In sep seg -> split_at sep seg cur = [rev cur ++ seg].
Proof.
  revert cur. induction seg as [|c seg IH]; intros cur Hno; cbn [split_at].
  - now rewrite app_nil_r.
  - destruct (Z.eqb_spec c sep) as [->|_]; [exfalso; apply Hno; now left|].
    rewrite IH by (intros Hin; apply Hno; now right).
    cbn [rev]. now rewrite <- app_assoc.
Qed.

Lemma split_at_seps (sep : Z) (trail : jsstring) :
  forallb (Z.eqb sep) trail = true ->
  Forall (fun part => part = []) (split_at sep trail []).
Proof.
  induction trail as [|c trail IH]; cbn [split_at forallb].
  - intros _. now repeat constructor.
  - intros E. apply andb_prop in E as [E1 E2]. rewrite Z.eqb_sym, E1.
    constructor; [reflexivity | now apply IH].
Qed.

Lemma split_at_no_sep (sep : Z) (s cur : jsstring) :
  ~ In sep cur ->
  Forall (fun part => ~ In sep part) (split_at sep s cur).
Proof.
  revert cur. induction s as [|c s IH]; intros cur Hcur; cbn [split_at].
  - constructor; [|constructor]. now rewrite <- in_rev.
  - destruct (Z.eqb_spec c sep) as [->|Hc].
    + constructor; [now rewrite <- in_rev | now apply IH].
    + apply IH. intros [->|Hin]; [congruence | contradiction].
Qed.

Lemma filter_all_empty (parts : list jsstring) :
  Forall (fun part => part = []) parts ->
  filter (fun part => match part with [] => false | _ => true end) parts = [].
Proof.
  induction 1 as [|p parts -> _ IH]; [reflexivity | exact IH].
Qed.

(** The resource name is the last segment of the path that is not empty:
    what stands between the last slash inside the path and the slashes
    at its end. *)
Theorem getResourceName_last_segment
    (before segment trail : jsstring)
    (params : list (jsstring * jsstring)) (orig : jsstring) :
  segment <> [] -> ~ In 47 segment -> forallb (Z.eqb 47) trail = true ->
  getResourceName (mkURL (before ++ 47 :: segment ++ trail) params orig)
  = segment.
Proof.
  intros Hne Hno Htrail. unfold getResourceName. cbn [pathname].
  rewrite split_at_app_sep, filter_app.
  match goal with
  | |- context [filter ?f (split_at 47 (segment ++ trail) [])] =>
      assert (Hlast : filter f (split_at 47 (segment ++ trail) []) = [segment])
  end.
  { destruct trail as [|c trail].
    - rewrite app_nil_r, split_at_plain by assumption. cbn [rev app filter].
      now destruct segment.
    - cbn [forallb] in Htrail. apply andb_prop in Htrail as [Hc Htrail].
      apply Z.eqb_eq in Hc. subst c.
      rewrite split_at_app_sep, filter_app, split_at_plain by assumption.
      replace (filter _ (split_at 47 trail [])) with (@nil jsstring)
        by (symmetry; apply filter_all_empty, split_at_seps, Htrail).
      cbn [rev app filter]. now destruct segment. }
  unfold jsstring in *. rewrite Hlast, length_app. cbn [List.length].
  rewrite nth_error_app2 by lia.
  replace (_ + 1 - 1 - _)%nat with 0%nat by lia. cbn [nth_error].
  now destruct segment.
Qed.

Lemma getResourceName_last_segment_witness :
  getResourceName
    (mkURL (lit "/api/v2" ++ 47 :: lit "users" ++ lit "//") [] (lit "https://h"))
  = lit "users".
Proof.
  apply (getResourceName_last_segment (lit "/api/v2") (lit "users") (lit "//")).
  - discriminate.
  - cbv. intuition discriminate.
  - reflexivity.
Defined.

(** The resource name is never empty and contains no slash; for a path
    made of slashes only (or empty) it is [root]. *)
Theorem getResourceName_nonempty (u : URL) :
  getResourceName u <> []
  /\ ~ In 47 (getResourceName u)
  /\ (forallb (Z.eqb 47) (pathname u) = true ->
      getResourceName u = lit "root").
Proof.
  unfold getResourceName.
  match goal with
  | |- context [filter ?f (split_at 47 (pathname u) [])] =>
      set (pathParts := filter f (split_at 47 (pathname u) []))
  end.
  split; [|split].
  - destruct (nth_error pathParts _) as [[|c rest]|]; discriminate.
  - destruct (nth_error pathParts _) as [[|c rest]|] eqn:E;
      try (cbv; intuition discriminate).
    apply nth_error_In in E. subst pathParts. apply filter_In in E as [E _].
    pose proof (split_at_no_sep 47 (pathname u) [] (fun f => f)) as Hall.
    rewrite Forall_forall in Hall. now apply Hall.
  - intros Hall. subst pathParts.
    replace (filter _ (split_at 47 (pathname u) [])) with (@nil jsstring)
      by (symmetry; apply filter_all_empty, split_at_seps, Hall).
    reflexivity.
Qed.

Lemma getResourceName_nonempty_witness :
  getResourceName (mkURL (lit "///") [] (lit "https://h")) = lit "root".
Proof.
  apply (getResourceName_nonempty (mkURL (lit "///") [] (lit "https://h"))).
  reflexivity.
Defined.

Lemma join_nil_cons (p : jsstring) (ps : list jsstring) :
  join [] (p :: ps) = p ++ join [] ps.
Proof. destruct ps; cbn [join app]; [now rewrite app_nil_r | reflexivity]. Qed.

Lemma is_alnum_toLowerCase1 (c : Z) : is_alnum (toLowerCase1 c) = is_alnum c.
Proof.
  unfold toLowerCase1. destruct (is_upper c) eqn:U; [|reflexivity].
  unfold is_alnum at 2. rewrite U, orb_true_r. cbn [orb].
  unfold is_alnum, is_lower, is_upper, is_digit in *.
  rewrite andb_true_iff, !Z.leb_le in U.
  rewrite !orb_true_iff, !andb_true_iff, !Z.leb_le. lia.
Qed.

Lemma toLowerCase1_idem (c : Z) : toLowerCase1 (toLowerCase1 c) = toLowerCase1 c.
Proof.
  unfold toLowerCase1. destruct (is_upper c) eqn:U; [|now rewrite U].
  assert (U' : is_upper (c + 32) = false).
  { unfold is_upper in *. rewrite andb_true_iff, !Z.leb_le in U.
    rewrite andb_false_iff, !Z.leb_gt. lia. }
  now rewrite U'.
Qed.

Lemma toUpperCase1_toLowerCase1 (c : Z) :
  toUpperCase1 (toLowerCase1 c) = toUpperCase1 c.
Proof.
  unfold toLowerCase1, toUpperCase1, is_upper, is_lower.
  destruct ((65 <=? c) && (c <=? 90)) eqn:U.
  - rewrite andb_true_iff, !Z.leb_le in U.
    replace ((97 <=? c + 32) && (c + 32 <=? 122)) with true
      by (symmetry; rewrite andb_true_iff, !Z.leb_le; lia).
    replace ((97 <=? c) && (c <=? 122)) with false
      by (symmetry; rewrite andb_false_iff, !Z.leb_gt; lia).
    lia.
  - reflexivity.
Qed.

Lemma capitalize_toLowerCase (part : jsstring) :
  capitalize (map toLowerCase1 part) = capitalize part.
Proof.
  destruct part as [|c rest]; [reflexivity|]. cbn [map capitalize].
  rewrite toUpperCase1_toLowerCase1, map_map. f_equal.
  apply map_ext. intros x. apply toLowerCase1_idem.
Qed.

Lemma split_non_alnum_toLowerCase (s cur : jsstring) (in_sep : bool) :
  split_non_alnum (map toLowerCase1 s) (map toLowerCase1 cur) in_sep
  = map (map toLowerCase1) (split_non_alnum s cur in_sep).
Proof.
  revert cur in_sep. induction s as [|c s IH]; intros cur in_sep;
    cbn [map split_non_alnum].
  - now rewrite map_rev.
  - rewrite is_alnum_toLowerCase1. destruct (is_alnum c).
    + apply (IH (c :: cur)).
    + destruct in_sep; [apply IH|]. cbn [map]. rewrite map_rev. f_equal.
      apply (IH []).
Qed.

Lemma split_non_alnum_separators (s cur : jsstring) (in_sep : bool) :
  forallb (fun c => negb (is_alnum c)) s = true ->
  join [] (map capitalize (split_non_alnum s cur in_sep))
  = capitalize (rev cur).
Proof.
  revert cur in_sep. induction s as [|c s IH]; intros cur in_sep E;
    cbn [split_non_alnum forallb] in *.
  - reflexivity.
  - apply andb_prop in E as [E1 E2]. apply negb_true_iff in E1. rewrite E1.
    destruct in_sep; [now apply IH|].
    cbn [map]. rewrite join_nil_cons, (IH [] true E2). apply app_nil_r.
Qed.

(** A type-name stem is made of letters and digits only; it does not
    depend on the case of the letters of the resource name; and it is
    empty when the resource name has no letter and no digit. *)
Theorem normalizeTypeName_shape (resource : jsstring) :
  forallb is_alnum (normalizeTypeName resource) = true
  /\ normalizeTypeName (map toLowerCase1 resource) = normalizeTypeName resource
  /\ (forallb (fun c => negb (is_alnum c)) resource = true ->
      normalizeTypeName resource = []).
Proof.
  split; [apply normalizeTypeName_alnum|]. split.
  - unfold normalizeTypeName.
    change (split_non_alnum (map toLowerCase1 resource) [] false)
      with (split_non_alnum (map toLowerCase1 resource)
              (map toLowerCase1 []) false).
    rewrite (split_non_alnum_toLowerCase resource [] false), map_map.
    f_equal. apply map_ext. apply capitalize_toLowerCase.
  - intros E. unfold normalizeTypeName.
    now rewrite split_non_alnum_separators.
Qed.

Lemma normalizeTypeName_shape_witness :
  normalizeTypeName (lit "--__--") = [].
Proof.
  apply (normalizeTypeName_shape (lit "--__--")). reflexivity.
Defined.

(* ================================================================== *)
(** ** Identifier normalizer: what the identifiers look like *)
(* ================================================================== *)

Lemma sanitize_word (s : jsstring) : forallb is_word (sanitize s) = true.
Proof.
  induction s as [|c s IH]; [reflexivity|]. cbn [sanitize map forallb].
  fold (sanitize s). rewrite IH.
  destruct (is_word c) eqn:E; [now rewrite E | reflexivity].
Qed.

Lemma sanitize_id (s : jsstring) : forallb is_word s = true -> sanitize s = s.
Proof.
  induction s as [|c s IH]; [reflexivity|]. cbn [sanitize map forallb].
  intros E. apply andb_prop in E as [E1 E2]. fold (sanitize s).
  now rewrite E1, IH.
Qed.

Lemma digits_word (s : jsstring) :
  forallb is_digit s = true -> forallb is_word s = true.
Proof.
  induction s as [|c s IH]; [reflexivity|]. cbn [forallb].
  intros E. apply andb_prop in E as [E1 E2]. rewrite (IH E2).
  unfold is_word, is_alnum. rewrite E1. now rewrite orb_true_r.
Qed.

Lemma candidate_word (b : jsstring) (i : N) :
  forallb is_word b = true -> forallb is_word (candidate b i) = true.
Proof.
  intros Hb. unfold candidate.
  now rewrite !forallb_app, Hb, (digits_word _ (of_N_digits i)).
Qed.

Lemma uniqueName_loop_result (fuel : nat) (taken : list jsstring)
    (b u r : jsstring) (c : N) :
  uniqueName_loop fuel taken b u c = Some r ->
  r = u \/ exists i, r = candidate b i.
Proof.
  revert u c. induction fuel as [|f IH]; intros u c; [discriminate|].
  cbn [uniqueName_loop]. destruct (includes taken u).
  - intros E. apply IH in E as [-> | E]; [right; now exists c | now right].
  - intros [= <-]. now left.
Qed.

(** A call made when every identifier of the registry consists of word
    characters returns such an identifier and leaves the registry so:
    the normalizer only ever hands out letters, digits and underscores. *)
Theorem normalizePropertyName_word (raw : jsstring) (w : world) :
  registry_words (propertyRegistry w) ->
  exists id w',
    normalizePropertyName raw w = (Returns id, w')
    /\ forallb is_word id = true
    /\ registry_words (propertyRegistry w').
Proof.
  intros Hw. unfold normalizePropertyName.
  destruct (JsMap.get (propertyRegistry w) raw) as [known|] eqn:G.
  - exists known, w. split; [reflexivity|]. split; [|exact Hw].
    apply get_In_values in G. unfold registry_words in Hw.
    rewrite Forall_forall in Hw. now apply Hw.
  - destruct (uniqueName_loop_finds (JsMap.values (propertyRegistry w))
                (sanitize (strip_noise_prefix raw))) as (u & E & _).
    rewrite E. eexists _, _. split; [reflexivity|].
    assert (Hu : forallb is_word u = true).
    { apply uniqueName_loop_result in E as [-> | [i ->]].
      - apply sanitize_word.
      - apply candidate_word, sanitize_word. }
    split; [exact Hu|]. cbn [propertyRegistry].
    apply Forall_forall. intros v Hv.
    apply In_values_set_inv in Hv as [-> | Hv]; [exact Hu|].
    unfold registry_words in Hw. rewrite Forall_forall in Hw. now apply Hw.
Qed.

Lemma normalizePropertyName_word_witness :
  exists id w',
    normalizePropertyName (lit "user.first-name")
      (mkWorld [(lit "user first name", lit "user_first_name")] [])
    = (Returns id, w')
    /\ id = lit "user_first_name_1"
    /\ forallb is_word id = true.
Proof.
  destruct (normalizePropertyName_word (lit "user.first-name")
              (mkWorld [(lit "user first name", lit "user_first_name")] []))
    as (id & w' & E & Hid & _); [repeat constructor|].
  exists id, w'. split; [exact E|]. split; [|exact Hid].
  vm_compute in E. now injection E as <- _.
Defined.

Lemma strip_noise_prefix_word (raw : jsstring) :
  forallb is_word raw = true ->
  match raw with 95 :: _ => False | _ => True end ->
  strip_noise_prefix raw = raw.
Proof.
  intros Hw Hhead. unfold strip_noise_prefix.
  assert (Hdot : forall p r, forallb is_word p = false ->
                   strip_prefix p raw = Some r -> False).
  { intros p r Hp E. apply strip_prefix_Some in E. subst raw.
    rewrite forallb_app, Hp in Hw. discriminate. }
  destruct (strip_prefix (lit "ep.") raw) eqn:E1;
    [exfalso; eapply (Hdot (lit "ep.")); [reflexivity | exact E1]|].
  destruct (strip_prefix (lit "epn.") raw) eqn:E2;
    [exfalso; eapply (Hdot (lit "epn.")); [reflexivity | exact E2]|].
  destruct (strip_prefix (lit "_") raw) eqn:E3; [|reflexivity].
  apply strip_prefix_Some in E3. subst raw. contradiction.
Qed.

(** A raw name that is already an identifier (word characters, no
    leading underscore), that was not seen before and whose text is not
    taken, is returned unchanged and recorded. *)
Theorem normalizePropertyName_keeps_identifier (raw : jsstring) (w : world) :
  forallb is_word raw = true ->
  match raw with 95 :: _ => False | _ => True end ->
  JsMap.get (propertyRegistry w) raw = None ->
  ~ In raw (JsMap.values (propertyRegistry w)) ->
  normalizePropertyName raw w
  = (Returns raw,
     mkWorld (JsMap.set (propertyRegistry w) raw raw) (console w)).
Proof.
  intros Hw Hhead Hget Hfree. unfold normalizePropertyName.
  rewrite Hget, (strip_noise_prefix_word _ Hw Hhead), (sanitize_id _ Hw).
  cbn [uniqueName_loop].
  now rewrite (proj2 (includes_false _ _) Hfree).
Qed.

Lemma normalizePropertyName_keeps_identifier_witness :
  normalizePropertyName (lit "userId")
    (mkWorld [(lit "id", lit "id")] [])
  = (Returns (lit "userId"),
     mkWorld [(lit "id", lit "id"); (lit "userId", lit "userId")] []).
Proof.
  apply (normalizePropertyName_keeps_identifier (lit "userId")
           (mkWorld [(lit "id", lit "id")] [])).
  - reflexivity.
  - exact I.
  - reflexivity.
  - cbv. intuition discriminate.
Defined.

(* ================================================================== *)
(** ** Schema inference: the branches *)
(* ================================================================== *)

Lemma for_of_invariant_world {A S} (I : S -> world -> Prop)
    (body : S -> A -> M S) (xs : list A) :
  (forall acc x w acc' w',
     I acc w -> body acc x w = (Returns acc', w') -> I acc' w') ->
  forall acc w r w',
    I acc w -> for_of xs body acc w = (Returns r, w') -> I r w'.
Proof.
  intros Hstep. induction xs as [|x xs IH]; intros acc w r w' Hacc; simpl.
  - intros E. apply ret_Returns in E as [<- ->]. exact Hacc.
  - intros E. apply bind_Returns in E as (acc' & w1 & E1 & E2).
    eapply IH; [|exact E2]. eapply Hstep; eauto.
Qed.

Lemma set_length_le {V} (m : JsMap.t V) (k : jsstring) (v : V) :
  (List.length (JsMap.set m k v) <= S (List.length m))%nat.
Proof.
  induction m as [|[k' v'] m IH]; cbn [JsMap.set List.length]; [lia|].
  destruct (Js.eqb k' k); cbn [List.length]; lia.
Qed.

Section InferenceBranches.
Context `{Host}.

(** [generateTypeFromFormData] falls back to the string-keyed record
    type exactly when [URLSearchParams] throws, and then logs one
    warning and leaves the registry alone. When the parameters parse it
    returns an interface with at most one line per parameter and logs
    nothing; with no parameter at all the interface has no line and the
    state is untouched. *)
Theorem generateTypeFromFormData_branches
    (name formData : jsstring) (w : world) :
  (forall error,
     URLSearchParams formData = Abrupt error ->
     generateTypeFromFormData name formData w
     = (Returns (record_alias name),
        mkWorld (propertyRegistry w)
                (console w ++ [WarnFormData name error])))
  /\ (forall params,
        URLSearchParams formData = Normal params ->
        exists lines w',
          generateTypeFromFormData name formData w
          = (Returns (interface_text name lines), w')
          /\ console w' = console w
          /\ (List.length lines <= List.length params)%nat
          /\ (params = [] -> lines = [] /\ w' = w)).
Proof.
  split.
  - intros error E. unfold generateTypeFromFormData, try_catch, bind.
    rewrite E. reflexivity.
  - intros params E. unfold generateTypeFromFormData, try_catch.
    unfold bind at 1. rewrite E. cbn [lift ret].
    set (step := fun (properties : JsMap.t jsstring) '(key, value) =>
                   propName <- normalizePropertyName key ;;
                   ret (JsMap.set properties propName
                          (form_value_type value))).
    assert (Htotal : total (for_of params step JsMap.empty)).
    { apply total_for_of. intros acc [key value]. subst step. cbn beta iota.
      apply total_bind; auto with returns. }
    destruct (Htotal w) as (properties & w' & Eloop).
    unfold bind at 1. fold step. rewrite Eloop. cbn [ret].
    eexists _, w'. split; [reflexivity|].
    assert (Hinv : console w' = console w
                   /\ (List.length properties
                       <= List.length params + List.length (@JsMap.empty jsstring))%nat).
    { revert Eloop. generalize (@JsMap.empty jsstring) as acc0. revert w.
      clear. induction params as [|[key value] params IH]; intros w acc0 E.
      - apply ret_Returns in E as [<- ->].
        split; [reflexivity | apply Nat.le_add_l].
      - cbn [for_of] in E. apply bind_Returns in E as (acc1 & w1 & E1 & E2).
        subst step. cbn beta iota in E1.
        apply bind_Returns in E1 as (propName & w2 & En & Er).
        apply ret_Returns in Er as [<- ->].
        destruct (normalizePropertyName_spec key w)
          as (id & w3 & En' & Hc & _).
        rewrite En in En'. injection En' as <- <-.
        destruct (IH _ _ E2) as [Hc' Hlen]. split; [congruence|].
        pose proof (set_length_le acc0 propName (form_value_type value)).
        cbn [List.length]. lia. }
    destruct Hinv as [Hc Hlen]. split; [exact Hc|]. split.
    + rewrite length_map. unfold JsMap.empty in Hlen.
      cbn [List.length] in Hlen. rewrite Nat.add_0_r in Hlen. exact Hlen.
    + intros ->. cbn [for_of] in Eloop.
      apply ret_Returns in Eloop as [<- ->]. now split.
Qed.

(** With a form mime type the entry point is [generateTypeFromFormData]
    on a text, and the [any] alias with one warning on a structured
    value. *)
Theorem generateTypeFromData_form_mime
    (name : jsstring) (mimeType : option jsstring) (w : world) :
  mime_is_form mimeType = true ->
  (forall s,
     generateTypeFromData name (Text s) mimeType w
     = generateTypeFromFormData name s w)
  /\ (forall v,
        generateTypeFromData name (Structured v) mimeType w
        = (Returns (any_alias name),
           mkWorld (propertyRegistry w)
             (console w
              ++ [WarnFallbackAny name
                    (Error (lit "Form data must be a string"))]))).
Proof.
  intros Hform. split.
  - intros s. unfold generateTypeFromData, try_catch at 1. rewrite Hform.
    destruct (total_generateTypeFromFormData name s w) as (t & w' & E).
    now rewrite E.
  - intros v. unfold generateTypeFromData, try_catch. rewrite Hform.
    reflexivity.
Qed.

(** JSON whose root is not an object or an array (a number, a string,
    a boolean, [null]) gives the [any] alias and one warning, and does
    not touch the registry. *)
Theorem generateTypeFromData_scalar_root
    (name s : jsstring) (mimeType : option jsstring) (parsed : json)
    (w : world) :
  mime_is_form mimeType = false ->
  JSON_parse s = Normal parsed ->
  is_truthy_object parsed = false ->
  generateTypeFromData name (Text s) mimeType w
  = (Returns (any_alias name),
     mkWorld (propertyRegistry w)
       (console w
        ++ [WarnFallbackAny name (Error (lit "Invalid JSON: not an object"))])).
Proof.
  intros Hform Hparse Hobj. unfold generateTypeFromData, try_catch.
  rewrite Hform. unfold bind at 1. rewrite Hparse. cbn [lift ret].
  rewrite Hobj. reflexivity.
Qed.

(** When [json-to-ts] throws on the parsed value (anything but a
    [SyntaxError]), the result is the [any] alias with one warning that
    carries the error, in the state the library left. *)
Theorem generateTypeFromData_library_error
    (name s : jsstring) (mimeType : option jsstring) (parsed : json)
    (error : exn) (w w1 : world) :
  mime_is_form mimeType = false ->
  JSON_parse s = Normal parsed ->
  is_truthy_object parsed = true ->
  run_lib (jsonToTS parsed name) w = (Throws error, w1) ->
  instanceof_SyntaxError error = false ->
  generateTypeFromData name (Text s) mimeType w
  = (Returns (any_alias name),
     mkWorld (propertyRegistry w1)
       (console w1 ++ [WarnFallbackAny name error])).
Proof.
  intros Hform Hparse Hobj Hlib Hsyn. unfold generateTypeFromData, try_catch.
  rewrite Hform. unfold bind at 1. rewrite Hparse. cbn [lift ret].
  rewrite Hobj. unfold generateTypeFromJSON, bind at 1. rewrite Hlib.
  unfold bind at 1. rewrite Hsyn. reflexivity.
Qed.

End InferenceBranches.

Lemma generateTypeFromFormData_branches_witness :
  exists lines w',
    @generateTypeFromFormData reference_host (lit "LoginRequest")
      (lit "a=1&a=x&b=2") Samples.fresh_world
    = (Returns (interface_text (lit "LoginRequest") lines), w')
    /\ console w' = []
    /\ (List.length lines <= 3)%nat.
Proof.
  destruct (proj2 (@generateTypeFromFormData_branches reference_host
                     (lit "LoginRequest") (lit "a=1&a=x&b=2")
                     Samples.fresh_world)
              [(lit "a", lit "1"); (lit "a", lit "x"); (lit "b", lit "2")]
              eq_refl)
    as (lines & w' & E & Hc & Hl & _).
  now exists lines, w'.
Defined.

Lemma generateTypeFromData_form_mime_witness :
  @generateTypeFromData reference_host (lit "LoginRequest")
    (Text (lit "id=42"))
    (Some (lit "application/x-www-form-urlencoded; charset=UTF-8"))
    Samples.fresh_world
  = @generateTypeFromFormData reference_host (lit "LoginRequest")
      (lit "id=42") Samples.fresh_world.
Proof.
  apply (@generateTypeFromData_form_mime reference_host (lit "LoginRequest")
           (Some (lit "application/x-www-form-urlencoded; charset=UTF-8"))
           Samples.fresh_world).
  reflexivity.
Defined.

Lemma generateTypeFromData_scalar_root_witness :
  @generateTypeFromData reference_host (lit "UsersResponse")
    (Text (lit "42")) (Some (lit "application/json")) Samples.fresh_world
  = (Returns (any_alias (lit "UsersResponse")),
     mkWorld JsMap.empty
       [WarnFallbackAny (lit "UsersResponse")
          (Error (lit "Invalid JSON: not an object"))]).
Proof.
  apply (@generateTypeFromData_scalar_root reference_host
           (lit "UsersResponse") (lit "42") (Some (lit "application/json"))
           (JNumber (lit "42")) Samples.fresh_world); reflexivity.
Defined.

Lemma generateTypeFromData_library_error_witness :
  fst (@generateTypeFromData reference_host (lit "UsersResponse")
         (Text (lit "[1, 2]")) None Samples.fresh_world)
  = Returns (any_alias (lit "UsersResponse")).
Proof.
  rewrite (@generateTypeFromData_library_error reference_host
             (lit "UsersResponse") (lit "[1, 2]") None
             (JArray [JNumber (lit "1"); JNumber (lit "2")])
             (Thrown (lit "outside the texts covered by this instance"))
             Samples.fresh_world Samples.fresh_world);
    reflexivity.
Defined.

(* ================================================================== *)
(** ** Duplicates among the types of one inference *)
(* ================================================================== *)

Lemma get_None_keys {V} (m : JsMap.t V) (k : jsstring) :
  JsMap.get m k = None -> ~ In k (JsMap.keys m).
Proof.
  induction m as [|[k' v'] m IH]; cbn [JsMap.get JsMap.keys map]; [tauto|].
  destruct (Js.eqb k' k) eqn:E; [discriminate|].
  intros G [Hk | Hin]; [|now apply IH].
  cbn in Hk. subst k'. rewrite eqb_refl in E. discriminate.
Qed.

Lemma get_In_pair {V} (m : JsMap.t V) (k : jsstring) (v : V) :
  JsMap.get m k = Some v -> In (k, v) m.
Proof.
  induction m as [|[k' v'] m IH]; cbn [JsMap.get]; [discriminate|].
  destruct (Js.eqb k' k) eqn:E.
  - apply eqb_eq in E. subst k'. intros [= <-]. now left.
  - intros G. right. now apply IH.
Qed.

Lemma set_fresh {V} (m : JsMap.t V) (k : jsstring) (v : V) :
  JsMap.get m k = None -> JsMap.set m k v = m ++ [(k, v)].
Proof.
  induction m as [|[k' v'] m IH]; cbn [JsMap.get JsMap.set app];
    [reflexivity|].
  destruct (Js.eqb k' k); [discriminate|]. intros G. now rewrite IH.
Qed.

Lemma NoDup_snoc {A} (l : list A) (k : A) :
  NoDup l -> ~ In k l -> NoDup (l ++ [k]).
Proof.
  induction 1 as [|x l Hx Hl IH]; intros Hk; cbn [app].
  - constructor; [intros [] | constructor].
  - constructor.
    + intros Hin. apply in_app_or in Hin as [Hin | [<- | []]];
        [contradiction | apply Hk; now left].
    + apply IH. intros Hin. apply Hk. now right.
Qed.

Lemma uniqueTypes_fold (types : list jsstring) :
  forall m : JsMap.t jsstring,
    Forall (fun kv => fst kv = clean_hash (snd kv)) m ->
    NoDup (JsMap.keys m) ->
    let F :=
      fold_left
        (fun (uniqueTypes : JsMap.t jsstring) type =>
           if JsMap.has uniqueTypes (clean_hash type) then uniqueTypes
           else JsMap.set uniqueTypes (clean_hash type) type)
        types m in
    Forall (fun kv => fst kv = clean_hash (snd kv)) F
    /\ NoDup (JsMap.keys F)
    /\ (exists extra, F = m ++ extra /\ incl (JsMap.values extra) types)
    /\ (forall t, In t types ->
          exists k, In k (JsMap.values F) /\ clean_hash k = clean_hash t).
Proof.
  induction types as [|t ts IH]; intros m HJ Hnd; cbn [fold_left].
  - repeat split; auto.
    + exists []. split; [now rewrite app_nil_r | intros x []].
    + intros t [].
  - set (m1 := if JsMap.has m (clean_hash t) then m
               else JsMap.set m (clean_hash t) t).
    assert (H1 : Forall (fun kv => fst kv = clean_hash (snd kv)) m1
                 /\ NoDup (JsMap.keys m1)
                 /\ (exists e1, m1 = m ++ e1 /\ incl (JsMap.values e1) [t])
                 /\ exists k, In k (JsMap.values m1)
                              /\ clean_hash k = clean_hash t).
    { subst m1. unfold JsMap.has.
      destruct (JsMap.get m (clean_hash t)) as [v|] eqn:G.
      - repeat split; auto.
        + exists []. split; [now rewrite app_nil_r | intros x []].
        + exists v. split; [eapply get_In_values, G|].
          apply get_In_pair in G. rewrite Forall_forall in HJ.
          symmetry. exact (HJ _ G).
      - rewrite (set_fresh _ _ _ G). repeat split.
        + apply Forall_app. split; [exact HJ | now repeat constructor].
        + unfold JsMap.keys. rewrite map_app. cbn [map fst].
          apply NoDup_snoc; [exact Hnd | now apply get_None_keys].
        + exists [(clean_hash t, t)]. split; [reflexivity|].
          intros x [<- | []]. now left.
        + exists t. split; [|reflexivity].
          unfold JsMap.values. rewrite map_app. apply in_or_app. right.
          now left. }
    destruct H1 as (HJ1 & Hnd1 & (e1 & He1 & Hi1) & (k1 & Hk1 & Hh1)).
    destruct (IH m1 HJ1 Hnd1) as (HJF & HndF & (e2 & He2 & Hi2) & Hcov).
    repeat split; auto.
    + exists (e1 ++ e2). split.
      * rewrite He2, He1. now rewrite app_assoc.
      * unfold JsMap.values. rewrite map_app. intros x Hx.
        apply in_app_or in Hx as [Hx | Hx].
        -- apply Hi1 in Hx as [<- | []]. now left.
        -- right. now apply Hi2.
    + intros t' [<- | Ht'].
      * exists k1. split; [|exact Hh1]. rewrite He2.
        unfold JsMap.values in *. rewrite map_app. apply in_or_app. now left.
      * now apply Hcov.
Qed.

Lemma uniqueTypes_distinct (types : list jsstring) :
  forall m : JsMap.t jsstring,
    NoDup (map clean_hash types) ->
    (forall t, In t types -> ~ In (clean_hash t) (JsMap.keys m)) ->
    Forall (fun kv => fst kv = clean_hash (snd kv)) m ->
    fold_left
      (fun (uniqueTypes : JsMap.t jsstring) type =>
         if JsMap.has uniqueTypes (clean_hash type) then uniqueTypes
         else JsMap.set uniqueTypes (clean_hash type) type)
      types m
    = m ++ map (fun t => (clean_hash t, t)) types.
Proof.
  set (f := fun (uniqueTypes : JsMap.t jsstring) type =>
              if JsMap.has uniqueTypes (clean_hash type) then uniqueTypes
              else JsMap.set uniqueTypes (clean_hash type) type).
  induction types as [|t ts IH]; intros m Hnd Hfree HJ; cbn [fold_left map].
  - now rewrite app_nil_r.
  - assert (G : JsMap.get m (clean_hash t) = None).
    { destruct (JsMap.get m (clean_hash t)) as [v|] eqn:G; [|reflexivity].
      exfalso. apply (Hfree t (or_introl eq_refl)).
      apply get_In_pair in G. unfold JsMap.keys.
      change (clean_hash t) with (fst (clean_hash t, v)). now apply in_map. }
    replace (f m t) with (m ++ [(clean_hash t, t)])
      by (subst f; cbn beta; unfold JsMap.has;
          now rewrite G, (set_fresh _ _ _ G)).
    inversion Hnd as [|h hs Hnotin Hnd']; subst.
    rewrite IH; [now rewrite <- app_assoc | exact Hnd' | |].
    + intros t' Ht'. unfold JsMap.keys. rewrite map_app. cbn [map fst].
      intros Hin. apply in_app_or in Hin as [Hin | [Heq | []]].
      * exact (Hfree t' (or_intror Ht') Hin).
      * apply Hnotin. rewrite Heq. now apply in_map.
    + apply Forall_app. split; [exact HJ | now repeat constructor].
Qed.

Section JsonFacts.
Context `{Host}.

(** [generateTypeFromJSON] joins the types [json-to-ts] returned, each
    fingerprint once: the types kept come from the library, no two of
    them have the same fingerprint, every type of the library has its
    fingerprint among them, and when the fingerprints are all different
    nothing is dropped. *)
Theorem generateTypeFromJSON_dedup
    (name : jsstring) (data : json) (types : list jsstring) (w w1 : world) :
  run_lib (jsonToTS data name) w = (Returns types, w1) ->
  exists kept,
    generateTypeFromJSON name data w = (Returns (join nl kept), w1)
    /\ NoDup (map clean_hash kept)
    /\ incl kept types
    /\ (forall t, In t types ->
          exists k, In k kept /\ clean_hash k = clean_hash t)
    /\ (NoDup (map clean_hash types) -> kept = types).
Proof.
  intros Hlib. exists (JsMap.values (uniqueTypes_of types)). split.
  - unfold generateTypeFromJSON, bind. rewrite Hlib. reflexivity.
  - destruct (uniqueTypes_fold types JsMap.empty (Forall_nil _) (NoDup_nil _))
      as (HJ & Hnd & (extra & He & Hi) & Hcov).
    change (fold_left _ types JsMap.empty) with (uniqueTypes_of types) in *.
    repeat split.
    + replace (map clean_hash (JsMap.values (uniqueTypes_of types)))
        with (JsMap.keys (uniqueTypes_of types)); [exact Hnd|].
      unfold JsMap.keys, JsMap.values. rewrite map_map.
      apply map_ext_in. intros kv Hkv. rewrite Forall_forall in HJ.
      exact (HJ _ Hkv).
    + rewrite He. exact Hi.
    + exact Hcov.
    + intros Hdistinct. unfold uniqueTypes_of.
      change (fold_left _ types JsMap.empty)
        with (fold_left
                (fun (uniqueTypes : JsMap.t jsstring) type =>
                   if JsMap.has uniqueTypes (clean_hash type) then uniqueTypes
                   else JsMap.set uniqueTypes (clean_hash type) type)
                types JsMap.empty).
      rewrite (uniqueTypes_distinct types JsMap.empty Hdistinct);
        [| intros t _ [] | constructor].
      unfold JsMap.values. cbn [app JsMap.empty]. rewrite map_map.
      cbn [snd]. apply map_id.
Qed.

End JsonFacts.

Lemma generateTypeFromJSON_dedup_witness :
  exists kept w1,
    @generateTypeFromJSON reference_host (lit "UsersResponse")
      (JObject [(lit "id", JNumber (lit "1"))]) Samples.fresh_world
    = (Returns (join nl kept), w1)
    /\ NoDup (map clean_hash kept).
Proof.
  destruct (@run_lib (list jsstring)
              (@jsonToTS reference_host
                 (JObject [(lit "id", JNumber (lit "1"))])
                 (lit "UsersResponse")) Samples.fresh_world)
    as [[types| |] w1] eqn:E;
    [| vm_compute in E; discriminate | vm_compute in E; discriminate].
  destruct (@generateTypeFromJSON_dedup reference_host (lit "UsersResponse")
              (JObject [(lit "id", JNumber (lit "1"))]) types
              Samples.fresh_world w1 E)
    as (kept & Eg & Hnd & _).
  now exists kept, w1.
Defined.

(* ================================================================== *)
(** ** With merging, no two registered types share a fingerprint *)
(* ================================================================== *)

Lemma NoDup_map_values_set {V B} (f : V -> B) (m : JsMap.t V)
    (k : jsstring) (v : V) :
  NoDup (map f (JsMap.values m)) ->
  ~ In (f v) (map f (JsMap.values m)) ->
  NoDup (map f (JsMap.values (JsMap.set m k v))).
Proof.
  induction m as [|[k' v'] m IH].
  - intros _ _. cbn. constructor; [intros [] | constructor].
  - change (JsMap.values ((k', v') :: m)) with (v' :: JsMap.values m).
    cbn [JsMap.set map].
    intros Hnd Hnew. inversion Hnd as [|x xs Hx Hxs]; subst.
    destruct (Js.eqb k' k).
    + change (JsMap.values ((k', v) :: m)) with (v :: JsMap.values m).
      cbn [map]. constructor; [|exact Hxs].
      intros Hin. apply Hnew. now right.
    + change (JsMap.values ((k', v') :: JsMap.set m k v))
        with (v' :: JsMap.values (JsMap.set m k v)).
      cbn [map]. constructor.
      * intros Hin. apply in_map_iff in Hin as (y & Hy & Hin).
        apply In_values_set_inv in Hin as [-> | Hin].
        -- apply Hnew. left. now symmetry.
        -- apply Hx. rewrite <- Hy. now apply in_map.
      * apply IH; [exact Hxs|]. intros Hin. apply Hnew. now right.
Qed.

Lemma register_merging_distinct (typeName definition : jsstring)
    (l l' : listing) (finalName : jsstring) (emitted : bool) :
  fingerprints_distinct l ->
  register true typeName definition l = (finalName, emitted, l') ->
  fingerprints_distinct l'.
Proof.
  unfold register, fingerprints_distinct.
  destruct (find _ (JsMap.values (typeRegistry l))) as [t|] eqn:F.
  - now intros Hd [= <- <- <-].
  - intros Hd [= <- <- <-]. cbn [typeRegistry].
    apply NoDup_map_values_set; [exact Hd|]. cbn [hash].
    intros Hin. apply in_map_iff in Hin as (t & Ht & Hin).
    pose proof (find_none _ _ F t Hin) as Hno. cbn beta in Hno.
    rewrite Ht, eqb_refl in Hno. discriminate.
Qed.

Section MergingFacts.
Context `{Host}.
Variable options : GeneratorOptions.
Hypothesis merging : mergeTypes options = true.

Lemma request_body_step_distinct (requestTypeName : jsstring)
    (l l' : listing) (b b' : jsstring) (entry : HarEntry) (w w' : world) :
  fingerprints_distinct l ->
  request_body_step options requestTypeName (l, b) entry w
  = (Returns (l', b'), w') ->
  fingerprints_distinct l'.
Proof.
  intros Hd. unfold request_body_step.
  destruct (truthy_text (postData (request entry))).
  - intros E. apply bind_Returns in E as (definition & w1 & _ & E).
    destruct (register _ _ _ _) as [[finalName emitted] l1] eqn:R.
    apply ret_Returns in E as [[= <- <-] _]. rewrite merging in R.
    eapply register_merging_distinct; eauto.
  - intros E. now apply ret_Returns in E as [[= <- <-] _].
Qed.

Lemma response_step_distinct (responseTypeName groupUrl : jsstring)
    (l l' : listing) (b b' : jsstring) (entry : HarEntry) (w w' : world) :
  fingerprints_distinct l ->
  response_step options responseTypeName groupUrl (l, b) entry w
  = (Returns (l', b'), w') ->
  fingerprints_distinct l'.
Proof.
  intros Hd. unfold response_step.
  destruct (truthy_text (content (response entry))).
  - unfold try_catch.
    match goal with |- context [bind ?c ?k w] =>
      destruct (bind c k w) as [[[l1 b1]|e|] w1] eqn:E end.
    + intros [= <- <- <-].
      apply bind_Returns in E as (definition & w2 & _ & E).
      destruct (register _ _ _ _) as [[finalName emitted] l2] eqn:R.
      apply ret_Returns in E as [[= <- <-] _]. rewrite merging in R.
      eapply register_merging_distinct; eauto.
    + intros E'. apply bind_Returns in E' as (? & w2 & _ & E').
      now apply ret_Returns in E' as [[= <- <-] _].
    + discriminate.
  - intros E. now apply ret_Returns in E as [[= <- <-] _].
Qed.

Lemma process_group_distinct (l l' : listing) (groupEntries : list HarEntry)
    (w w' : world) :
  fingerprints_distinct l ->
  process_group options l groupEntries w = (Returns l', w') ->
  fingerprints_distinct l'.
Proof.
  intros Hd E. destruct groupEntries as [|firstEntry rest]; [discriminate|].
  unfold process_group in E.
  apply bind_Returns in E as (u & w1 & _ & E).
  apply bind_Returns in E as (allQueryParams & w2 & _ & E).
  apply bind_Returns in E as ([l2 paramsType] & w3 & Hp & E).
  apply bind_Returns in E as ([l3 bodyType] & w4 & Hb & E).
  apply bind_Returns in E as ([l4 responseType] & w5 & Hr & E).
  apply ret_Returns in E as [<- _]. unfold fingerprints_distinct.
  cbn [typeRegistry].
  assert (H2 : fingerprints_distinct l2).
  { destruct (JsMap.size allQueryParams).
    - now apply ret_Returns in Hp as [[= <- <-] _].
    - apply bind_Returns in Hp as (paramInterface & w6 & _ & Hp).
      now apply ret_Returns in Hp as [[= <- <-] _]. }
  assert (H3 : fingerprints_distinct l3).
  { revert Hb. unfold request_body_loop.
    apply (for_of_invariant
             (fun acc => fingerprints_distinct (fst acc)) (fun _ => True));
      [ | apply Forall_forall; auto | exact H2].
    intros [la ba] x wa [lb bb] wb _ Ha Hs.
    eapply request_body_step_distinct; eauto. }
  revert Hr. unfold response_loop.
  apply (for_of_invariant
           (fun acc => fingerprints_distinct (fst acc)) (fun _ => True));
    [ | apply Forall_forall; auto | exact H3].
  intros [la ba] x wa [lb bb] wb _ Ha Hs.
  eapply response_step_distinct; eauto.
Qed.

(** With merging enabled the type registry never holds two entries with
    the same fingerprint, whatever the groups and the names. *)
Theorem merging_keeps_fingerprints_distinct
    (groups : list (list HarEntry)) (l l' : listing) (w w' : world) :
  fingerprints_distinct l ->
  for_of groups (process_group options) l w = (Returns l', w') ->
  fingerprints_distinct l'.
Proof.
  intros Hd.
  apply (for_of_invariant fingerprints_distinct (fun _ => True));
    [ | apply Forall_forall; auto | exact Hd].
  intros la g wa lb wb _ Ha Hs. eapply process_group_distinct; eauto.
Qed.

End MergingFacts.

Lemma merging_keeps_fingerprints_distinct_witness :
  exists l' w',
    for_of [[Samples.post_ Samples.users (lit "id=1") Samples.form;
             Samples.post_ Samples.users (lit "id=2") Samples.form]]
      (@process_group reference_host default_options)
      Samples.fresh_listing Samples.fresh_world = (Returns l', w')
    /\ fingerprints_distinct l'.
Proof.
  destruct (for_of [[Samples.post_ Samples.users (lit "id=1") Samples.form;
                     Samples.post_ Samples.users (lit "id=2") Samples.form]]
              (@process_group reference_host default_options)
              Samples.fresh_listing Samples.fresh_world)
    as [[l'| |] w'] eqn:E;
    [| vm_compute in E; discriminate | vm_compute in E; discriminate].
  exists l', w'. split; [reflexivity|].
  apply (@merging_keeps_fingerprints_distinct reference_host default_options
           eq_refl
           [[Samples.post_ Samples.users (lit "id=1") Samples.form;
             Samples.post_ Samples.users (lit "id=2") Samples.form]]
           Samples.fresh_listing l' Samples.fresh_world w');
    [constructor | exact E].
Defined.

(* ================================================================== *)
(** ** What the grouping loop computes *)
(* ================================================================== *)

Lemma includes_keys_has {V} (m : JsMap.t V) (k : jsstring) :
  includes (JsMap.keys m) k = JsMap.has m k.
Proof.
  unfold includes, JsMap.has, JsMap.keys.
  induction m as [|[k' v'] m IH]; cbn [map existsb JsMap.get fst];
    [reflexivity|].
  rewrite (eqb_sym k k'). destruct (Js.eqb k' k); [reflexivity|].
  exact IH.
Qed.

Lemma keys_set {V} (m : JsMap.t V) (k : jsstring) (v : V) :
  JsMap.keys (JsMap.set m k v)
  = if JsMap.has m k then JsMap.keys m else JsMap.keys m ++ [k].
Proof.
  unfold JsMap.has, JsMap.keys.
  induction m as [|[k' v'] m IH]; cbn [JsMap.set JsMap.get map app fst];
    [reflexivity|].
  destruct (Js.eqb k' k); cbn [map fst]; [reflexivity|].
  rewrite IH. now destruct (JsMap.get m k).
Qed.

Lemma get_set {V} (m : JsMap.t V) (k k' : jsstring) (v : V) :
  JsMap.get (JsMap.set m k v) k'
  = if Js.eqb k k' then Some v else JsMap.get m k'.
Proof.
  destruct (Js.eqb k k') eqn:E.
  - apply eqb_eq in E. subst k'. apply get_set_same.
  - apply get_set_other. intros ->. rewrite eqb_refl in E. discriminate.
Qed.

Lemma first_occurrences_fresh (keys seen : list jsstring) :
  NoDup (first_occurrences seen keys)
  /\ forall k, In k (first_occurrences seen keys) -> ~ In k seen.
Proof.
  revert seen. induction keys as [|k keys IH]; intros seen;
    cbn [first_occurrences].
  - split; [constructor | intros k []].
  - destruct (includes seen k) eqn:E; [apply IH|].
    apply includes_false in E.
    destruct (IH (seen ++ [k])) as [Hnd Hfresh]. split.
    + constructor; [|exact Hnd]. intros Hin. apply (Hfresh k Hin).
      apply in_or_app. right. now left.
    + intros k' [<- | Hin]; [exact E|]. intros Hs.
      apply (Hfresh k' Hin). apply in_or_app. now left.
Qed.

Section GroupingFacts.
Context `{Host}.

Lemma group_entry_keyed (endpointGroups : JsMap.t (list HarEntry))
    (entry : HarEntry) (key : jsstring) (w : world) :
  group_key entry = Some key ->
  group_entry endpointGroups entry w
  = (Returns
       (JsMap.set endpointGroups key
          (match JsMap.get endpointGroups key with
           | Some groupEntries => groupEntries
           | None => []
           end ++ [entry])), w).
Proof.
  unfold group_key, group_entry, bind, lift.
  destruct (URL_new (url (request entry))) as [u|e]; [|discriminate].
  intros K.
  assert (K' : key = method (request entry) ++ lit "_" ++ getResourceName u)
    by congruence.
  rewrite K'. clear K K'. change (ret u w) with (Returns u, w).
  cbv beta iota zeta. unfold JsMap.has.
  destruct (JsMap.get endpointGroups
              (method (request entry) ++ lit "_" ++ getResourceName u))
    as [groupEntries|] eqn:G.
  - now rewrite G.
  - now rewrite get_set_same, set_set.
Qed.

Lemma group_entry_unkeyed (endpointGroups : JsMap.t (list HarEntry))
    (entry : HarEntry) (w : world) :
  group_key entry = None ->
  exists e,
    URL_new (url (request entry)) = Abrupt e
    /\ group_entry endpointGroups entry w = (Throws e, w).
Proof.
  unfold group_key, group_entry, bind, lift.
  destruct (URL_new (url (request entry))) as [u|e]; [discriminate|].
  intros _. now exists e.
Qed.

Lemma group_loop_spec (entries : list HarEntry) :
  forall (G0 G : JsMap.t (list HarEntry)) (w w' : world),
    for_of entries group_entry G0 w = (Returns G, w') ->
    w' = w
    /\ JsMap.keys G
       = JsMap.keys G0
         ++ first_occurrences (JsMap.keys G0) (entry_keys entries)
    /\ forall k,
         JsMap.get G k
         = match JsMap.get G0 k, filter (in_group k) entries with
           | Some g, members => Some (g ++ members)
           | None, [] => None
           | None, members => Some members
           end.
Proof.
  induction entries as [|entry entries IH]; intros G0 G w w' E.
  - apply ret_Returns in E as [<- <-]. cbn [entry_keys flat_map
      first_occurrences filter]. rewrite app_nil_r.
    repeat split. intros k. destruct (JsMap.get G0 k) as [g|];
      [now rewrite app_nil_r | reflexivity].
  - cbn [for_of] in E. apply bind_Returns in E as (G1 & w1 & E1 & E).
    destruct (group_key entry) as [key|] eqn:K.
    2: { destruct (group_entry_unkeyed G0 entry w K) as (e & _ & Ee).
         rewrite Ee in E1. discriminate. }
    rewrite (group_entry_keyed G0 entry key w K) in E1.
    injection E1 as <- <-.
    destruct (IH _ _ _ _ E) as (-> & Hkeys & Hget).
    split; [reflexivity|]. split.
    + rewrite Hkeys, keys_set.
      change (entry_keys (entry :: entries))
        with (match group_key entry with
              | Some k => [k]
              | None => []
              end ++ entry_keys entries).
      rewrite K. cbn [app first_occurrences].
      rewrite includes_keys_has.
      destruct (JsMap.has G0 key); [reflexivity|].
      now rewrite <- app_assoc.
    + intros k. rewrite Hget, get_set.
      change (filter (in_group k) (entry :: entries))
        with (if in_group k entry
              then entry :: filter (in_group k) entries
              else filter (in_group k) entries).
      replace (in_group k entry) with (Js.eqb key k)
        by (unfold in_group; now rewrite K).
      destruct (Js.eqb key k) eqn:Ek.
      * apply eqb_eq in Ek. subst k.
        destruct (JsMap.get G0 key) as [g|].
        -- now rewrite <- app_assoc.
        -- reflexivity.
      * reflexivity.
Qed.

(** The grouping loop is a stable partition of the http entries by
    [method_resource]: the keys of the map are the keys of the entries
    in order of first appearance, each once, and the group of a key holds
    exactly the http entries with that key, in capture order. *)
Theorem group_entries_stable_partition (entries : list HarEntry)
    (endpointGroups : JsMap.t (list HarEntry)) (w w' : world) :
  group_entries entries w = (Returns endpointGroups, w') ->
  w' = w
  /\ JsMap.keys endpointGroups
     = first_occurrences [] (entry_keys (http_entries entries))
  /\ NoDup (JsMap.keys endpointGroups)
  /\ forall k,
       JsMap.get endpointGroups k
       = match filter (in_group k) (http_entries entries) with
         | [] => None
         | members => Some members
         end.
Proof.
  intros E. unfold group_entries in E.
  destruct (group_loop_spec _ _ _ _ _ E) as (Hw & Hkeys & Hget).
  cbn [JsMap.keys JsMap.empty map app] in Hkeys.
  split; [exact Hw|]. split; [exact Hkeys|]. split.
  - rewrite Hkeys. apply first_occurrences_fresh.
  - intros k. now rewrite Hget.
Qed.

Lemma group_loop_total (entries : list HarEntry) :
  Forall (fun e => group_key e <> None) entries ->
  forall (G0 : JsMap.t (list HarEntry)) (w : world),
    exists G, for_of entries group_entry G0 w = (Returns G, w).
Proof.
  induction 1 as [|entry entries Hk _ IH]; intros G0 w.
  - now exists G0.
  - destruct (group_key entry) as [key|] eqn:K; [|congruence].
    cbn [for_of]. unfold bind.
    rewrite (group_entry_keyed G0 entry key w K). apply IH.
Qed.

Variable options : GeneratorOptions.

(** A run stops at the first http entry whose URL the platform rejects:
    it throws that very error, after one line on the error console, and
    leaves the property registry empty. Entries after it are not looked
    at, and nothing is generated. *)
Theorem generateFromHar_rejected_url
    (entries good rest : list HarEntry) (bad : HarEntry) (e : exn)
    (w : world) :
  http_entries entries = good ++ bad :: rest ->
  Forall (fun entry => group_key entry <> None) good ->
  URL_new (url (request bad)) = Abrupt e ->
  generateFromHar options entries w
  = (Throws e, mkWorld JsMap.empty (console w ++ [ErrorLine e])).
Proof.
  intros Hsplit Hgood Hbad.
  unfold generateFromHar, try_catch, seq, bind at 1.
  unfold clear_propertyRegistry at 1.
  unfold bind at 1, group_entries. rewrite Hsplit, for_of_app.
  unfold bind at 1.
  destruct (group_loop_total good Hgood JsMap.empty
              (mkWorld JsMap.empty (console w))) as [G EG].
  rewrite EG. cbn [for_of]. unfold bind at 1.
  destruct (group_entry_unkeyed G bad (mkWorld JsMap.empty (console w)))
    as (e' & He' & Ee).
  { unfold group_key. now rewrite Hbad. }
  rewrite Hbad in He'. injection He' as <-. rewrite Ee.
  reflexivity.
Qed.

End GroupingFacts.

Lemma group_entries_stable_partition_witness :
  exists endpointGroups,
    @group_entries reference_host Samples.two_methods Samples.fresh_world
    = (Returns endpointGroups, Samples.fresh_world)
    /\ JsMap.keys endpointGroups = [lit "GET_users"; lit "POST_users"]
    /\ NoDup (JsMap.keys endpointGroups).
Proof.
  destruct (@group_entries reference_host Samples.two_methods
              Samples.fresh_world) as [[G| |] wG] eqn:EG;
    [| vm_compute in EG; discriminate | vm_compute in EG; discriminate].
  destruct (@group_entries_stable_partition reference_host
              Samples.two_methods G Samples.fresh_world wG EG)
    as (-> & Hkeys & Hnd & _).
  exists G. split; [reflexivity|]. split; [|exact Hnd].
  rewrite Hkeys. vm_compute. reflexivity.
Defined.

Lemma generateFromHar_rejected_url_witness :
  @generateFromHar reference_host default_options
    [Samples.get_ Samples.users;
     Samples.get_ (lit "httpdocs/index.html");
     Samples.get_ (lit "https://api.example.com/orders")]
    Samples.fresh_world
  = (Throws (TypeError (lit "Invalid URL")),
     mkWorld JsMap.empty [ErrorLine (TypeError (lit "Invalid URL"))]).
Proof.
  apply (@generateFromHar_rejected_url reference_host default_options
           [Samples.get_ Samples.users;
            Samples.get_ (lit "httpdocs/index.html");
            Samples.get_ (lit "https://api.example.com/orders")]
           [Samples.get_ Samples.users]
           [Samples.get_ (lit "https://api.example.com/orders")]
           (Samples.get_ (lit "httpdocs/index.html"))
           (TypeError (lit "Invalid URL")) Samples.fresh_world).
  - reflexivity.
  - constructor; [vm_compute; discriminate | constructor].
  - reflexivity.
Defined.

(* ================================================================== *)
(** ** What the two loops over a group preserve *)
(* ================================================================== *)

Section RegisterInvariant.
Context `{Host}.
Variable options : GeneratorOptions.
Variable I : listing -> Prop.
Variable P : jsstring -> Prop.
Hypothesis I_register :
  forall stem definition l finalName emitted l',
    P stem -> I l ->
    register (mergeTypes options)
      (stem ++ size_suffix (JsMap.size (typeRegistry l))) definition l
    = (finalName, emitted, l') ->
    I l'.

Lemma request_body_loop_preserves (requestTypeName : jsstring)
    (groupEntries : list HarEntry) (l l' : listing) (b : jsstring)
    (w w' : world) :
  P requestTypeName -> I l ->
  request_body_loop options requestTypeName groupEntries l w
  = (Returns (l', b), w') ->
  I l'.
Proof.
  intros HP Hl. unfold request_body_loop.
  apply (for_of_invariant (fun acc => I (fst acc)) (fun _ => True));
    [ | apply Forall_forall; auto | exact Hl].
  intros [la ba] entry wa [lb bb] wb _ Ha. cbn [fst] in *.
  unfold request_body_step.
  destruct (truthy_text (postData (request entry))).
  - intros E. apply bind_Returns in E as (definition & w1 & _ & E).
    destruct (register _ _ _ _) as [[finalName emitted] l1] eqn:R.
    apply ret_Returns in E as [[= <- <-] _].
    eapply I_register; eauto.
  - intros E. now apply ret_Returns in E as [[= <- <-] _].
Qed.

Lemma response_loop_preserves (responseTypeName groupUrl : jsstring)
    (groupEntries : list HarEntry) (l l' : listing) (b : jsstring)
    (w w' : world) :
  P responseTypeName -> I l ->
  response_loop options responseTypeName groupUrl groupEntries l w
  = (Returns (l', b), w') ->
  I l'.
Proof.
  intros HP Hl. unfold response_loop.
  apply (for_of_invariant (fun acc => I (fst acc)) (fun _ => True));
    [ | apply Forall_forall; auto | exact Hl].
  intros [la ba] entry wa [lb bb] wb _ Ha. cbn [fst] in *.
  unfold response_step.
  destruct (truthy_text (content (response entry))).
  - unfold try_catch.
    match goal with |- context [bind ?c ?k wa] =>
      destruct (bind c k wa) as [[[l1 b1]|e|] w1] eqn:E end.
    + intros [= <- <- <-].
      apply bind_Returns in E as (definition & w2 & _ & E).
      destruct (register _ _ _ _) as [[finalName emitted] l2] eqn:R.
      apply ret_Returns in E as [[= <- <-] _].
      eapply I_register; eauto.
    + intros E'. apply bind_Returns in E' as (? & w2 & _ & E').
      now apply ret_Returns in E' as [[= <- <-] _].
    + discriminate.
  - intros E. now apply ret_Returns in E as [[= <- <-] _].
Qed.

End RegisterInvariant.

(* ================================================================== *)
(** ** One function per group *)
(* ================================================================== *)

Lemma skeleton_app (a b : list chunk) :
  skeleton (a ++ b) = skeleton a ++ skeleton b.
Proof. apply filter_app. Qed.

Lemma register_skeleton (mergeTypes : bool) (typeName definition : jsstring)
    (l l' : listing) (finalName : jsstring) (emitted : bool) :
  register mergeTypes typeName definition l = (finalName, emitted, l') ->
  skeleton (output l') = skeleton (output l).
Proof.
  unfold register. destruct (find _ _); [destruct mergeTypes|];
    intros [= <- <- <-]; cbn [output]; rewrite ?skeleton_app;
    cbn; now rewrite ?app_nil_r.
Qed.

Section SkeletonFacts.
Context `{Host}.
Variable options : GeneratorOptions.

Lemma process_group_skeleton (l l' : listing) (groupEntries : list HarEntry)
    (w w' : world) :
  process_group options l groupEntries w = (Returns l', w') ->
  exists firstEntry rest b,
    groupEntries = firstEntry :: rest
    /\ b_request b = request firstEntry
    /\ URL_new (url (request firstEntry)) = Normal (b_url b)
    /\ skeleton (output l') = skeleton (output l) ++ [Function_ b].
Proof.
  intros E. destruct groupEntries as [|firstEntry rest]; [discriminate|].
  unfold process_group in E.
  apply bind_Returns in E as (u & w1 & Hu & E).
  apply lift_Returns in Hu as [Hu ->].
  apply bind_Returns in E as (allQueryParams & w2 & _ & E).
  apply bind_Returns in E as ([l2 paramsType] & w3 & Hp & E).
  apply bind_Returns in E as ([l3 bodyType] & w4 & Hb & E).
  apply bind_Returns in E as ([l4 responseType] & w5 & Hr & E).
  apply ret_Returns in E as [<- _].
  exists firstEntry, rest,
    (mkBinding (request firstEntry) u paramsType bodyType responseType).
  split; [reflexivity|].
  split; [reflexivity|]. split; [exact Hu|]. cbn [output].
  rewrite skeleton_app. f_equal.
  assert (H2 : skeleton (output l2) = skeleton (output l)).
  { destruct (JsMap.size allQueryParams).
    - now apply ret_Returns in Hp as [[= <- <-] _].
    - apply bind_Returns in Hp as (paramInterface & w6 & _ & Hp).
      apply ret_Returns in Hp as [[= <- <-] _]. cbn [output].
      rewrite skeleton_app. cbn. now rewrite app_nil_r. }
  assert (H3 : skeleton (output l3) = skeleton (output l)).
  { revert Hb.
    apply (request_body_loop_preserves options
             (fun l0 => skeleton (output l0) = skeleton (output l))
             (fun _ => True)); [ | exact I | exact H2].
    intros stem definition la finalName emitted lb _ Ha R.
    rewrite <- Ha. eapply register_skeleton, R. }
  revert Hr.
  apply (response_loop_preserves options
           (fun l0 => skeleton (output l0) = skeleton (output l))
           (fun _ => True)); [ | exact I | exact H3].
  intros stem definition la finalName emitted lb _ Ha R.
  rewrite <- Ha. eapply register_skeleton, R.
Qed.

Lemma groups_skeleton (groups : list (list HarEntry)) :
  forall (l l' : listing) (w w' : world),
    for_of groups (process_group options) l w = (Returns l', w') ->
    exists bindings,
      skeleton (output l') = skeleton (output l) ++ map Function_ bindings
      /\ Forall2 (fun b g =>
                    exists firstEntry rest,
                      g = firstEntry :: rest
                      /\ b_request b = request firstEntry
                      /\ URL_new (url (request firstEntry))
                         = Normal (b_url b))
           bindings groups.
Proof.
  induction groups as [|g groups IH]; intros l l' w w' E.
  - apply ret_Returns in E as [<- _]. exists []. cbn [map].
    rewrite app_nil_r. split; [reflexivity | constructor].
  - cbn [for_of] in E. apply bind_Returns in E as (l1 & w1 & E1 & E).
    apply process_group_skeleton in E1
      as (firstEntry & rest & b & -> & Hreq & Hurl & Hs).
    destruct (IH _ _ _ _ E) as (bindings & Hs' & Hall).
    exists (b :: bindings). split.
    + rewrite Hs', Hs, <- app_assoc. reflexivity.
    + constructor; [|exact Hall]. now exists firstEntry, rest.
Qed.

(** A run that gets past the grouping loop returns a listing that
    starts with the preamble and, declarations apart, holds exactly one
    function per group, in the order of the groups, each made from the
    request of the first entry of its group. *)
Theorem generateFromHar_one_function_per_group (entries : list HarEntry)
    (w wG : world) (endpointGroups : JsMap.t (list HarEntry)) :
  group_entries entries (mkWorld JsMap.empty (console w))
  = (Returns endpointGroups, wG) ->
  exists out w' tail bindings,
    generateFromHar options entries w = (Returns out, w')
    /\ out = Preamble :: tail
    /\ skeleton out = Preamble :: map Function_ bindings
    /\ Forall2 (fun b g =>
                  exists firstEntry rest,
                    g = firstEntry :: rest
                    /\ b_request b = request firstEntry
                    /\ URL_new (url (request firstEntry)) = Normal (b_url b))
         bindings (JsMap.values endpointGroups)
    /\ count_functions out = JsMap.size endpointGroups.
Proof.
  intros EG.
  destruct (generateFromHar_after_grouping options entries w wG
              endpointGroups EG) as (l & w' & El & Erun).
  destruct (groups_extend options _ _ _ _ _ El) as [tail Htail].
  destruct (groups_skeleton _ _ _ _ _ El) as (bindings & Hs & Hall).
  cbn [output app] in Htail, Hs.
  exists (output l), w', tail, bindings.
  split; [exact Erun|]. split; [exact Htail|]. split; [exact Hs|].
  split; [exact Hall|].
  assert (Hcount : count_functions (output l)
                   = List.length (filter is_function (skeleton (output l)))).
  { unfold count_functions, skeleton.
    generalize (output l) as out.
    induction out as [|[|d|b] out IHo]; cbn; congruence. }
  rewrite Hcount, Hs.
  change (filter is_function (skeleton [Preamble] ++ map Function_ bindings))
    with (filter is_function (map Function_ bindings)).
  assert (Hf : forall bs, filter is_function (map Function_ bs)
                          = map Function_ bs).
  { induction bs as [|b bs IHb]; cbn; congruence. }
  rewrite Hf, length_map.
  rewrite (Forall2_length Hall). unfold JsMap.size, JsMap.values.
  now rewrite length_map.
Qed.

End SkeletonFacts.

Lemma generateFromHar_one_function_per_group_witness :
  exists out w',
    @generateFromHar reference_host default_options Samples.two_methods
      Samples.fresh_world = (Returns out, w')
    /\ count_functions out = 2%nat.
Proof.
  destruct (@group_entries reference_host Samples.two_methods
              (mkWorld JsMap.empty (console Samples.fresh_world)))
    as [[G| |] wG] eqn:EG;
    [| vm_compute in EG; discriminate | vm_compute in EG; discriminate].
  destruct (@generateFromHar_one_function_per_group reference_host
              default_options Samples.two_methods Samples.fresh_world wG G EG)
    as (out & w' & tail & bindings & E & _ & _ & _ & Hcount).
  exists out, w'. split; [exact E|]. rewrite Hcount.
  vm_compute in EG. injection EG as <- _. reflexivity.
Defined.

(* ================================================================== *)
(** ** The registry is append-only *)
(* ================================================================== *)

Lemma of_N_nonempty (n : N) : of_N n <> [].
Proof.
  unfold of_N. intros E.
  assert (Hnil : N.to_uint n = Decimal.Nil).
  { destruct (N.to_uint n); try reflexivity; discriminate. }
  destruct n as [|p]; [discriminate|].
  exact (DecimalPos.Unsigned.to_uint_nonnil p Hnil).
Qed.

Lemma size_suffix_inj (i j : nat) : size_suffix i = size_suffix j -> i = j.
Proof.
  destruct i as [|i], j as [|j]; cbn [size_suffix]; intros E.
  - reflexivity.
  - symmetry in E. now apply of_N_nonempty in E.
  - now apply of_N_nonempty in E.
  - apply of_N_inj in E. now apply Nat2N.inj.
Qed.

Lemma size_suffix_digits (i : nat) : forallb is_digit (size_suffix i) = true.
Proof. destruct i; [reflexivity | apply of_N_digits]. Qed.

(** A key tells the position it was made for: the digits at its end. *)
Lemma indexed_key_position (stem stem' : jsstring) (i j : nat) :
  ends_in_non_digit stem -> ends_in_non_digit stem' ->
  stem ++ size_suffix i = stem' ++ size_suffix j -> i = j.
Proof.
  intros (s & c & -> & Hc) (s' & c' & -> & Hc') E.
  apply (f_equal (@rev Z)) in E. rewrite !rev_app_distr in E.
  cbn [rev app] in E.
  apply (f_equal (span is_digit)) in E.
  rewrite !span_exact in E;
    try (apply forallb_rev, size_suffix_digits); try assumption.
  injection E as E _. apply (f_equal (@rev Z)) in E.
  rewrite !rev_involutive in E. now apply size_suffix_inj.
Qed.

Lemma indexed_fresh (m : JsMap.t TypeEntry) (stem : jsstring) :
  registry_indexed m -> ends_in_non_digit stem ->
  JsMap.get m (stem ++ size_suffix (JsMap.size m)) = None.
Proof.
  intros Hm Hstem.
  destruct (JsMap.get m (stem ++ size_suffix (JsMap.size m))) as [t|] eqn:G;
    [|reflexivity].
  apply get_In_pair, In_nth_error in G as [i Hi].
  assert (Hlt : (i < List.length m)%nat)
    by (apply nth_error_Some; congruence).
  destruct (Hm i _ t Hi) as (stem' & Hstem' & Ek).
  apply indexed_key_position in Ek; [|assumption..].
  unfold JsMap.size in Ek. lia.
Qed.

Lemma indexed_snoc (m : JsMap.t TypeEntry) (stem : jsstring) (t : TypeEntry) :
  registry_indexed m -> ends_in_non_digit stem ->
  registry_indexed (m ++ [(stem ++ size_suffix (JsMap.size m), t)]).
Proof.
  intros Hm Hstem i k t' Hi.
  destruct (Nat.lt_ge_cases i (List.length m)) as [Hlt | Hge].
  - rewrite nth_error_app1 in Hi by exact Hlt. eapply Hm, Hi.
  - rewrite nth_error_app2 in Hi by exact Hge.
    destruct (i - List.length m)%nat as [|d] eqn:D.
    + cbn in Hi. injection Hi as <- _. exists stem. split; [exact Hstem|].
      unfold JsMap.size. do 2 f_equal. lia.
    + cbn in Hi. now destruct d.
Qed.

(** A candidate name made from the size of an indexed registry is new to
    it, so registering appends and nothing is replaced. *)
Lemma register_appends (mergeTypes : bool) (stem definition : jsstring)
    (l l' : listing) (finalName : jsstring) (emitted : bool) :
  registry_indexed (typeRegistry l) -> ends_in_non_digit stem ->
  register mergeTypes (stem ++ size_suffix (JsMap.size (typeRegistry l)))
    definition l = (finalName, emitted, l') ->
  registry_indexed (typeRegistry l')
  /\ typeRegistry l'
     = typeRegistry l
       ++ (if emitted
           then [(finalName,
                  mkTypeEntry finalName definition (hashType definition))]
           else []).
Proof.
  intros Hm Hstem. unfold register.
  destruct (find _ _); [destruct mergeTypes|];
    intros [= <- <- <-]; cbn [typeRegistry];
    rewrite ?app_nil_r, ?(set_fresh _ _ _ (indexed_fresh _ _ Hm Hstem));
    auto using indexed_snoc.
Qed.

Lemma request_stem_ends (prefix base : jsstring) :
  ends_in_non_digit (prefix ++ base ++ lit "Request").
Proof.
  exists (prefix ++ base ++ lit "Reques"), 116. split; [|reflexivity].
  now rewrite <- !app_assoc.
Qed.

Lemma response_stem_ends (prefix base : jsstring) :
  ends_in_non_digit (prefix ++ base ++ lit "Response").
Proof.
  exists (prefix ++ base ++ lit "Respons"), 101. split; [|reflexivity].
  now rewrite <- !app_assoc.
Qed.

Section AppendOnly.
Context `{Host}.
Variable options : GeneratorOptions.

Lemma process_group_appends (l l' : listing) (groupEntries : list HarEntry)
    (w w' : world) :
  registry_indexed (typeRegistry l) ->
  process_group options l groupEntries w = (Returns l', w') ->
  registry_indexed (typeRegistry l')
  /\ exists added, typeRegistry l' = typeRegistry l ++ added.
Proof.
  intros Hm E. destruct groupEntries as [|firstEntry rest]; [discriminate|].
  unfold process_group in E.
  apply bind_Returns in E as (u & w1 & _ & E).
  apply bind_Returns in E as (allQueryParams & w2 & _ & E).
  apply bind_Returns in E as ([l2 paramsType] & w3 & Hp & E).
  apply bind_Returns in E as ([l3 bodyType] & w4 & Hb & E).
  apply bind_Returns in E as ([l4 responseType] & w5 & Hr & E).
  apply ret_Returns in E as [<- _]. cbn [typeRegistry].
  set (I := fun l0 : listing =>
              registry_indexed (typeRegistry l0)
              /\ exists added, typeRegistry l0 = typeRegistry l ++ added).
  assert (Hreg : forall stem definition la finalName emitted lb,
             ends_in_non_digit stem -> I la ->
             register (mergeTypes options)
               (stem ++ size_suffix (JsMap.size (typeRegistry la)))
               definition la = (finalName, emitted, lb) ->
             I lb).
  { intros stem definition la finalName emitted lb Hstem [Ha [added Hadd]] R.
    destruct (register_appends _ _ _ _ _ _ _ Ha Hstem R) as [Hb' Eb].
    split; [exact Hb'|]. eexists. rewrite Eb, Hadd, <- app_assoc.
    reflexivity. }
  assert (H2 : I l2).
  { assert (E2 : typeRegistry l2 = typeRegistry l).
    { destruct (JsMap.size allQueryParams).
      - now apply ret_Returns in Hp as [[= <- <-] _].
      - apply bind_Returns in Hp as (paramInterface & w6 & _ & Hp).
        now apply ret_Returns in Hp as [[= <- <-] _]. }
    split; [now rewrite E2|]. exists []. now rewrite app_nil_r. }
  assert (H3 : I l3).
  { revert Hb.
    apply (request_body_loop_preserves options I ends_in_non_digit Hreg);
      [apply request_stem_ends | exact H2]. }
  revert Hr.
  apply (response_loop_preserves options I ends_in_non_digit Hreg);
    [apply response_stem_ends | exact H3].
Qed.

(** No registered type is ever replaced. The candidate names end with
    the size of the registry, after [Request] or [Response], so each one
    is new to the registry: across all groups the registry only grows at
    its end, whatever the type prefix, the resources and the merge
    option. *)
Theorem registry_append_only (groups : list (list HarEntry))
    (l l' : listing) (w w' : world) :
  registry_indexed (typeRegistry l) ->
  for_of groups (process_group options) l w = (Returns l', w') ->
  registry_indexed (typeRegistry l')
  /\ exists added, typeRegistry l' = typeRegistry l ++ added.
Proof.
  intros Hm E.
  apply (for_of_invariant
           (fun l0 : listing =>
              registry_indexed (typeRegistry l0)
              /\ exists added, typeRegistry l0 = typeRegistry l ++ added)
           (fun _ => True) _ groups) in E;
    [exact E | | apply Forall_forall; auto | ].
  - intros la g wa lb wb _ [Ha [added Hadd]] Hs.
    destruct (process_group_appends _ _ _ _ _ Ha Hs) as [Hb [added' Hadd']].
    split; [exact Hb|]. exists (added ++ added').
    now rewrite Hadd', Hadd, <- app_assoc.
  - split; [exact Hm|]. exists []. now rewrite app_nil_r.
Qed.

End AppendOnly.

Lemma registry_append_only_witness :
  exists l' w' added,
    for_of [[Samples.post_ Samples.users (lit "id=1") Samples.form;
             Samples.post_ Samples.users (lit "name=bob") Samples.form]]
      (@process_group reference_host default_options)
      Samples.fresh_listing Samples.fresh_world = (Returns l', w')
    /\ typeRegistry l' = typeRegistry Samples.fresh_listing ++ added.
Proof.
  destruct (for_of [[Samples.post_ Samples.users (lit "id=1") Samples.form;
                     Samples.post_ Samples.users (lit "name=bob")
                       Samples.form]]
              (@process_group reference_host default_options)
              Samples.fresh_listing Samples.fresh_world)
    as [[l'| |] w'] eqn:E;
    [| vm_compute in E; discriminate | vm_compute in E; discriminate].
  destruct (@registry_append_only reference_host default_options
              [[Samples.post_ Samples.users (lit "id=1") Samples.form;
                Samples.post_ Samples.users (lit "name=bob") Samples.form]]
              Samples.fresh_listing l' Samples.fresh_world w')
    as [_ [added Hadd]].
  - intros i k t Hi. destruct i; discriminate.
  - exact E.
  - exists l', w', added. split; [reflexivity | exact Hadd].
Defined.

(* ================================================================== *)
(** ** Query parameters of a group *)
(* ================================================================== *)

Lemma first_occurrences_app (a b seen : list jsstring) :
  first_occurrences seen (a ++ b)
  = first_occurrences seen a
    ++ first_occurrences (seen ++ first_occurrences seen a) b.
Proof.
  revert seen. induction a as [|k a IH]; intros seen;
    cbn [app first_occurrences].
  - now rewrite app_nil_r.
  - destruct (includes seen k); [apply IH|].
    rewrite IH. cbn [app]. now rewrite <- app_assoc.
Qed.

Lemma record_query_params_keys (params : list (jsstring * jsstring)) :
  forall allQueryParams : JsMap.t (list jsstring),
    JsMap.keys
      (fold_left
         (fun (allQueryParams : JsMap.t (list jsstring)) '(key, value) =>
            let allQueryParams :=
              if JsMap.has allQueryParams key then allQueryParams
              else JsMap.set allQueryParams key [] in
            match JsMap.get allQueryParams key with
            | Some values =>
                JsMap.set allQueryParams key (set_add values value)
            | None => allQueryParams
            end)
         params allQueryParams)
    = JsMap.keys allQueryParams
      ++ first_occurrences (JsMap.keys allQueryParams) (map fst params).
Proof.
  induction params as [|[key value] params IH]; intros m;
    cbn [fold_left map fst first_occurrences].
  - now rewrite app_nil_r.
  - rewrite IH, includes_keys_has. cbv zeta. unfold JsMap.has.
    destruct (JsMap.get m key) as [values|] eqn:G.
    + rewrite G, keys_set. unfold JsMap.has. now rewrite G.
    + rewrite get_set_same, set_set, keys_set. unfold JsMap.has.
      rewrite G. now rewrite <- app_assoc.
Qed.

Section QueryFacts.
Context `{Host}.

Lemma collect_loop_keys (groupEntries : list HarEntry) :
  forall (m0 m : JsMap.t (list jsstring)) (w w' : world),
    for_of groupEntries
      (fun allQueryParams entry =>
         entryUrl <- lift (URL_new (url (request entry))) ;;
         ret (fold_left
                (fun (allQueryParams : JsMap.t (list jsstring))
                     '(key, value) =>
                   let allQueryParams :=
                     if JsMap.has allQueryParams key then allQueryParams
                     else JsMap.set allQueryParams key [] in
                   match JsMap.get allQueryParams key with
                   | Some values =>
                       JsMap.set allQueryParams key (set_add values value)
                   | None => allQueryParams
                   end)
                (searchParams entryUrl) allQueryParams))
      m0 w = (Returns m, w') ->
    w' = w
    /\ JsMap.keys m
       = JsMap.keys m0
         ++ first_occurrences (JsMap.keys m0) (query_keys groupEntries).
Proof.
  induction groupEntries as [|entry entries IH]; intros m0 m w w' E.
  - apply ret_Returns in E as [<- <-]. cbn. now rewrite app_nil_r.
  - cbn [for_of] in E. apply bind_Returns in E as (m1 & w1 & E1 & E).
    apply bind_Returns in E1 as (u & w2 & Hu & E1).
    apply lift_Returns in Hu as [Hu ->].
    apply ret_Returns in E1 as [<- <-].
    destruct (IH _ _ _ _ E) as [-> Hkeys]. split; [reflexivity|].
    rewrite Hkeys, record_query_params_keys.
    change (query_keys (entry :: entries))
      with (match URL_new (url (request entry)) with
            | Normal u => map fst (searchParams u)
            | Abrupt _ => []
            end ++ query_keys entries).
    rewrite Hu, first_occurrences_app. now rewrite <- app_assoc.
Qed.

(** The parameters of a group are the query keys of all its entries, each
    once, in order of first appearance; collecting them leaves the
    property registry and the console alone. *)
Theorem collect_query_params_keys (groupEntries : list HarEntry)
    (allQueryParams : JsMap.t (list jsstring)) (w w' : world) :
  collect_query_params groupEntries w = (Returns allQueryParams, w') ->
  w' = w
  /\ JsMap.keys allQueryParams
     = first_occurrences [] (query_keys groupEntries)
  /\ NoDup (JsMap.keys allQueryParams).
Proof.
  intros E. unfold collect_query_params in E.
  apply collect_loop_keys in E as [-> Hkeys].
  cbn [JsMap.keys JsMap.empty map app] in Hkeys.
  split; [reflexivity|]. split; [exact Hkeys|].
  rewrite Hkeys. apply first_occurrences_fresh.
Qed.

Lemma params_lines_loop (keys : list jsstring) :
  forall (lines0 lines : list jsstring) (w w' : world),
    for_of keys
      (fun lines key =>
         propName <- normalizePropertyName key ;;
         ret (lines ++
              [lit "  " ++ propName ++ lit "?: string | number | boolean;"]))
      lines0 w = (Returns lines, w') ->
    exists props,
      lines = lines0 ++ map optional_line props
      /\ List.length props = List.length keys.
Proof.
  induction keys as [|key keys IH]; intros lines0 lines w w' E.
  - apply ret_Returns in E as [<- _]. exists []. cbn.
    now rewrite app_nil_r.
  - cbn [for_of] in E. apply bind_Returns in E as (lines1 & w1 & E1 & E).
    apply bind_Returns in E1 as (propName & w2 & _ & E1).
    apply ret_Returns in E1 as [<- _].
    destruct (IH _ _ _ _ E) as (props & -> & Hlen).
    exists (propName :: props). cbn [map List.length].
    split; [now rewrite <- app_assoc | now rewrite Hlen].
Qed.

(** The parameter interface of a group has one line per distinct query
    key of the group, and every line declares an optional
    [string | number | boolean]: the values seen in the capture play no
    part. *)
Theorem params_interface_lines (paramsTypeName : jsstring)
    (groupEntries : list HarEntry)
    (allQueryParams : JsMap.t (list jsstring)) (w w1 w2 : world)
    (paramInterface : jsstring) :
  collect_query_params groupEntries w = (Returns allQueryParams, w1) ->
  params_interface paramsTypeName allQueryParams w1
  = (Returns paramInterface, w2) ->
  exists props,
    paramInterface
    = interface_text paramsTypeName (map optional_line props)
    /\ List.length props
       = List.length (first_occurrences [] (query_keys groupEntries)).
Proof.
  intros Ec Ep. unfold collect_query_params in Ec.
  apply collect_loop_keys in Ec as [_ Hkeys].
  cbn [JsMap.keys JsMap.empty map app] in Hkeys.
  unfold params_interface in Ep.
  apply bind_Returns in Ep as (lines & w3 & El & Ep).
  apply ret_Returns in Ep as [<- _].
  apply params_lines_loop in El as (props & -> & Hlen).
  exists props. split; [reflexivity|]. now rewrite Hlen, Hkeys.
Qed.

End QueryFacts.

Lemma collect_query_params_keys_witness :
  exists allQueryParams,
    @collect_query_params reference_host
      [Samples.get_ (lit "https://api.example.com/users?page=1");
       Samples.get_ (lit "https://api.example.com/users?page=2")]
      Samples.fresh_world
    = (Returns allQueryParams, Samples.fresh_world)
    /\ JsMap.keys allQueryParams = [lit "page"].
Proof.
  destruct (@collect_query_params reference_host
              [Samples.get_ (lit "https://api.example.com/users?page=1");
               Samples.get_ (lit "https://api.example.com/users?page=2")]
              Samples.fresh_world) as [[m| |] w'] eqn:E;
    [| vm_compute in E; discriminate | vm_compute in E; discriminate].
  destruct (@collect_query_params_keys reference_host _ m
              Samples.fresh_world w' E) as (-> & Hkeys & _).
  exists m. split; [reflexivity|]. rewrite Hkeys. vm_compute. reflexivity.
Defined.

Lemma params_interface_lines_witness :
  exists props,
    interface_text (lit "UsersParams") [optional_line (lit "page")]
    = interface_text (lit "UsersParams") (map optional_line props)
    /\ List.length props = 1%nat.
Proof.
  apply (@params_interface_lines reference_host (lit "UsersParams")
           [Samples.get_ (lit "https://api.example.com/users?page=1");
            Samples.get_ (lit "https://api.example.com/users?page=2")]
           [(lit "page", [lit "1"; lit "2"])]
           Samples.fresh_world Samples.fresh_world
           (mkWorld [(lit "page", lit "page")] [])).
  - vm_compute. reflexivity.
  - vm_compute. reflexivity.
Defined.

(* ================================================================== *)
(** ** The response loop, and a group without bodies *)
(* ================================================================== *)

Section ResponseFacts.
Context `{Host}.
Variable options : GeneratorOptions.


(** Entries without a response body leave the locals and
    [responseType]. *)
Lemma response_steps_without_body (responseTypeName groupUrl : jsstring)
    (entries : list HarEntry) (acc : listing * jsstring) (w : world) :
  Forall (fun e => truthy_text (content (response e)) = None) entries ->
  for_of entries (response_step options responseTypeName groupUrl) acc w
  = (Returns acc, w).
Proof.
  intros Hno. revert acc. induction Hno as [|e es He _ IH]; intros acc.
  - reflexivity.
  - simpl. unfold bind, response_step. destruct acc as [l b].
    rewrite He. apply IH.
Qed.


Lemma bind_run {A B} (c : M A) (k : A -> M B) (w w1 : world) (a : A) :
  c w = (Returns a, w1) -> bind c k w = k a w1.
Proof. intros E. unfold bind. now rewrite E. Qed.

Lemma collect_query_params_plain (groupEntries : list HarEntry) (w : world) :
  Forall plain_url groupEntries ->
  forall m0 : JsMap.t (list jsstring),
    for_of groupEntries
      (fun allQueryParams entry =>
         entryUrl <- lift (URL_new (url (request entry))) ;;
         ret (fold_left
                (fun (allQueryParams : JsMap.t (list jsstring))
                     '(key, value) =>
                   let allQueryParams :=
                     if JsMap.has allQueryParams key then allQueryParams
                     else JsMap.set allQueryParams key [] in
                   match JsMap.get allQueryParams key with
                   | Some values =>
                       JsMap.set allQueryParams key (set_add values value)
                   | None => allQueryParams
                   end)
                (searchParams entryUrl) allQueryParams))
      m0 w = (Returns m0, w).
Proof.
  induction 1 as [|entry entries (u & Hu & Hq) _ IH]; intros m0.
  - reflexivity.
  - cbn [for_of]. erewrite bind_run; [apply IH|].
    erewrite bind_run; [|rewrite Hu; reflexivity].
    rewrite Hq. reflexivity.
Qed.

(** A group whose entries have no query parameter, no request body and
    no response body adds one function to the listing and nothing else:
    the function of the first request, with the open parameter type, the
    body type [undefined] and the response type [ResponseBase<unknown>].
    The registry, the property registry and the console stay as they
    were. *)
Theorem process_group_bare (l : listing) (firstEntry : HarEntry)
    (rest : list HarEntry) (w : world) :
  Forall plain_url (firstEntry :: rest) ->
  Forall (fun e => truthy_text (postData (request e)) = None)
    (firstEntry :: rest) ->
  Forall (fun e => truthy_text (content (response e)) = None)
    (firstEntry :: rest) ->
  exists u,
    URL_new (url (request firstEntry)) = Normal u
    /\ process_group options l (firstEntry :: rest) w
       = (Returns
            (mkListing (typeRegistry l)
               (output l ++
                [Function_
                   (mkBinding (request firstEntry) u
                      (lit "{[key: string]: string | number | boolean | undefined}")
                      (lit "undefined")
                      (lit "ResponseBase<unknown>"))])),
          w).
Proof.
  intros Hplain Hreq Hres.
  pose proof (Forall_inv Hplain) as (u & Hu & Hq). exists u.
  split; [exact Hu|]. unfold process_group.
  erewrite bind_run; [|rewrite Hu; reflexivity].
  erewrite bind_run;
    [|exact (collect_query_params_plain _ w Hplain JsMap.empty)].
  cbn [JsMap.size JsMap.empty List.length].
  erewrite bind_run; [|reflexivity]. cbv beta iota.
  erewrite bind_run;
    [|exact (request_body_steps_without_body options _ _ _ w Hreq)].
  cbv beta iota.
  erewrite bind_run;
    [|exact (response_steps_without_body _ _ _ _ w Hres)].
  reflexivity.
Qed.

End ResponseFacts.


Lemma process_group_bare_witness :
  exists u,
    @URL_new reference_host (url (request (Samples.get_ Samples.users)))
    = Normal u
    /\ @process_group reference_host default_options Samples.fresh_listing
         [Samples.get_ Samples.users] Samples.fresh_world
       = (Returns
            (mkListing JsMap.empty
               [Preamble;
                Function_
                  (mkBinding (request (Samples.get_ Samples.users)) u
                     (lit "{[key: string]: string | number | boolean | undefined}")
                     (lit "undefined")
                     (lit "ResponseBase<unknown>"))]),
          Samples.fresh_world).
Proof.
  apply (@process_group_bare reference_host default_options
           Samples.fresh_listing (Samples.get_ Samples.users) []
           Samples.fresh_world).
  - constructor; [|constructor]. eexists. split; reflexivity.
  - repeat constructor.
  - repeat constructor.
Defined.

(* ================================================================== *)
(** ** The shape of a fingerprint *)
(* ================================================================== *)

Lemma ToInt32_range (z : Z) : - 2 ^ 31 <= ToInt32 z < 2 ^ 31.
Proof.
  unfold ToInt32.
  pose proof (Z.mod_pos_bound (z + 2 ^ 31) (2 ^ 32) eq_refl). lia.
Qed.

Lemma hash_fold_range (s : jsstring) (h : Z) :
  - 2 ^ 31 <= h < 2 ^ 31 ->
  - 2 ^ 31 <= fold_left hash_step s h < 2 ^ 31.
Proof.
  revert h. induction s as [|c s IH]; intros h Hh; cbn [fold_left].
  - exact Hh.
  - apply IH, ToInt32_range.
Qed.

Lemma digit36_base36 (d : Z) : 0 <= d < 36 -> is_base36 (digit36 d) = true.
Proof.
  intros Hd. unfold digit36, is_base36, is_digit, is_lower.
  destruct (d <? 10) eqn:E; [apply Z.ltb_lt in E | apply Z.ltb_ge in E].
  - replace (48 <=? 48 + d) with true by (symmetry; apply Z.leb_le; lia).
    replace (48 + d <=? 57) with true by (symmetry; apply Z.leb_le; lia).
    reflexivity.
  - replace (97 <=? 87 + d) with true by (symmetry; apply Z.leb_le; lia).
    replace (87 + d <=? 122) with true by (symmetry; apply Z.leb_le; lia).
    now rewrite orb_true_r.
Qed.

Lemma digits36_shape (fuel : nat) :
  forall (n : Z) (acc : jsstring),
    0 <= n ->
    exists ds,
      digits36 fuel n acc = ds ++ acc
      /\ forallb is_base36 ds = true
      /\ (fuel <> 0%nat -> ds <> [])
      /\ forall k : nat,
           n < 36 ^ Z.of_nat (S k) -> (List.length ds <= S k)%nat.
Proof.
  induction fuel as [|fuel IH]; intros n acc Hn; cbn [digits36].
  - exists []. repeat split; [congruence | intros; cbn; lia].
  - destruct (n <? 36) eqn:E;
      [apply Z.ltb_lt in E | apply Z.ltb_ge in E].
    + exists [digit36 n]. repeat split.
      * cbn [forallb]. rewrite digit36_base36 by lia. reflexivity.
      * discriminate.
      * intros k _. cbn [List.length]. lia.
    + destruct (IH (n / 36) (digit36 (n mod 36) :: acc))
        as (ds & Eds & Hds & _ & Hlen).
      { apply Z.div_pos; lia. }
      exists (ds ++ [digit36 (n mod 36)]). repeat split.
      * rewrite Eds, <- app_assoc. reflexivity.
      * rewrite forallb_app, Hds. cbn [forallb].
        rewrite digit36_base36; [reflexivity|].
        apply Z.mod_pos_bound. lia.
      * intros _. now destruct ds.
      * intros k Hk. rewrite length_app. cbn [List.length].
        destruct k as [|k].
        -- change (36 ^ Z.of_nat 1) with 36 in Hk. lia.
        -- assert (Hq : n / 36 < 36 ^ Z.of_nat (S k)).
           { apply Z.div_lt_upper_bound; [lia|].
             rewrite (Nat2Z.inj_succ (S k)), Z.pow_succ_r in Hk by lia.
             exact Hk. }
           specialize (Hlen k Hq). lia.
Qed.

(** A fingerprint is a short token: an optional minus sign, then one to
    six digits of base 36. *)
Theorem hashType_token (content : jsstring) :
  exists sign digits,
    hashType content = sign ++ digits
    /\ (sign = [] \/ sign = lit "-")
    /\ digits <> []
    /\ forallb is_base36 digits = true
    /\ (List.length digits <= 6)%nat.
Proof.
  unfold hashType.
  set (h := fold_left hash_step _ 0).
  assert (Hh : - 2 ^ 31 <= h < 2 ^ 31) by (apply hash_fold_range; lia).
  clearbody h. unfold toString36.
  destruct (h <? 0) eqn:E; [apply Z.ltb_lt in E | apply Z.ltb_ge in E].
  - destruct (digits36_shape (S (Z.to_nat (Z.log2 (- h)))) (- h) [])
      as (ds & Eds & Hds & Hne & Hlen); [lia|].
    exists (lit "-"), ds. rewrite Eds, app_nil_r.
    split; [reflexivity|]. split; [now right|].
    split; [now apply Hne|]. split; [exact Hds|].
    apply (Hlen 5%nat). change (36 ^ Z.of_nat 6) with 2176782336.
    change (2 ^ 31) with 2147483648 in Hh. lia.
  - destruct (digits36_shape (S (Z.to_nat (Z.log2 h))) h [])
      as (ds & Eds & Hds & Hne & Hlen); [lia|].
    exists [], ds. rewrite Eds, app_nil_r.
    split; [reflexivity|]. split; [now left|].
    split; [now apply Hne|]. split; [exact Hds|].
    apply (Hlen 5%nat). change (36 ^ Z.of_nat 6) with 2176782336.
    change (2 ^ 31) with 2147483648 in Hh. lia.
Qed.

(* ================================================================== *)
(** ** Names the hasher does not erase *)
(* ================================================================== *)

(** C6. A name token with a [$] is not erased from the fingerprint: the
    pattern for the name is [\w+], so [interface $A { id: number; }] and
    [interface $B { id: number; }] have different fingerprints. With the
    type prefix [$] and merging enabled, two request bodies of one shape
    are therefore both declared, where the empty prefix declares one. *)
Theorem hashType_keeps_dollar_names :
  hashType (lit "interface $A { id: number; }") = lit "n1917x"
  /\ hashType (lit "interface $B { id: number; }") = lit "-pm4wb6"
  /\ (exists l w,
        for_of [[Samples.post_ Samples.users (lit "id=1") Samples.form;
                 Samples.post_ Samples.users (lit "id=2") Samples.form]]
          (@process_group reference_host (mkOptions true (lit "$")))
          Samples.fresh_listing Samples.fresh_world = (Returns l, w)
        /\ declarations (output l)
           = [interface_text (lit "$UsersRequest")
                [field_line (lit "id") (lit "number")];
              interface_text (lit "$UsersRequest1")
                [field_line (lit "id") (lit "number")]]
        /\ body_types (output l) = [lit "$UsersRequest1"])
  /\ (exists l w,
        for_of [[Samples.post_ Samples.users (lit "id=1") Samples.form;
                 Samples.post_ Samples.users (lit "id=2") Samples.form]]
          (@process_group reference_host (mkOptions true []))
          Samples.fresh_listing Samples.fresh_world = (Returns l, w)
        /\ declarations (output l)
           = [interface_text (lit "UsersRequest")
                [field_line (lit "id") (lit "number")]]
        /\ body_types (output l) = [lit "UsersRequest"]).
Proof.
  split; [vm_compute; reflexivity|]. split; [vm_compute; reflexivity|].
  split; eexists _, _; (split; [vm_compute; reflexivity|]);
    split; vm_compute; reflexivity.
Qed.

(* ================================================================== *)
(** ** Form keys that are not identifiers *)
(* ================================================================== *)

(** C7. The entry point returns, but what it returns is not always a
    type definition: on the form text [=5&1st=x] it gives an interface
    whose two property names are the empty text and [1st], neither of
    them an identifier, and it takes no fallback and logs no warning. *)
Theorem generateTypeFromData_unusable_fields :
  @generateTypeFromData reference_host (lit "UsersRequest")
    (Text (lit "=5&1st=x")) (Some Samples.form) Samples.fresh_world
  = (Returns
       (interface_text (lit "UsersRequest")
          [field_line [] (lit "number"); field_line (lit "1st") (lit "string")]),
     mkWorld [([], []); (lit "1st", lit "1st")] [])
  /\ field_line [] (lit "number") = lit "  : number;"
  /\ field_line (lit "1st") (lit "string") = lit "  1st: string;"
  /\ is_identifier [] = false
  /\ is_identifier (lit "1st") = false
  /\ is_identifier (lit "id") = true.
Proof.
  split; [vm_compute; reflexivity|].
  split; [vm_compute; reflexivity|].
  split; [vm_compute; reflexivity|].
  split; [vm_compute; reflexivity|].
  split; vm_compute; reflexivity.
Qed.

(* ================================================================== *)
(** ** The request-body type of a group *)
(* ================================================================== *)

Section BodyTypeFacts.
Context `{Host}.
Variable options : GeneratorOptions.

Lemma process_group_body_stage (l l' : listing) (firstEntry : HarEntry)
    (rest : list HarEntry) (w w' : world) :
  process_group options l (firstEntry :: rest) w = (Returns l', w') ->
  exists u l2 w3 l3 bodyType w4 b,
    URL_new (url (request firstEntry)) = Normal u
    /\ typeRegistry l2 = typeRegistry l
    /\ request_body_loop options
         (typePrefix options ++ normalizeTypeName (getResourceName u)
          ++ lit "Request")
         (firstEntry :: rest) l2 w3
       = (Returns (l3, bodyType), w4)
    /\ last (output l') Preamble = Function_ b
    /\ b_request b = request firstEntry
    /\ b_bodyType b = bodyType.
Proof.
  intros E. unfold process_group in E.
  apply bind_Returns in E as (u & w1 & Hu & E).
  apply lift_Returns in Hu as [Hu ->].
  apply bind_Returns in E as (allQueryParams & w2 & _ & E).
  apply bind_Returns in E as ([l2 paramsType] & w3 & Hp & E).
  apply bind_Returns in E as ([l3 bodyType] & w4 & Hb & E).
  apply bind_Returns in E as ([l4 responseType] & w5 & _ & E).
  apply ret_Returns in E as [<- _].
  exists u, l2, w3, l3, bodyType, w4,
    (mkBinding (request firstEntry) u paramsType bodyType responseType).
  split; [exact Hu|]. split.
  { destruct (JsMap.size allQueryParams).
    - now apply ret_Returns in Hp as [[= <- <-] _].
    - apply bind_Returns in Hp as (paramInterface & w6 & _ & Hp).
      now apply ret_Returns in Hp as [[= <- <-] _]. }
  split; [exact Hb|]. cbn [output]. rewrite last_last. auto.
Qed.

(** C8. In a group, the body type of the emitted function is the name
    resolved for the last entry, in capture order, that carries a
    request body text. The group is processed to its end, the function
    is the last piece of the listing, and its body type is what the
    registration of that entry's definition returned in the state the
    earlier entries left: the entry's candidate name, or with merging the
    name of the earlier entry with the same fingerprint. It names a
    registry entry with the fingerprint of that definition. The names
    the earlier entries resolved to are overwritten. *)
Theorem request_body_last_entry_wins
    (earlier later : list HarEntry) (entry : HarEntry) (body : jsstring)
    (l : listing) (w : world) :
  urls_parse (earlier ++ entry :: later) ->
  truthy_text (postData (request entry)) = Some body ->
  Forall (fun e => truthy_text (postData (request e)) = None) later ->
  exists l' w' b u requestTypeName lp wp l0 bodyType0 w0
         definition w1 finalName emitted l1,
    process_group options l (earlier ++ entry :: later) w = (Returns l', w')
    /\ last (output l') Preamble = Function_ b
    /\ b_bodyType b = finalName
    /\ URL_new (url (request (hd entry earlier))) = Normal u
    /\ requestTypeName
       = typePrefix options ++ normalizeTypeName (getResourceName u)
         ++ lit "Request"
    /\ typeRegistry lp = typeRegistry l
    /\ request_body_loop options requestTypeName earlier lp wp
       = (Returns (l0, bodyType0), w0)
    /\ generateTypeFromData
         (requestTypeName ++ size_suffix (JsMap.size (typeRegistry l0)))
         (Text body) (declared_mime (postData (request entry))) w0
       = (Returns definition, w1)
    /\ register (mergeTypes options)
         (requestTypeName ++ size_suffix (JsMap.size (typeRegistry l0)))
         definition l0
       = (finalName, emitted, l1)
    /\ exists t,
         In t (JsMap.values (typeRegistry l1))
         /\ name t = finalName /\ hash t = hashType definition.
Proof.
  intros Hparse Hbody Hlater.
  assert (Hhd : exists rest,
             earlier ++ entry :: later = hd entry earlier :: rest).
  { destruct earlier as [|e earlier']; cbn; eauto. }
  destruct Hhd as [rest Hgroup].
  destruct (total_process_group options l (earlier ++ entry :: later))
    with (w := w) as (l' & w' & E);
    [now destruct earlier | exact Hparse |].
  pose proof E as E'. rewrite Hgroup in E'.
  apply process_group_body_stage in E'
    as (u & lp & wp & l3 & bodyType & w4 & b & Hu & Hreg & Hb & Hlast & _
        & Hbt).
  rewrite <- Hgroup in Hb.
  set (requestTypeName :=
         typePrefix options ++ normalizeTypeName (getResourceName u)
         ++ lit "Request") in *.
  destruct (request_body_loop_last_body options requestTypeName body
              earlier later entry lp wp Hbody Hlater)
    as (l0 & bodyType0 & w0 & definition & w1 & finalName & emitted & l1
        & E0 & E1 & R & Eloop & T).
  rewrite Eloop in Hb. injection Hb as <- <- <-.
  exists l', w', b, u, requestTypeName, lp, wp, l0, bodyType0, w0,
    definition, w1, finalName, emitted, l1.
  repeat split; try assumption; try reflexivity.
Qed.

End BodyTypeFacts.

Lemma request_body_last_entry_wins_witness :
  exists l' w' b,
    @process_group reference_host default_options Samples.fresh_listing
      ([Samples.post_ Samples.users (lit "id=1") Samples.form]
       ++ Samples.post_ Samples.users (lit "active=true") Samples.form
       :: [Samples.get_ Samples.users])
      Samples.fresh_world
    = (Returns l', w')
    /\ last (output l') Preamble = Function_ b
    /\ b_bodyType b = lit "UsersRequest1".
Proof.
  destruct (@request_body_last_entry_wins reference_host default_options
              [Samples.post_ Samples.users (lit "id=1") Samples.form]
              [Samples.get_ Samples.users]
              (Samples.post_ Samples.users (lit "active=true") Samples.form)
              (lit "active=true")
              Samples.fresh_listing Samples.fresh_world)
    as (l' & w' & b & u & requestTypeName & lp & wp & l0 & b0 & w0
        & definition & w1 & finalName & emitted & l1
        & E & Hlast & Hbt & _);
    [ repeat constructor; eexists; reflexivity
    | reflexivity
    | repeat constructor
    | ].
  exists l', w', b. split; [exact E|]. split; [exact Hlast|].
  vm_compute in E. injection E as <- _.
  vm_compute in Hlast. injection Hlast as <-. reflexivity.
Defined.

(** C8 (as the spec has it) fails. Of three form bodies [id=1],
    [name=bob], [id=7] the last one registers nothing: it is merged into
    the declaration of the first. The last registration is that of the
    second body, [UsersRequest1], yet the function takes [UsersRequest].
    And of the bodies [id=1] and the JSON text [42] the second fails
    inference: it is registered as the alias [any] with a warning, and
    that alias is the body type of the function. *)
Lemma last_registered_body_is_not_representative :
  (exists l2 b2 w2 l3 w3,
     @request_body_loop reference_host default_options (lit "UsersRequest")
       [Samples.post_ Samples.users (lit "id=1") Samples.form;
        Samples.post_ Samples.users (lit "name=bob") Samples.form]
       Samples.fresh_listing Samples.fresh_world
     = (Returns (l2, b2), w2)
     /\ b2 = lit "UsersRequest1"
     /\ JsMap.keys (typeRegistry l2)
        = [lit "UsersRequest"; lit "UsersRequest1"]
     /\ @request_body_loop reference_host default_options (lit "UsersRequest")
          [Samples.post_ Samples.users (lit "id=1") Samples.form;
           Samples.post_ Samples.users (lit "name=bob") Samples.form;
           Samples.post_ Samples.users (lit "id=7") Samples.form]
          Samples.fresh_listing Samples.fresh_world
        = (Returns (l3, lit "UsersRequest"), w3)
     /\ typeRegistry l3 = typeRegistry l2
     /\ output l3 = output l2)
  /\ (exists l w,
        @process_group reference_host default_options Samples.fresh_listing
          [Samples.post_ Samples.users (lit "id=1") Samples.form;
           Samples.post_ Samples.users (lit "name=bob") Samples.form;
           Samples.post_ Samples.users (lit "id=7") Samples.form]
          Samples.fresh_world = (Returns l, w)
        /\ declarations (output l)
           = [interface_text (lit "UsersRequest")
                [field_line (lit "id") (lit "number")];
              interface_text (lit "UsersRequest1")
                [field_line (lit "name") (lit "string")]]
        /\ body_types (output l) = [lit "UsersRequest"])
  /\ (exists l w,
        @process_group reference_host default_options Samples.fresh_listing
          [Samples.post_ Samples.users (lit "id=1") Samples.form;
           Samples.post_ Samples.users (lit "42") (lit "application/json")]
          Samples.fresh_world = (Returns l, w)
        /\ declarations (output l)
           = [interface_text (lit "UsersRequest")
                [field_line (lit "id") (lit "number")];
              any_alias (lit "UsersRequest1")]
        /\ body_types (output l) = [lit "UsersRequest1"]
        /\ console w
           = [WarnFallbackAny (lit "UsersRequest1")
                (Error (lit "Invalid JSON: not an object"))]).
Proof.
  split; [|split].
  - eexists _, _, _, _, _.
    split; [vm_compute; reflexivity|].
    split; [vm_compute; reflexivity|].
    split; [vm_compute; reflexivity|].
    split; [vm_compute; reflexivity|].
    split; vm_compute; reflexivity.
  - eexists _, _. split; [vm_compute; reflexivity|].
    split; vm_compute; reflexivity.
  - eexists _, _. split; [vm_compute; reflexivity|].
    split; [vm_compute; reflexivity|].
    split; vm_compute; reflexivity.
Qed.
